(** * fileutils.File: the buffered, mutex-guarded file writer

    A shallow embedding of the [File] type of package [fileutils] and of its
    methods.  A method of [*File] is a computation over a world made of the
    receiver and of the operating system it talks to.  A computation either
    returns, blocks forever on the mutex, or panics. *)

From Stdlib.Strings Require Import String Ascii Byte.
From Stdlib Require Import ZArith List Bool Lia.
Import ListNotations.

Local Open Scope Z_scope.

(** ** Errors

    One constructor for each [fmt.Errorf] format of the package; [%w] wraps the
    cause.  [Errno] stands for an error reported by the operating system. *)

Inductive error : Type :=
| Errno (code : Z)
| os_ErrClosed                                           (* "file already closed" *)
| ErrFileClosed (name : string)                          (* "file %s is closed" *)
| ErrOpenFile (name : string) (flag : Z) (cause : error) (* "failed to open file %s with mode %d: %w" *)
| ErrInitialize (name : string) (cause : error)          (* "failed to initialize file %s: %w" *)
| ErrWriteFile (name : string) (cause : error)           (* "failed to write to file %s: %w" *)
| ErrFlushFile (name : string) (cause : error)           (* "failed to flush file %s: %w" *)
| ErrCloseFile (name : string) (cause : error).          (* "failed to close file %s: %w" *)

Definition ENOENT : error := Errno 2.
Definition EBADF : error := Errno 9.
Definition EEXIST : error := Errno 17.

(** ** The operating system seen by one writer

    Packages [os] and [bufio] are not part of the repository.  They are
    modelled by the interface the writer uses: open, adapter write, adapter
    flush, close.  [disk] is the content of the backing file ([None]: the file
    does not exist).  Every call is recorded in [calls].  Whether a call fails
    for a reason of the environment (full disk, permissions, ...) is decided by
    [faults]: each call consumes the head of the list, [Some e] makes it fail
    with [e], [None] or an exhausted list lets it go through. *)

Inductive Call : Type :=
| CallOpenFile (name : string) (flag perm : Z)
| CallWrite (data : list byte)
| CallFlush
| CallClose.

Record OS : Type := mkOS {
  disk : option (list byte);
  faults : list (option error);
  calls : list Call
}.

Definition record (c : Call) (o : OS) : OS :=
  mkOS (disk o) (faults o) (calls o ++ [c]).

Definition next_fault (o : OS) : option error * OS :=
  match faults o with
  | [] => (None, o)
  | x :: rest => (x, mkOS (disk o) rest (calls o))
  end.

Definition set_disk (d : option (list byte)) (o : OS) : OS :=
  mkOS d (faults o) (calls o).

(** Open flags, with their linux values. *)
Definition O_RDONLY : Z := 0.
Definition O_WRONLY : Z := 1.
Definition O_CREATE : Z := 64.
Definition O_EXCL : Z := 128.
Definition O_TRUNC : Z := 512.
Definition O_APPEND : Z := 1024.

Definition has_flag (flag bit : Z) : bool := negb (Z.land flag bit =? 0).

(** [*os.File]: the open flags, the file offset, and whether the descriptor
    was released. *)
Record os_File : Type := mkFd {
  fd_flag : Z;
  fd_off : nat;
  fd_closed : bool
}.

Definition os_OpenFile (name : string) (flag perm : Z) (o : OS)
  : (option os_File * option error) * OS :=
  let (flt, o1) := next_fault (record (CallOpenFile name flag perm) o) in
  match flt with
  | Some e => ((None, Some e), o1)
  | None =>
    let fd := mkFd flag 0 false in
    match disk o1 with
    | None =>
      if has_flag flag O_CREATE
      then ((Some fd, None), set_disk (Some []) o1)
      else ((None, Some ENOENT), o1)
    | Some d =>
      if has_flag flag O_CREATE && has_flag flag O_EXCL
      then ((None, Some EEXIST), o1)
      else if has_flag flag O_TRUNC
      then ((Some fd, None), set_disk (Some []) o1)
      else ((Some fd, None), o1)
    end
  end.

(** Overwrite [d] with [data] from position [pos] on. *)
Definition write_at (pos : nat) (data d : list byte) : list byte :=
  firstn pos d ++ data ++ skipn (pos + length data) d.

(** The write system call on a descriptor: at the end of the file under
    [O_APPEND], at the descriptor's offset otherwise. *)
Definition os_File_write (fd : os_File) (data : list byte) (o : OS)
  : (option error * os_File) * OS :=
  if fd_closed fd then ((Some os_ErrClosed, fd), o)
  else if Z.land (fd_flag fd) 3 =? O_RDONLY then ((Some EBADF, fd), o)
  else
    match disk o with
    | None => ((None, fd), o)
    | Some d =>
      let pos := if has_flag (fd_flag fd) O_APPEND then length d else fd_off fd in
      ((None, mkFd (fd_flag fd) (pos + length data) false),
       set_disk (Some (write_at pos data d)) o)
    end.

(** [Close] of [os.File]: the descriptor is released whatever the system call
    answers. *)
Definition os_File_Close (fd : os_File) (o : OS) : (option error * os_File) * OS :=
  let o0 := record CallClose o in
  if fd_closed fd then ((Some os_ErrClosed, fd), o0)
  else
    let (flt, o1) := next_fault o0 in
    ((flt, mkFd (fd_flag fd) (fd_off fd) true), o1).

(** [*bufio.Writer]: the buffered-write adapter around the file. [wbuf] holds
    the bytes the adapter accepted and has not passed to the file yet.

    The adapter is modelled as part of the environment: a write or a flush is
    refused when the fault list says so, and only then.  Go's adapter is more
    specific: it keeps its first error and refuses every later call, and it
    passes a payload larger than its free space straight to the file.  Every
    answer that adapter can give is an answer of this one for some fault list;
    the lemmas on [flush] below hold whatever the adapter answers. *)
Record bufio_Writer : Type := mkBufio { wbuf : list byte }.

Definition bufio_NewWriter : bufio_Writer := mkBufio [].

Definition bufio_Write (bw : bufio_Writer) (data : list byte) (o : OS)
  : (option error * bufio_Writer) * OS :=
  let (flt, o1) := next_fault (record (CallWrite data) o) in
  match flt with
  | Some e => ((Some e, bw), o1)
  | None => ((None, mkBufio (wbuf bw ++ data)), o1)
  end.

Definition bufio_Flush (bw : bufio_Writer) (fd : os_File) (o : OS)
  : ((option error * bufio_Writer) * os_File) * OS :=
  let (flt, o1) := next_fault (record CallFlush o) in
  match flt with
  | Some e => (((Some e, bw), fd), o1)
  | None =>
    match wbuf bw with
    | [] => (((None, bw), fd), o1)
    | _ :: _ =>
      match os_File_write fd (wbuf bw) o1 with
      | ((Some e, fd'), o2) => (((Some e, bw), fd'), o2)
      | ((None, fd'), o2) => (((None, mkBufio []), fd'), o2)
      end
    end
  end.

(** ** sync.RWMutex *)

Record RWMutex : Type := mkMutex {
  writer : bool;
  readers : nat
}.

Definition unlocked : RWMutex := mkMutex false 0.

(** ** The writer *)

(** Predefined open modes. *)
Definition ModeCreate : Z := Z.lor (Z.lor O_WRONLY O_CREATE) O_EXCL.
Definition ModeOverwrite : Z := Z.lor (Z.lor O_WRONLY O_CREATE) O_TRUNC.
Definition ModeAppend : Z := Z.lor (Z.lor O_WRONLY O_CREATE) O_APPEND.

(** A function value may be [nil]: [Handler] and [Encoder] are options. *)
Record File : Type := mkFile {
  filename : string;
  mode : Z;
  encode : bool;
  lazy : bool;
  bufferSize : Z;
  initialized : bool;
  closed : bool;
  fileHandler : option os_File;
  fileWriter : option bufio_Writer;
  buf : list byte;
  mutex : RWMutex;
  Handler : option (string -> string);
  Encoder : option (list byte -> list byte)
}.

Definition set_encode (v : bool) (f : File) : File :=
  mkFile (filename f) (mode f) v (lazy f) (bufferSize f) (initialized f)
         (closed f) (fileHandler f) (fileWriter f) (buf f) (mutex f)
         (Handler f) (Encoder f).

Definition set_bufferSize (v : Z) (f : File) : File :=
  mkFile (filename f) (mode f) (encode f) (lazy f) v (initialized f)
         (closed f) (fileHandler f) (fileWriter f) (buf f) (mutex f)
         (Handler f) (Encoder f).

Definition set_initialized (v : bool) (f : File) : File :=
  mkFile (filename f) (mode f) (encode f) (lazy f) (bufferSize f) v
         (closed f) (fileHandler f) (fileWriter f) (buf f) (mutex f)
         (Handler f) (Encoder f).

Definition set_closed (v : bool) (f : File) : File :=
  mkFile (filename f) (mode f) (encode f) (lazy f) (bufferSize f) (initialized f)
         v (fileHandler f) (fileWriter f) (buf f) (mutex f)
         (Handler f) (Encoder f).

Definition set_fileHandler (v : option os_File) (f : File) : File :=
  mkFile (filename f) (mode f) (encode f) (lazy f) (bufferSize f) (initialized f)
         (closed f) v (fileWriter f) (buf f) (mutex f)
         (Handler f) (Encoder f).

Definition set_fileWriter (v : option bufio_Writer) (f : File) : File :=
  mkFile (filename f) (mode f) (encode f) (lazy f) (bufferSize f) (initialized f)
         (closed f) (fileHandler f) v (buf f) (mutex f)
         (Handler f) (Encoder f).

Definition set_buf (v : list byte) (f : File) : File :=
  mkFile (filename f) (mode f) (encode f) (lazy f) (bufferSize f) (initialized f)
         (closed f) (fileHandler f) (fileWriter f) v (mutex f)
         (Handler f) (Encoder f).

Definition set_mutex (v : RWMutex) (f : File) : File :=
  mkFile (filename f) (mode f) (encode f) (lazy f) (bufferSize f) (initialized f)
         (closed f) (fileHandler f) (fileWriter f) (buf f) v
         (Handler f) (Encoder f).

Definition set_Handler (v : option (string -> string)) (f : File) : File :=
  mkFile (filename f) (mode f) (encode f) (lazy f) (bufferSize f) (initialized f)
         (closed f) (fileHandler f) (fileWriter f) (buf f) (mutex f)
         v (Encoder f).

Definition set_Encoder (v : option (list byte -> list byte)) (f : File) : File :=
  mkFile (filename f) (mode f) (encode f) (lazy f) (bufferSize f) (initialized f)
         (closed f) (fileHandler f) (fileWriter f) (buf f) (mutex f)
         (Handler f) v.

(** ** Computations *)

Record World : Type := mkWorld {
  self : File;
  os : OS
}.

Inductive Outcome (A : Type) : Type :=
| Ret (a : A)
| Deadlock     (* the goroutine waits for ever *)
| Panic.       (* run-time panic *)

Arguments Ret {A} a.
Arguments Deadlock {A}.
Arguments Panic {A}.

Definition M (A : Type) : Type := World -> Outcome (A * World).

Definition ret {A} (a : A) : M A := fun w => Ret (a, w).

Definition bind {A B} (c : M A) (k : A -> M B) : M B :=
  fun w =>
    match c w with
    | Ret (a, w') => k a w'
    | Deadlock => Deadlock
    | Panic => Panic
    end.

Declare Scope go_scope.
Delimit Scope go_scope with go.
Notation "x <- c ;; k" := (bind c (fun x => k))
  (at level 61, c at next level, right associativity) : go_scope.
Notation "c ;; k" := (bind c (fun _ => k))
  (at level 61, right associativity) : go_scope.
Local Open Scope go_scope.

Definition panic {A} : M A := fun _ => Panic.

(** The receiver [f]. *)
Definition this : M File := fun w => Ret (self w, w).

Definition update (g : File -> File) : M unit :=
  fun w => Ret (tt, mkWorld (g (self w)) (os w)).

Definition syscall {A} (c : OS -> A * OS) : M A :=
  fun w => let (a, o) := c (os w) in Ret (a, mkWorld (self w) o).

Definition len (l : list byte) : Z := Z.of_nat (length l).

(** *** The mutex operations

    [Lock] on a mutex that is held does not return: the mutex is not
    re-entrant, and nobody else will release it. *)

Definition Lock : M unit :=
  fun w =>
    let m := mutex (self w) in
    if writer m || negb (Nat.eqb (readers m) 0) then Deadlock
    else Ret (tt, mkWorld (set_mutex (mkMutex true (readers m)) (self w)) (os w)).

Definition Unlock : M unit :=
  fun w =>
    let m := mutex (self w) in
    if writer m
    then Ret (tt, mkWorld (set_mutex (mkMutex false (readers m)) (self w)) (os w))
    else Panic.

Definition RLock : M unit :=
  fun w =>
    let m := mutex (self w) in
    if writer m then Deadlock
    else Ret (tt, mkWorld (set_mutex (mkMutex false (S (readers m))) (self w)) (os w)).

Definition RUnlock : M unit :=
  fun w =>
    let m := mutex (self w) in
    match readers m with
    | O => Panic
    | S n => Ret (tt, mkWorld (set_mutex (mkMutex (writer m) n) (self w)) (os w))
    end.

(** [f.mutex.Lock(); defer f.mutex.Unlock(); body] *)
Definition locked {A} (body : M A) : M A :=
  Lock ;; r <- body ;; Unlock ;; ret r.

(** [f.mutex.RLock(); defer f.mutex.RUnlock(); body] *)
Definition rlocked {A} (body : M A) : M A :=
  RLock ;; r <- body ;; RUnlock ;; ret r.

(** *** bytes.Buffer *)

(** [f.buf.Write(p)]: appends, returns [len(p)] and a nil error. *)
Definition bytes_Buffer_Write (p : list byte) : M (Z * option error) :=
  update (fun f => set_buf (buf f ++ p) f) ;; ret (len p, None).

(** [f.buf.Reset()] *)
Definition bytes_Buffer_Reset : M unit := update (set_buf []).

(** *** Methods *)

(** [func (f *File) init() error] *)
Definition init : M (option error) :=
  locked (
    f <- this ;;
    if initialized f then ret None
    else
      r <- syscall (os_OpenFile (filename f) (mode f) 420 (* 0644 *)) ;;
      update (set_fileHandler (fst r)) ;;
      match snd r with
      | Some err => ret (Some (ErrOpenFile (filename f) (mode f) err))
      | None =>
        update (set_fileWriter (Some bufio_NewWriter)) ;;
        update (set_initialized true) ;;
        ret None
      end).

(** [func (f *File) flush() error]; the caller holds the lock.  The adapter
    writes to the file [f.fileHandler] it was built around. *)
Definition flush : M (option error) :=
  f <- this ;;
  match fileHandler f with
  | None => ret None
  | Some fd =>
    if len (buf f) =? 0 then ret None
    else
      data <- (if encode f
               then match Encoder f with
                    | Some enc => ret (enc (buf f))
                    | None => panic
                    end
               else ret (buf f)) ;;
      match fileWriter f with
      | None => panic
      | Some bw =>
        r <- syscall (bufio_Write bw data) ;;
        update (set_fileWriter (Some (snd r))) ;;
        match fst r with
        | Some err => ret (Some (ErrWriteFile (filename f) err))
        | None =>
          bytes_Buffer_Reset ;;
          r2 <- syscall (bufio_Flush (snd r) fd) ;;
          update (set_fileWriter (Some (snd (fst r2)))) ;;
          update (set_fileHandler (Some (snd r2))) ;;
          match fst (fst r2) with
          | Some err => ret (Some (ErrFlushFile (filename f) err))
          | None => ret None
          end
        end
      end
  end.

(** [func (f *File) Write(p []byte) (n int, err error)] *)
Definition Write (p : list byte) : M (Z * option error) :=
  locked (
    f <- this ;;
    if closed f then ret (0, Some (ErrFileClosed (filename f)))
    else
      ie <- (if negb (initialized f) then init else ret None) ;;
      match ie with
      | Some err => ret (0, Some err)
      | None =>
        r <- bytes_Buffer_Write p ;;
        match snd r with
        | Some err => ret (fst r, Some err)
        | None =>
          f1 <- this ;;
          fe <- (if bufferSize f1 <=? len (buf f1) then flush else ret None) ;;
          match fe with
          | Some err => ret (fst r, Some err)
          | None => ret (len p, None)
          end
        end
      end).

(** [func (f *File) WriteString(s string) (n int, err error)] *)
Definition WriteString (s : string) : M (Z * option error) :=
  Write (list_byte_of_string s).

(** [func (f *File) SafeWrite(s string) error] *)
Definition SafeWrite (s : string) : M (option error) :=
  f <- this ;;
  match Handler f with
  | None => panic
  | Some h =>
    let processed := h s in
    r <- WriteString processed ;;
    ret (snd r)
  end.

Definition newline : string := String "010"%char EmptyString.

(** [func (f *File) WriteLine(s string) error] *)
Definition WriteLine (s : string) : M (option error) :=
  r <- WriteString (s ++ newline)%string ;;
  ret (snd r).

(** [func (f *File) WriteBytes(bs []byte) error] *)
Definition WriteBytes (bs : list byte) : M (option error) :=
  r <- Write bs ;;
  ret (snd r).

(** [func (f *File) Sync() error] *)
Definition Sync : M (option error) := locked flush.

(** [func (f *File) SyncWrite(s string) error] *)
Definition SyncWrite (s : string) : M (option error) :=
  e <- SafeWrite s ;;
  match e with
  | Some err => ret (Some err)
  | None => Sync
  end.

(** [func (f *File) Close() error] *)
Definition Close : M (option error) :=
  locked (
    f <- this ;;
    if closed f then ret None
    else
      fe <- flush ;;
      match fe with
      | Some err => ret (Some err)
      | None =>
        f1 <- this ;;
        ce <- match fileHandler f1 with
              | None => ret None
              | Some fd =>
                r <- syscall (os_File_Close fd) ;;
                update (set_fileHandler (Some (snd r))) ;;
                match fst r with
                | Some err => ret (Some (ErrCloseFile (filename f1) err))
                | None => ret None
                end
              end ;;
        match ce with
        | Some err => ret (Some err)
        | None => update (set_closed true) ;; ret None
        end
      end).

(** Accessors. *)
Definition IsInitialized : M bool := rlocked (f <- this ;; ret (initialized f)).
Definition IsClosed : M bool := rlocked (f <- this ;; ret (closed f)).
Definition GetFilename : M string := f <- this ;; ret (filename f).
Definition GetMode : M Z := f <- this ;; ret (mode f).
Definition BufferLen : M Z := rlocked (f <- this ;; ret (len (buf f))).

(** [func (f *File) SetBufferSize(size int)] *)
Definition SetBufferSize (size : Z) : M unit :=
  locked (if 0 <? size then update (set_bufferSize size) else ret tt).

(** [func (f *File) SetHandler(handler func(string) string)] *)
Definition SetHandler (handler : option (string -> string)) : M unit :=
  locked (match handler with
          | Some _ => update (set_Handler handler)
          | None => ret tt
          end).

(** [func (f *File) SetEncoder(encoder func([]byte) []byte)] *)
Definition SetEncoder (encoder : option (list byte -> list byte)) : M unit :=
  locked (match encoder with
          | Some _ => update (set_Encoder encoder)
          | None => ret tt
          end).

(** [func (f *File) EnableEncoding(enable bool)] *)
Definition EnableEncoding (enable : bool) : M unit :=
  locked (update (set_encode enable)).

(** ** Constructors *)

Module FileOptions.
Record t : Type := mk {
  Mode : Z;
  Encode : bool;
  Lazy : bool;
  BufferSize : Z;
  Handler : option (string -> string);
  Encoder : option (list byte -> list byte)
}.
End FileOptions.

(** What a constructor returns: the pair of [*File] and [error], and the operating system
    it leaves behind. *)
Definition Constructed : Type := Outcome ((option File * option error) * OS).

Section Constructors.

(** [en.MustDeflateDeCompress], of package [encode] of the repository, whose
    source is not at hand: a function from bytes to bytes. *)
Variable MustDeflateDeCompress : list byte -> list byte.

(** [func NewFile(filename string, mode int, encode, lazy bool) ( *File, error )] *)
Definition NewFile (name : string) (flag : Z) (enc lzy : bool) (o : OS)
  : Constructed :=
  let file :=
    {| filename := name;
       mode := flag;
       encode := enc;
       lazy := lzy;
       buf := [];
       bufferSize := 4096;
       initialized := false;
       closed := false;
       fileHandler := None;
       fileWriter := None;
       mutex := unlocked;
       Handler := Some (fun s => s);
       Encoder := Some MustDeflateDeCompress |} in
  if negb lzy then
    match init (mkWorld file o) with
    | Ret (Some err, w) => Ret ((None, Some (ErrInitialize name err)), os w)
    | Ret (None, w) => Ret ((Some (self w), None), os w)
    | Deadlock => Deadlock
    | Panic => Panic
    end
  else Ret ((Some file, None), o).

(** [func DefaultFileOptions() *FileOptions] *)
Definition DefaultFileOptions : FileOptions.t :=
  {| FileOptions.Mode := ModeAppend;
     FileOptions.Encode := false;
     FileOptions.Lazy := false;
     FileOptions.BufferSize := 4096;
     FileOptions.Handler := Some (fun s => s);
     FileOptions.Encoder := Some MustDeflateDeCompress |}.

(** [func NewFileWithOptions(filename string, opts *FileOptions) ( *File, error )];
    [opts] may be [nil]. *)
Definition NewFileWithOptions (name : string) (opts : option FileOptions.t) (o : OS)
  : Constructed :=
  let opts := match opts with
              | None => DefaultFileOptions
              | Some given => given
              end in
  let file :=
    {| filename := name;
       mode := FileOptions.Mode opts;
       encode := FileOptions.Encode opts;
       lazy := FileOptions.Lazy opts;
       buf := [];
       bufferSize := FileOptions.BufferSize opts;
       initialized := false;
       closed := false;
       fileHandler := None;
       fileWriter := None;
       mutex := unlocked;
       Handler := FileOptions.Handler opts;
       Encoder := FileOptions.Encoder opts |} in
  if negb (FileOptions.Lazy opts) then
    match init (mkWorld file o) with
    | Ret (Some err, w) => Ret ((None, Some (ErrInitialize name err)), os w)
    | Ret (None, w) => Ret ((Some (self w), None), os w)
    | Deadlock => Deadlock
    | Panic => Panic
    end
  else Ret ((Some file, None), o).

End Constructors.

(** ** States of the writer *)

(** The lock is free: no method of the writer is running. *)
Definition idle (w : World) : Prop := mutex (self w) = unlocked.

(** The fields that [init] sets together stay together: without a handle the
    writer is not initialized and has buffered nothing; with a handle it is
    initialized and has its adapter. *)
Definition wf (f : File) : bool :=
  match fileHandler f, fileWriter f with
  | None, _ => negb (initialized f) && (len (buf f) =? 0)
  | Some _, Some _ => initialized f
  | Some _, None => false
  end.

(** The configuration a setter accepts: positive threshold, preprocessor and
    encoder present. *)
Definition valid_config (f : File) : bool :=
  (0 <? bufferSize f) &&
  match Handler f, Encoder f with
  | Some _, Some _ => true
  | _, _ => false
  end.

(** The three states of the life cycle. *)
Inductive Lifecycle : Type := Uninitialized | Initialized | Closed.

Definition lifecycle (f : File) : Lifecycle :=
  if closed f then Closed
  else if initialized f then Initialized
  else Uninitialized.

(** A file system with no file in it and no failure to come. *)
Definition fresh : OS := mkOS None [] [].

Definition bytes (s : string) : list byte := list_byte_of_string s.

(** ** Auxiliary notions for the statements *)

(** What [flush] hands to the adapter: the buffer, through the encoder when
    encoding is on ([None]: encoding is on and there is no encoder). *)
Definition encoded (f : File) (bs : list byte) : option (list byte) :=
  if encode f
  then match Encoder f with
       | Some enc => Some (enc bs)
       | None => None
       end
  else Some bs.

Definition payload (f : File) : option (list byte) := encoded f (buf f).

(** The fields that only constructors and setters touch. *)
Definition same_settings (f g : File) : Prop :=
  filename g = filename f /\ mode g = mode f /\ encode g = encode f /\
  lazy g = lazy f /\ bufferSize g = bufferSize f /\
  Handler g = Handler f /\ Encoder g = Encoder f.

(** The lock taken and released by a method that starts with the lock free. *)
Definition acquire (w : World) : World :=
  mkWorld (set_mutex (mkMutex true 0) (self w)) (os w).

Definition release (w : World) : World :=
  mkWorld (set_mutex unlocked (self w)) (os w).

(** The lock released by the deferred [Unlock]. *)
Definition unlock_of (w : World) : World :=
  mkWorld (set_mutex (mkMutex false (readers (mutex (self w)))) (self w)) (os w).

(** What [flush] leaves alone: the settings, the life cycle, the lock, and
    the presence of the handle and of the adapter. *)
Definition flush_frame (f g : File) : Prop :=
  same_settings f g /\
  initialized g = initialized f /\ closed g = closed f /\ mutex g = mutex f /\
  (fileHandler g = None <-> fileHandler f = None) /\
  (fileWriter g = None <-> fileWriter f = None).

(** The three ways a flush attempt with something to write can end: the
    adapter refuses the payload and the buffer is kept; or it accepts the
    payload, the buffer is reset, and the adapter's own flush fails or
    succeeds. *)
Inductive flush_end (w : World) (data : list byte)
  : option error -> World -> Prop :=
| write_failed c w' :
    buf (self w') = buf (self w) ->
    calls (os w') = calls (os w) ++ [CallWrite data] ->
    flush_end w data (Some (ErrWriteFile (filename (self w)) c)) w'
| flush_failed c w' :
    buf (self w') = [] ->
    calls (os w') = calls (os w) ++ [CallWrite data; CallFlush] ->
    flush_end w data (Some (ErrFlushFile (filename (self w)) c)) w'
| flush_done w' :
    buf (self w') = [] ->
    calls (os w') = calls (os w) ++ [CallWrite data; CallFlush] ->
    flush_end w data None w'.

(** The world once [p] is appended to the buffer. *)
Definition append_buf (p : list byte) (w : World) : World :=
  mkWorld (set_buf (buf (self w) ++ p) (self w)) (os w).

(** The world once the last step of [Close] is done. *)
Definition mark_closed (w : World) : World :=
  mkWorld (set_closed true (self w)) (os w).

(** The world with the handle and the operating system a call left. *)
Definition with_handle (fd : os_File) (o : OS) (w : World) : World :=
  mkWorld (set_fileHandler (Some fd) (self w)) o.

(** The world with another preprocessor installed (or none). *)
Definition with_Handler (g : option (string -> string)) (w : World) : World :=
  mkWorld (set_Handler g (self w)) (os w).

(** A change of world carried to the outcome of a method. *)
Definition in_world {A} (t : World -> World) (r : Outcome (A * World))
  : Outcome (A * World) :=
  match r with
  | Ret (a, w') => Ret (a, t w')
  | Deadlock => Deadlock
  | Panic => Panic
  end.

(** A writer whose count is dropped: [_, err := ...; return err]. *)
Definition error_of (c : M (Z * option error)) : M (option error) :=
  bind c (fun r => ret (snd r)).

(** ** Scenarios

    Concrete writers, each reached from a constructor (see the [_built]
    lemmas below). *)

(** A stand-in for the default encoder in the scenarios. *)
Definition stub_codec : list byte -> list byte := fun bs => bs.

Definition EIO : error := Errno 5.

(** What a constructor built, as a world; and a method run on it. *)
Definition built (r : Constructed) : option World :=
  match r with
  | Ret ((Some f, _), o) => Some (mkWorld f o)
  | _ => None
  end.

Definition and_then {A} (w : option World) (c : M A) : option World :=
  match w with
  | Some w0 => match c w0 with
               | Ret (_, w') => Some w'
               | _ => None
               end
  | None => None
  end.

(** An encoder that puts ASCII letters in upper case. *)
Definition upper_byte (b : byte) : byte :=
  let n := Byte.to_N b in
  if (N.leb 97 n && N.leb n 122)%bool
  then match Byte.of_N (n - 32)%N with
       | Some c => c
       | None => b
       end
  else b.

Definition upper : list byte -> list byte := map upper_byte.

(** The lazy writer just built by [NewFile("out.log", ModeAppend, false, true)]. *)
Definition lazy_writer : World :=
  mkWorld
    {| filename := "out.log"; mode := ModeAppend; encode := false; lazy := true;
       bufferSize := 4096; initialized := false; closed := false;
       fileHandler := None; fileWriter := None; buf := [];
       mutex := unlocked;
       Handler := Some (fun s => s); Encoder := Some stub_codec |}
    fresh.

(** An eagerly opened writer on a new file "out.log", with the given
    settings, buffered bytes and failures to come. *)
Definition open_writer (enc : bool) (threshold : Z) (buffered : list byte)
    (encoder : option (list byte -> list byte)) (flt : list (option error))
  : World :=
  mkWorld
    {| filename := "out.log"; mode := ModeAppend; encode := enc; lazy := false;
       bufferSize := threshold; initialized := true; closed := false;
       fileHandler := Some (mkFd ModeAppend 0 false);
       fileWriter := Some bufio_NewWriter; buf := buffered;
       mutex := unlocked;
       Handler := Some (fun s => s); Encoder := encoder |}
    {| disk := Some []; faults := flt;
       calls := [CallOpenFile "out.log" ModeAppend 420] |}.

(** The same writer after a successful [Close]. *)
Definition closed_writer : World :=
  mkWorld
    {| filename := "out.log"; mode := ModeAppend; encode := false; lazy := false;
       bufferSize := 4096; initialized := true; closed := true;
       fileHandler := Some (mkFd ModeAppend 0 true);
       fileWriter := Some bufio_NewWriter; buf := [];
       mutex := unlocked;
       Handler := Some (fun s => s); Encoder := Some stub_codec |}
    {| disk := Some []; faults := [];
       calls := [CallOpenFile "out.log" ModeAppend 420; CallClose] |}.

(** Encoding on, the uppercasing encoder installed, "abc" buffered. *)
Definition shouting_writer : World :=
  open_writer true 4096 (bytes "abc") (Some upper) [].

(** Construct with encoding on, install the uppercasing encoder, write "abc", sync, close. *)
Definition uppercase_run : option World :=
  and_then
    (and_then
       (and_then
          (and_then
             (built (NewFile stub_codec "out.log" ModeAppend true false fresh))
             (SetEncoder (Some upper)))
          (Write (bytes "abc")))
       Sync)
    Close.

(** Two bytes buffered; the adapter will refuse the next write. *)
Definition refused_writer : World :=
  open_writer false 4096 (bytes "ab") (Some stub_codec) [Some EIO].

Definition refused_writer_after : World :=
  Eval vm_compute in
    match flush refused_writer with
    | Ret (_, w') => w'
    | _ => refused_writer
    end.

(** Two bytes buffered; the adapter will accept the next write and fail to
    flush it. *)
Definition stalled_writer : World :=
  open_writer false 4096 (bytes "ab") (Some stub_codec) [None; Some EIO].

(** Two bytes buffered; write and flush will go through and the close of the
    handle will fail. *)
Definition unclosable_writer : World :=
  open_writer false 4096 (bytes "ab") (Some stub_codec) [None; None; Some EIO].

(** A writer built with a zero threshold. *)
Definition zero_options : FileOptions.t :=
  {| FileOptions.Mode := ModeAppend;
     FileOptions.Encode := false;
     FileOptions.Lazy := false;
     FileOptions.BufferSize := 0;
     FileOptions.Handler := Some (fun s => s);
     FileOptions.Encoder := Some stub_codec |}.

Definition zero_threshold_writer : World :=
  open_writer false 0 [] (Some stub_codec) [].

(** Threshold 4 with "ab" buffered, and the world after [Write("cd")]. *)
Definition small_writer : World :=
  open_writer false 4 (bytes "ab") (Some stub_codec) [].

Definition small_writer_after : World :=
  Eval vm_compute in
    match Write (bytes "cd") small_writer with
    | Ret (_, w') => w'
    | _ => small_writer
    end.

(** One line buffered, and the world after [Close]. *)
Definition hello_writer : World :=
  open_writer false 4096 (bytes "hello" ++ [x0a]) (Some stub_codec) [].

Definition hello_writer_closed : World :=
  Eval vm_compute in
    match Close hello_writer with
    | Ret (_, w') => w'
    | _ => hello_writer
    end.

(** Options no setter would accept: a zero threshold, no preprocessor and no
    encoder; and the writer [NewFileWithOptions] builds from them. *)
Definition unchecked_options : FileOptions.t :=
  {| FileOptions.Mode := ModeAppend;
     FileOptions.Encode := false;
     FileOptions.Lazy := false;
     FileOptions.BufferSize := 0;
     FileOptions.Handler := None;
     FileOptions.Encoder := None |}.

Definition unchecked_writer : World :=
  mkWorld
    {| filename := "out.log"; mode := ModeAppend; encode := false; lazy := false;
       bufferSize := 0; initialized := true; closed := false;
       fileHandler := Some (mkFd ModeAppend 0 false);
       fileWriter := Some bufio_NewWriter; buf := [];
       mutex := unlocked;
       Handler := None; Encoder := None |}
    {| disk := Some []; faults := [];
       calls := [CallOpenFile "out.log" ModeAppend 420] |}.

(** ** The methods as a family of operations *)

(** One constructor for each exported method of [*File]. *)
Inductive Op : Type :=
| OpWrite (p : list byte)
| OpWriteString (s : string)
| OpSafeWrite (s : string)
| OpWriteLine (s : string)
| OpWriteBytes (bs : list byte)
| OpSyncWrite (s : string)
| OpSync
| OpClose
| OpIsInitialized
| OpIsClosed
| OpGetFilename
| OpGetMode
| OpBufferLen
| OpSetBufferSize (size : Z)
| OpSetHandler (handler : option (string -> string))
| OpSetEncoder (encoder : option (list byte -> list byte))
| OpEnableEncoding (enable : bool).

(** A method run for its effect on the world. *)
Definition effect {A} (c : M A) (w : World) : Outcome World :=
  match c w with
  | Ret (_, w') => Ret w'
  | Deadlock => Deadlock
  | Panic => Panic
  end.

Definition exec (op : Op) : World -> Outcome World :=
  match op with
  | OpWrite p => effect (Write p)
  | OpWriteString s => effect (WriteString s)
  | OpSafeWrite s => effect (SafeWrite s)
  | OpWriteLine s => effect (WriteLine s)
  | OpWriteBytes bs => effect (WriteBytes bs)
  | OpSyncWrite s => effect (SyncWrite s)
  | OpSync => effect Sync
  | OpClose => effect Close
  | OpIsInitialized => effect IsInitialized
  | OpIsClosed => effect IsClosed
  | OpGetFilename => effect GetFilename
  | OpGetMode => effect GetMode
  | OpBufferLen => effect BufferLen
  | OpSetBufferSize size => effect (SetBufferSize size)
  | OpSetHandler handler => effect (SetHandler handler)
  | OpSetEncoder encoder => effect (SetEncoder encoder)
  | OpEnableEncoding enable => effect (EnableEncoding enable)
  end.

(** A sequence of calls, each started when the one before has returned. *)
Fixpoint run (ops : list Op) (w : World) : Outcome World :=
  match ops with
  | [] => Ret w
  | op :: rest =>
    match exec op w with
    | Ret w' => run rest w'
    | Deadlock => Deadlock
    | Panic => Panic
    end
  end.

(** The state of a writer between two calls: the lock is free, the fields
    set by [init] go together, and a closed writer has nothing buffered. *)
Definition steady (w : World) : Prop :=
  idle w /\ wf (self w) = true /\ (closed (self w) = true -> buf (self w) = []).

(** The preprocessor and the encoder are present. *)
Definition equipped (f : File) : Prop := Handler f <> None /\ Encoder f <> None.

(** The adapter has nothing pending and writes in append mode. *)
Definition appending (f : File) : Prop :=
  fileWriter f = Some bufio_NewWriter /\
  exists fd, fileHandler f = Some fd /\ has_flag (fd_flag fd) O_APPEND = true.


(** ** More scenarios *)

(** Options that leave the preprocessor and the encoder out, with encoding
    on; the writer built from them; the same with two bytes written. *)
Definition bare_options : FileOptions.t :=
  {| FileOptions.Mode := ModeAppend;
     FileOptions.Encode := true;
     FileOptions.Lazy := false;
     FileOptions.BufferSize := 4096;
     FileOptions.Handler := None;
     FileOptions.Encoder := None |}.

Definition bare_writer : World :=
  mkWorld
    {| filename := "out.log"; mode := ModeAppend; encode := true; lazy := false;
       bufferSize := 4096; initialized := true; closed := false;
       fileHandler := Some (mkFd ModeAppend 0 false);
       fileWriter := Some bufio_NewWriter; buf := [];
       mutex := unlocked;
       Handler := None; Encoder := None |}
    {| disk := Some []; faults := [];
       calls := [CallOpenFile "out.log" ModeAppend 420] |}.

Definition bare_writer_ab : World :=
  Eval vm_compute in
    match Write (bytes "ab") bare_writer with
    | Ret (_, w') => w'
    | _ => bare_writer
    end.

(** A new writer, and the world after a write, a sync and a close. *)
Definition new_writer : World := open_writer false 4096 [] (Some stub_codec) [].

Definition session : list Op := [OpWrite (bytes "ab"); OpSync; OpClose].

Definition new_writer_after_session : World :=
  Eval vm_compute in
    match run session new_writer with
    | Ret w' => w'
    | _ => new_writer
    end.

(** Calls made after [Close]. *)
Definition afterlife : list Op :=
  [OpWrite (bytes "late"); OpSyncWrite "late"; OpSync; OpClose; OpSetBufferSize 1].

Definition closed_writer_after : World :=
  Eval vm_compute in
    match run afterlife closed_writer with
    | Ret w' => w'
    | _ => closed_writer
    end.

(** Threshold 2, and a sink that refuses the first adapter write. *)
Definition tight_refused_writer : World :=
  open_writer false 2 [] (Some stub_codec) [Some EIO].

Definition tight_refused_writer_after : World :=
  Eval vm_compute in
    match Write (bytes "ab") tight_refused_writer with
    | Ret (_, w') => w'
    | _ => tight_refused_writer
    end.

Definition new_writer_hello : World :=
  Eval vm_compute in
    match Write (bytes "hello" ++ [x0a]) new_writer with
    | Ret (_, w') => w'
    | _ => new_writer
    end.

Definition new_writer_synced : World :=
  Eval vm_compute in
    match SyncWrite "hi" new_writer with
    | Ret (_, w') => w'
    | _ => new_writer
    end.

(** * Package ipcs: ports

    Go strings are byte strings: a [string] here, one character a byte. *)

(** ** The library functions the package calls

    [strings] and [strconv] are not part of the repository; each function is
    modelled by what it computes.  Every separator the package passes is one
    byte long. *)

(** [strings.Index(s, sub)], or [None] when Go answers -1. *)
Fixpoint strings_Index (s sub : string) : option nat :=
  if String.prefix sub s then Some O
  else match s with
       | EmptyString => None
       | String _ rest => option_map S (strings_Index rest sub)
       end.

(** [strings.Contains(s, sub)] *)
Definition strings_Contains (s sub : string) : bool :=
  match strings_Index s sub with
  | Some _ => true
  | None => false
  end.

(** [strings.Split(s, sep)] for a separator of one byte. *)
Fixpoint strings_Split (s : string) (sep : ascii) : list string :=
  match s with
  | EmptyString => [EmptyString]
  | String c rest =>
    if Ascii.eqb c sep then EmptyString :: strings_Split rest sep
    else match strings_Split rest sep with
         | [] => [String c EmptyString]
         | part :: parts => String c part :: parts
         end
  end.

(** [strings.Replace(s, old, new, -1)] for [old] of one byte. *)
Fixpoint strings_Replace (s : string) (old : ascii) (new : string) : string :=
  match s with
  | EmptyString => EmptyString
  | String c rest =>
    if Ascii.eqb c old then (new ++ strings_Replace rest old new)%string
    else String c (strings_Replace rest old new)
  end.

(** White space as [unicode.IsSpace] has it, in UTF-8: the six ASCII
    characters, U+0085, U+00A0, U+1680, U+2000 to U+200A, U+2028, U+2029,
    U+202F, U+205F and U+3000. [space_prefix l] is what follows a white space
    character at the head of [l]. *)
Definition ascii_space (c : ascii) : bool :=
  let n := nat_of_ascii c in
  ((9 <=? n) && (n <=? 13) || (n =? 32))%nat.

Definition two_byte_space (c1 c2 : ascii) : bool :=
  let n2 := nat_of_ascii c2 in
  ((nat_of_ascii c1 =? 194) && ((n2 =? 133) || (n2 =? 160)))%nat.

Definition three_byte_space (c1 c2 c3 : ascii) : bool :=
  let n1 := nat_of_ascii c1 in
  let n2 := nat_of_ascii c2 in
  let n3 := nat_of_ascii c3 in
  ((n1 =? 225) && (n2 =? 154) && (n3 =? 128)
   || (n1 =? 226) && (n2 =? 128)
      && ((128 <=? n3) && (n3 <=? 138) || (n3 =? 168) || (n3 =? 169) || (n3 =? 175))
   || (n1 =? 226) && (n2 =? 129) && (n3 =? 159)
   || (n1 =? 227) && (n2 =? 128) && (n3 =? 128))%nat.

Definition space_prefix (l : list ascii) : option (list ascii) :=
  match l with
  | [] => None
  | c1 :: rest1 =>
    if ascii_space c1 then Some rest1
    else
      match rest1 with
      | [] => None
      | c2 :: rest2 =>
        if two_byte_space c1 c2 then Some rest2
        else
          match rest2 with
          | [] => None
          | c3 :: rest3 =>
            if three_byte_space c1 c2 c3 then Some rest3 else None
          end
      end
  end.

(** The same from the end: [l] is the string reversed. *)
Definition space_suffix (l : list ascii) : option (list ascii) :=
  match l with
  | [] => None
  | c1 :: rest1 =>
    if ascii_space c1 then Some rest1
    else
      match rest1 with
      | [] => None
      | c2 :: rest2 =>
        if two_byte_space c2 c1 then Some rest2
        else
          match rest2 with
          | [] => None
          | c3 :: rest3 =>
            if three_byte_space c3 c2 c1 then Some rest3 else None
          end
      end
  end.

Fixpoint trim_with (strip : list ascii -> option (list ascii)) (fuel : nat)
    (l : list ascii) : list ascii :=
  match fuel with
  | O => l
  | S k => match strip l with
           | Some rest => trim_with strip k rest
           | None => l
           end
  end.

(** [strings.TrimSpace(s)] *)
Definition strings_TrimSpace (s : string) : string :=
  let l := list_ascii_of_string s in
  let left := trim_with space_prefix (length l) l in
  string_of_list_ascii
    (rev (trim_with space_suffix (length left) (rev left))).

(** The bounds of [int], 64 bits wide. *)
Definition MaxInt : Z := 9223372036854775807.
Definition MinInt : Z := -9223372036854775808.
Definition MaxUint64 : Z := 18446744073709551615.

(** [int] arithmetic wraps around. *)
Definition int_wrap (z : Z) : Z := (z - MinInt) mod 2 ^ 64 + MinInt.

Inductive NumError : Type := ErrSyntax | ErrRange.

Definition digit_of (c : ascii) : option Z :=
  let n := nat_of_ascii c in
  if ((48 <=? n) && (n <=? 57))%nat then Some (Z.of_nat (n - 48)) else None.

(** [strconv.ParseUint(s, 10, 64)] on what is left of [s], [n] being the
    value read so far: it stops at the first character that is not a digit
    and at the first overflow, whichever comes first. *)
Fixpoint ParseUint_from (s : string) (n : Z) : Z * option NumError :=
  match s with
  | EmptyString => (n, None)
  | String c rest =>
    match digit_of c with
    | None => (0, Some ErrSyntax)
    | Some d =>
      if MaxUint64 / 10 + 1 <=? n then (MaxUint64, Some ErrRange)
      else
        let n1 := n * 10 + d in
        if MaxUint64 <? n1 then (MaxUint64, Some ErrRange)
        else ParseUint_from rest n1
    end
  end.

Definition strconv_ParseUint (s : string) : Z * option NumError :=
  match s with
  | EmptyString => (0, Some ErrSyntax)
  | _ => ParseUint_from s 0
  end.

(** [strconv.Atoi(s)]: the value and the error.  The fast path of [Atoi] for
    short strings computes what [ParseInt(s, 10, 0)] computes. *)
Definition strconv_Atoi (s : string) : Z * option NumError :=
  match s with
  | EmptyString => (0, Some ErrSyntax)
  | String c rest =>
    let neg := Ascii.eqb c "-" in
    let digits := if Ascii.eqb c "+" || neg then rest else s in
    match strconv_ParseUint digits with
    | (_, Some ErrSyntax) => (0, Some ErrSyntax)
    | (un, err) =>
      if negb neg && (MaxInt + 1 <=? un) then (MaxInt, Some ErrRange)
      else if neg && (MaxInt + 1 <? un) then (MinInt, Some ErrRange)
      else (if neg then - un else un, err)
    end
  end.

(** The decimal digits of [n], the most significant first. *)
Fixpoint digits (fuel : nat) (n : Z) : list Z :=
  match fuel with
  | O => []
  | S k => if n <? 10 then [n] else digits k (n / 10) ++ [n mod 10]
  end.

Definition digit_char (d : Z) : ascii := ascii_of_nat (48 + Z.to_nat d).

(** [strconv.Itoa(i)]; twenty digits are enough for 64 bits. *)
Definition strconv_Itoa (i : Z) : string :=
  if i <? 0
  then String "-" (string_of_list_ascii (map digit_char (digits 20 (- i))))
  else string_of_list_ascii (map digit_char (digits 20 i)).

(** ** The functions of the package *)

(** What a call does: it returns, it panics, or it is still running when the
    fuel given to its loop is used up. *)
Inductive Run (A : Type) : Type :=
| Returns (a : A)
| Panics
| OutOfFuel.

Arguments Returns {A} a.
Arguments Panics {A}.
Arguments OutOfFuel {A}.

(** [type PortMapper map[string][]string].  A slice stored in the map is nil
    ([None]) or not; the order of the list is the order in which [range]
    visits the keys. *)
Definition PortMapper : Type := list (string * option (list string)).

(** [m[key]]: nil when the key is missing. *)
Fixpoint lookup (m : PortMapper) (key : string) : option (list string) :=
  match m with
  | [] => None
  | (k, v) :: rest => if String.eqb k key then v else lookup rest key
  end.

(** The loop of [expandPort]:
    [for port := start; port <= fin; port++ { tmpports = append(tmpports, strconv.Itoa(port)) }] *)
Fixpoint expandPort_loop (fuel : nat) (port fin : Z) (tmpports : list string)
  : Run (list string) :=
  match fuel with
  | O => OutOfFuel
  | S k =>
    if port <=? fin
    then expandPort_loop k (int_wrap (port + 1)) fin (tmpports ++ [strconv_Itoa port])
    else Returns tmpports
  end.

(** [func expandPort(port string) []string] *)
Definition expandPort (fuel : nat) (port : string) : Run (list string) :=
  if strings_Contains port "-" then
    match strings_Split port "-" with
    | sf0 :: sf1 :: _ =>
      let start := fst (strconv_Atoi sf0) in
      let fin := fst (strconv_Atoi sf1) in
      expandPort_loop fuel start fin []
    | _ => Panics
    end
  else Returns [port].

Definition first_byte (s : string) : option ascii :=
  match s with
  | EmptyString => None
  | String c _ => Some c
  end.

Fixpoint last_byte (s : string) : option ascii :=
  match s with
  | EmptyString => None
  | String c EmptyString => Some c
  | String _ rest => last_byte rest
  end.

(** [func expandPorts(ports []string) []string], from the entries still to
    visit and the slice built so far.  [pr[0]] panics on an empty string. *)
Fixpoint expandPorts_from (fuel : nat) (ports tmpports : list string)
  : Run (list string) :=
  match ports with
  | [] => Returns tmpports
  | pr :: rest =>
    if (String.length pr =? 0)%nat then expandPorts_from fuel rest tmpports
    else
      let pr := strings_TrimSpace pr in
      match first_byte pr with
      | None => Panics
      | Some c0 =>
        let pr := if Ascii.eqb c0 "-" then String "1" pr else pr in
        match last_byte pr with
        | None => Panics
        | Some cn =>
          let pr := if Ascii.eqb cn "-" then (pr ++ "65535")%string else pr in
          match expandPort fuel pr with
          | Returns more => expandPorts_from fuel rest (tmpports ++ more)
          | Panics => Panics
          | OutOfFuel => OutOfFuel
          end
        end
      end
  end.

Definition expandPorts (fuel : nat) (ports : list string) : Run (list string) :=
  expandPorts_from fuel ports [].

Section Ports.

(** The package variables [NameMap], [PortMap] and [TagMap], as they are when
    the call is made. *)
Variables NameMap PortMap TagMap : PortMapper.

(** [sliceUnique], a function of the package whose source is not at hand. *)
Variable sliceUnique : list string -> list string.

(** [func choicePorts(portname string) []string] *)
Definition choicePorts (portname : string) : list string :=
  if String.eqb portname "all" then map fst PortMap
  else
    match lookup NameMap portname with
    | Some ports => ports
    | None =>
      match lookup TagMap portname with
      | Some ports => ports
      | None => [portname]
      end
    end.

(** [func ParsePorts(ports []string) []string] *)
Definition ParsePorts (fuel : nat) (ports : list string) : Run (list string) :=
  let portSlice := flat_map choicePorts ports in
  match expandPorts fuel portSlice with
  | Returns portSlice => Returns (sliceUnique portSlice)
  | Panics => Panics
  | OutOfFuel => OutOfFuel
  end.

(** [func ParsePort(portstring string) []string] *)
Definition ParsePort (fuel : nat) (portstring : string) : Run (list string) :=
  let portstring := strings_TrimSpace portstring in
  let portstring := strings_Replace portstring "013" "" in
  ParsePorts fuel (strings_Split portstring ",").

End Ports.

(** ** Notions for the statements on ports *)

(** The byte [c] occurs in [s]. *)
Fixpoint has_byte (c : ascii) (s : string) : bool :=
  match s with
  | EmptyString => false
  | String a rest => Ascii.eqb a c || has_byte c rest
  end.

(** An ASCII character that is not white space. *)
Definition plain (c : ascii) : Prop :=
  ascii_space c = false /\ (nat_of_ascii c < 128)%nat.

(** The integers from [a] to [b], none when [b < a]. *)
Definition zrange (a b : Z) : list Z :=
  map (fun i => a + Z.of_nat i) (seq 0 (Z.to_nat (b - a + 1))).

(** The value of a list of digits read from the left, [n] being the value
    of what was read before. *)
Definition digits_value (ds : list Z) (n : Z) : Z :=
  fold_left (fun a d => a * 10 + d) ds n.

Definition is_digit (d : Z) : Prop := 0 <= d <= 9.

Definition numeral (ds : list Z) : string :=
  string_of_list_ascii (map digit_char ds).




(** An entry with a name in it: not empty once trimmed, and no dash. *)
Definition name_entry (pr : string) : Prop :=
  strings_TrimSpace pr <> EmptyString /\
  has_byte "-" (strings_TrimSpace pr) = false.

(** A list of entries that are empty or names; and what [expandPorts] makes
    of it: the empty entries dropped, the others trimmed. *)
Definition name_list (ports : list string) : Prop :=
  Forall (fun pr => pr = EmptyString \/ name_entry pr) ports.

Definition trimmed (ports : list string) : list string :=
  map strings_TrimSpace (filter (fun pr => negb (String.eqb pr "")) ports).

(** The call returned. *)
Definition returned {A} (r : Run A) : bool :=
  match r with
  | Returns _ => true
  | _ => false
  end.
(** ** Package iutils: ToInt *)

(** [func ToInt(s string) int] *)
Definition ToInt (s : string) : Z :=
  match strconv_Atoi s with
  | (_, Some _) => 0
  | (i, None) => i
  end.

(** ** Package fileutils: GetModeString *)

(** [func GetModeString(mode int) string]; the verb [%d] of [fmt.Sprintf]
    prints an [int] as [strconv.Itoa] does. *)
Definition GetModeString (mode : Z) : string :=
  if mode =? ModeCreate then "create"%string
  else if mode =? ModeOverwrite then "overwrite"%string
  else if mode =? ModeAppend then "append"%string
  else ("custom(" ++ strconv_Itoa mode ++ ")")%string.

(** ** Package encode: DSLParser *)

(** [s[lo:hi]] for [lo <= hi <= len(s)]. *)
Definition slice (s : string) (lo hi : nat) : string :=
  substring lo (hi - lo) s.

(** The codecs of the package, whose source is not at hand.  The types are
    those the calls in [DSLParser] need; each call is taken to return. *)
Record Codecs : Type := mkCodecs {
  Base64Decode : string -> list byte;
  Base64Encode : list byte -> string;
  HexDecode : string -> list byte;
  HexEncode : list byte -> string;
  Md5Hash : list byte -> string
}.

(** [func DSLParser(s string) ([]byte, bool)] *)
Definition DSLParser (en : Codecs) (s : string) : list byte * bool :=
  match strings_Index s "|" with
  | Some (S k) =>
    let i := S k in
    let operator := slice s 0 i in
    let content := slice s (i + 1) (String.length s) in
    if String.eqb operator "b64de" then (Base64Decode en content, true)
    else if String.eqb operator "b64en"
         then (bytes (Base64Encode en (bytes content)), true)
    else if String.eqb operator "unhex" then (HexDecode en content, true)
    else if String.eqb operator "hex"
         then (bytes (HexEncode en (bytes content)), true)
    else if String.eqb operator "md5"
         then (bytes (Md5Hash en (bytes content)), true)
    else (bytes content, false)
  | _ => (bytes s, false)
  end.

(** [func DSLParserToString(s string) (string, bool)] *)
Definition DSLParserToString (en : Codecs) (s : string) : string * bool :=
  let (bs, ok) := DSLParser en s in (string_of_list_byte bs, ok).

(** The operators [DSLParser] knows. *)
Definition operators : list string :=
  ["b64de"; "b64en"; "unhex"; "hex"; "md5"]%string.

(** ** Notions for the statements on ToInt, GetModeString and ParsePort *)

(** An [int]. *)
Definition is_int (z : Z) : Prop := MinInt <= z <= MaxInt.

(** The entries joined with commas. *)
Fixpoint comma_list (parts : list string) : string :=
  match parts with
  | [] => EmptyString
  | [p] => p
  | p :: rest => (p ++ String "," (comma_list rest))%string
  end.

(** An entry that holds neither a comma nor a carriage return. *)
Definition one_entry (p : string) : Prop :=
  has_byte "," p = false /\ has_byte "013" p = false.
(** ** Scenarios for the ports and the parser *)

(** Three small maps: a name, a tag, and two ports. *)
Definition names : PortMapper :=
  [("web"%string, Some ["80"; "443"]%string)].

Definition tags : PortMapper :=
  [("db"%string, Some ["3306"; "5432"]%string)].

Definition known_ports : PortMapper :=
  [("80"%string, Some ["http"%string]); ("443"%string, Some ["https"%string])].

(** A stand-in for [sliceUnique]: the list without its repetitions. *)
Definition dedup : list string -> list string := nodup string_dec.

(** Codecs that only label what they are given. *)
Definition labelling : Codecs :=
  {| Base64Decode := fun s => bytes ("b64de:" ++ s);
     Base64Encode := fun bs => ("b64en:" ++ string_of_list_byte bs)%string;
     HexDecode := fun s => bytes ("unhex:" ++ s);
     HexEncode := fun bs => ("hex:" ++ string_of_list_byte bs)%string;
     Md5Hash := fun bs => ("md5:" ++ string_of_list_byte bs)%string |}.

(** * Proofs *)

Ltac unfold_go :=
  unfold locked, rlocked, Lock, Unlock, RLock, RUnlock, bytes_Buffer_Write,
    bytes_Buffer_Reset, bind, ret, this, update, syscall, panic in *.

Ltac unfold_os :=
  unfold bufio_Write, bufio_Flush, os_File_Close, os_OpenFile, os_File_write,
    next_fault, record, set_disk in *.

Ltac break_match :=
  match goal with
  | H : context [match ?x with _ => _ end] |- _ =>
    first [ is_var x; destruct x | destruct x eqn:? ]
  | |- context [match ?x with _ => _ end] =>
    first [ is_var x; destruct x | destruct x eqn:? ]
  end.

Ltac open_world w :=
  let f := fresh "f" in
  let o := fresh "o" in
  destruct w as [f o]; destruct f; destruct o; simpl in *.

(** ** The environment *)

Lemma bufio_Write_calls bw data o r o' :
  bufio_Write bw data o = (r, o') -> calls o' = calls o ++ [CallWrite data].
Proof.
  unfold bufio_Write, next_fault, record. simpl.
  destruct (faults o) as [|[c|] rest]; simpl; intros H; inversion H; reflexivity.
Qed.

Lemma bufio_Flush_calls bw fd o r o' :
  bufio_Flush bw fd o = (r, o') -> calls o' = calls o ++ [CallFlush].
Proof.
  unfold bufio_Flush, os_File_write, next_fault, record, set_disk. simpl.
  intros H. repeat (break_match; simpl in *; try discriminate).
  all: inversion H; subst; simpl; try reflexivity.
  all: repeat match goal with E : (_, _) = (_, _) |- _ => inversion E; clear E; subst end; reflexivity.
Qed.

Lemma os_OpenFile_cases name flag perm o :
  exists r o',
    os_OpenFile name flag perm o = (r, o') /\
    calls o' = calls o ++ [CallOpenFile name flag perm] /\
    ((exists fd, r = (Some fd, None)) \/ (exists c, r = (None, Some c))).
Proof.
  unfold os_OpenFile, next_fault, record, set_disk. simpl.
  destruct (faults o) as [|[c|] rest]; simpl.
  all: repeat (break_match; simpl).
  all: do 2 eexists; (split; [reflexivity|]); split; [reflexivity|]; eauto.
Qed.

Lemma os_File_Close_calls fd o r o' :
  os_File_Close fd o = (r, o') -> calls o' = calls o ++ [CallClose].
Proof.
  unfold os_File_Close, next_fault, record. simpl.
  destruct (fd_closed fd); [intros H; inversion H; reflexivity|].
  destruct (faults o) as [|x rest]; simpl; intros H; inversion H; reflexivity.
Qed.

(** ** The lock *)

Lemma release_acquire w : idle w -> release (acquire w) = w.
Proof.
  unfold idle. open_world w. intros ->. reflexivity.
Qed.

Lemma locked_idle {A} (body : M A) w :
  idle w ->
  locked body w =
  match body (acquire w) with
  | Ret (a, w') => if writer (mutex (self w')) then Ret (a, unlock_of w') else Panic
  | Deadlock => Deadlock
  | Panic => Panic
  end.
Proof.
  unfold idle. intros H. unfold_go. rewrite H. simpl.
  change (mkWorld (set_mutex (mkMutex true 0) (self w)) (os w)) with (acquire w).
  destruct (body (acquire w)) as [[a w']| |]; try reflexivity.
  destruct (writer (mutex (self w'))); reflexivity.
Qed.

Lemma unlock_of_held w :
  mutex (self w) = mkMutex true 0 -> unlock_of w = release w.
Proof.
  intros H. unfold unlock_of, release. rewrite H. reflexivity.
Qed.

Lemma acquire_held w : mutex (self (acquire w)) = mkMutex true 0.
Proof. reflexivity. Qed.

Lemma release_idle w : idle (release w).
Proof. reflexivity. Qed.

(** ** init *)

(** [init] called with the lock held, as [Write] calls it, waits for ever. *)
Lemma init_under_lock w : writer (mutex (self w)) = true -> init w = Deadlock.
Proof.
  intros H. unfold init. unfold_go. rewrite H. reflexivity.
Qed.

(** [init] called with the lock free, as the constructors call it, returns:
    the sink is opened, or the error of the open comes back wrapped. *)
Lemma init_idle w :
  idle w -> initialized (self w) = false ->
  exists r w', init w = Ret (r, w') /\ idle w' /\
    calls (os w') = calls (os w) ++ [CallOpenFile (filename (self w)) (mode (self w)) 420] /\
    match r with
    | None => initialized (self w') = true /\ fileHandler (self w') <> None /\
              fileWriter (self w') = Some bufio_NewWriter
    | Some e => initialized (self w') = false /\ fileHandler (self w') = None /\
                exists c, e = ErrOpenFile (filename (self w)) (mode (self w)) c
    end /\
    same_settings (self w) (self w') /\ buf (self w') = buf (self w) /\
    closed (self w') = closed (self w).
Proof.
  unfold idle. intros Hm Hi. unfold init. unfold_go.
  destruct w as [f o]; destruct f; simpl in *. subst. simpl.
  match goal with
  | |- context [os_OpenFile ?n ?m ?p ?d] =>
    destruct (os_OpenFile_cases n m p d)
      as (r & o' & E & Hc & [[fd ->] | [c ->]]); rewrite E; simpl
  end.
  - do 2 eexists. split; [reflexivity|]. unfold idle, same_settings. simpl.
    repeat split; try assumption; discriminate.
  - do 2 eexists. split; [reflexivity|]. unfold idle, same_settings. simpl.
    repeat split; try assumption. eauto.
Qed.

(** ** flush *)

Lemma len_zero l : (len l =? 0) = true <-> l = [].
Proof.
  unfold len. destruct l; simpl; split; intros H; try reflexivity; discriminate.
Qed.

Lemma flush_no_handle w : fileHandler (self w) = None -> flush w = Ret (None, w).
Proof.
  intros H. unfold flush. unfold_go. rewrite H. reflexivity.
Qed.

Lemma flush_empty w : buf (self w) = [] -> flush w = Ret (None, w).
Proof.
  intros H. unfold flush. unfold_go. rewrite H. simpl.
  destruct (fileHandler (self w)); reflexivity.
Qed.

(** [flush] never waits for the lock. *)
Lemma flush_no_deadlock w : flush w <> Deadlock.
Proof.
  unfold flush. unfold_go. unfold_os. open_world w.
  repeat (break_match; simpl in *; try discriminate).
Qed.

Lemma flush_frame_refl f : flush_frame f f.
Proof.
  unfold flush_frame, same_settings. intuition.
Qed.

Lemma flush_attempt w fd data :
  fileHandler (self w) = Some fd ->
  fileWriter (self w) <> None ->
  buf (self w) <> [] ->
  payload (self w) = Some data ->
  exists r w',
    flush w = Ret (r, w') /\ flush_frame (self w) (self w') /\ flush_end w data r w'.
Proof.
  intros Hfd Hbw Hbuf Hdata.
  assert (Hlen : (len (buf (self w)) =? 0) = false).
  { destruct (len (buf (self w)) =? 0) eqn:E; [apply len_zero in E; contradiction | reflexivity]. }
  unfold flush, payload, encoded in *. unfold_go. rewrite Hfd, Hlen.
  destruct (fileWriter (self w)) as [bw|] eqn:Ebw; [clear Hbw | contradiction].
  destruct (encode (self w)) eqn:Eenc;
    [destruct (Encoder (self w)) eqn:Eencoder|]; try discriminate;
    injection Hdata as <-.
  all: destruct (bufio_Write bw _ (os w)) as [[e1 bw1] o1] eqn:E1; simpl;
    apply bufio_Write_calls in E1;
    (destruct e1 as [c1|]; simpl;
     [ | destruct (bufio_Flush bw1 fd o1) as [[[e2 bw2] fd2] o2] eqn:E2; simpl;
         apply bufio_Flush_calls in E2; rewrite E1, <- app_assoc in E2; simpl in E2;
         destruct e2 as [c2|]; simpl ]).
  all: do 2 eexists; (split; [reflexivity|]); split;
    [ unfold flush_frame, same_settings; simpl; rewrite ?Hfd, ?Ebw; intuition congruence
    | constructor; simpl; assumption || reflexivity ].
Qed.

Lemma flush_no_encoder w fd :
  fileHandler (self w) = Some fd -> buf (self w) <> [] ->
  payload (self w) = None -> flush w = Panic.
Proof.
  intros Hfd Hbuf Hp.
  assert (Hlen : (len (buf (self w)) =? 0) = false).
  { destruct (len (buf (self w)) =? 0) eqn:E; [apply len_zero in E; contradiction | reflexivity]. }
  unfold flush, payload, encoded in *. unfold_go. rewrite Hfd, Hlen.
  destruct (encode (self w)); [destruct (Encoder (self w))|]; try discriminate.
  reflexivity.
Qed.

Lemma flush_no_adapter w fd :
  fileHandler (self w) = Some fd -> buf (self w) <> [] ->
  fileWriter (self w) = None -> flush w <> Panic -> False.
Proof.
  intros Hfd Hbuf Hbw Hno. apply Hno.
  assert (Hlen : (len (buf (self w)) =? 0) = false).
  { destruct (len (buf (self w)) =? 0) eqn:E; [apply len_zero in E; contradiction | reflexivity]. }
  unfold flush. unfold_go. rewrite Hfd, Hlen, Hbw.
  destruct (encode (self w)); [destruct (Encoder (self w))|]; reflexivity.
Qed.

(** Every return of [flush] is either the no-op or one of the three ends of
    an attempt. *)
Lemma flush_inv w r w' :
  flush w = Ret (r, w') ->
  (r = None /\ w' = w /\ (fileHandler (self w) = None \/ buf (self w) = [])) \/
  (exists fd data,
      fileHandler (self w) = Some fd /\ fileWriter (self w) <> None /\
      buf (self w) <> [] /\ payload (self w) = Some data /\
      flush_frame (self w) (self w') /\ flush_end w data r w').
Proof.
  intros H.
  destruct (fileHandler (self w)) as [fd|] eqn:Hfd.
  2:{ left. rewrite flush_no_handle in H by assumption. inversion H. auto. }
  destruct (buf (self w)) as [|b l] eqn:Hbuf.
  { left. rewrite flush_empty in H by assumption. inversion H. auto. }
  right. exists fd.
  assert (Hne : buf (self w) <> []) by (rewrite Hbuf; discriminate).
  destruct (payload (self w)) as [data|] eqn:Hp.
  2:{ rewrite (flush_no_encoder w fd) in H by assumption. discriminate. }
  destruct (fileWriter (self w)) as [bw|] eqn:Hbw.
  2:{ exfalso. apply (flush_no_adapter w fd); try assumption. rewrite H. discriminate. }
  exists data.
  destruct (flush_attempt w fd data) as (r0 & w0 & E & Hfr & Hend);
    try assumption; try (rewrite Hbw; discriminate).
  rewrite E in H. inversion H; subst.
  split; [reflexivity|]. split; [discriminate|]. split; [discriminate|].
  split; [reflexivity|]. split; assumption.
Qed.

Lemma flush_keeps w r w' : flush w = Ret (r, w') -> flush_frame (self w) (self w').
Proof.
  intros H. apply flush_inv in H.
  destruct H as [(_ & -> & _) | (fd & data & _ & _ & _ & _ & Hf & _)];
    [apply flush_frame_refl | exact Hf].
Qed.

(** A successful flush leaves the buffer empty, provided a writer without a
    handle has buffered nothing. *)
Lemma flush_done_empty w w1 :
  (fileHandler (self w) = None -> buf (self w) = []) ->
  flush w = Ret (None, w1) -> buf (self w1) = [].
Proof.
  intros Hwf H. apply flush_inv in H.
  destruct H as [(_ & -> & [Hn | He]) | (fd & data & _ & _ & _ & _ & _ & Hend)].
  - auto.
  - exact He.
  - inversion Hend; assumption.
Qed.

(** ** Sync, Close and Write in terms of flush *)

Lemma Sync_unfold w :
  idle w ->
  Sync w = match flush (acquire w) with
           | Ret (r, w1) => Ret (r, release w1)
           | Deadlock => Deadlock
           | Panic => Panic
           end.
Proof.
  intros Hidle. unfold Sync. rewrite locked_idle by assumption.
  destruct (flush (acquire w)) as [[r w1]| |] eqn:E; try reflexivity.
  apply flush_keeps in E. destruct E as (_ & _ & _ & Hm & _).
  rewrite acquire_held in Hm. rewrite Hm. simpl.
  rewrite unlock_of_held by assumption. reflexivity.
Qed.

Lemma Close_unfold w :
  idle w ->
  Close w =
  if closed (self w) then Ret (None, w)
  else
    match flush (acquire w) with
    | Ret (Some e, w1) => Ret (Some e, release w1)
    | Ret (None, w1) =>
      match fileHandler (self w1) with
      | None => Ret (None, release (mark_closed w1))
      | Some fd =>
        match os_File_Close fd (os w1) with
        | ((Some c, fd'), o') =>
          Ret (Some (ErrCloseFile (filename (self w1)) c), release (with_handle fd' o' w1))
        | ((None, fd'), o') =>
          Ret (None, release (mark_closed (with_handle fd' o' w1)))
        end
      end
    | Deadlock => Deadlock
    | Panic => Panic
    end.
Proof.
  intros Hidle. unfold Close. rewrite locked_idle by assumption.
  unfold bind at 1. unfold this at 1.
  change (closed (self (acquire w))) with (closed (self w)).
  destruct (closed (self w)) eqn:Hcl.
  { unfold ret. simpl. rewrite unlock_of_held by reflexivity.
    rewrite release_acquire by assumption. reflexivity. }
  unfold bind at 1.
  destruct (flush (acquire w)) as [[r w1]| |] eqn:E; try reflexivity.
  apply flush_keeps in E. destruct E as (_ & _ & _ & Hm & _).
  rewrite acquire_held in Hm.
  destruct r as [e|].
  { unfold ret. rewrite Hm. simpl. rewrite unlock_of_held by assumption. reflexivity. }
  unfold_go. simpl.
  destruct (fileHandler (self w1)) as [fd|] eqn:Hfd; simpl.
  - destruct (os_File_Close fd (os w1)) as [[[c|] fd'] o'] eqn:Ec; simpl;
      rewrite Hm; simpl; unfold unlock_of, release, mark_closed, with_handle; simpl;
      rewrite Hm; reflexivity.
  - rewrite Hm; simpl; unfold unlock_of, release, mark_closed; simpl;
      rewrite Hm; reflexivity.
Qed.

Lemma Write_unfold p w :
  idle w ->
  Write p w =
  if closed (self w) then Ret ((0, Some (ErrFileClosed (filename (self w)))), w)
  else if initialized (self w) then
    let w1 := append_buf p (acquire w) in
    if bufferSize (self w) <=? len (buf (self w) ++ p) then
      match flush w1 with
      | Ret (Some e, w2) => Ret ((len p, Some e), release w2)
      | Ret (None, w2) => Ret ((len p, None), release w2)
      | Deadlock => Deadlock
      | Panic => Panic
      end
    else Ret ((len p, None), release w1)
  else Deadlock.
Proof.
  intros Hidle. unfold Write. rewrite locked_idle by assumption.
  unfold bind at 1. unfold this at 1.
  change (closed (self (acquire w))) with (closed (self w)).
  change (initialized (self (acquire w))) with (initialized (self w)).
  change (filename (self (acquire w))) with (filename (self w)).
  destruct (closed (self w)) eqn:Hcl.
  { unfold ret. simpl. rewrite unlock_of_held by reflexivity.
    rewrite release_acquire by assumption. reflexivity. }
  destruct (initialized (self w)) eqn:Hi; simpl negb; cbv iota.
  2:{ unfold bind at 1. rewrite init_under_lock by reflexivity. reflexivity. }
  unfold_go. simpl.
  change (mkWorld (set_buf (buf (self w) ++ p) (set_mutex (mkMutex true 0) (self w))) (os w))
    with (append_buf p (acquire w)).
  destruct (bufferSize (self w) <=? len (buf (self w) ++ p)).
  - destruct (flush (append_buf p (acquire w))) as [[r w2]| |] eqn:E; try reflexivity.
    apply flush_keeps in E. destruct E as (_ & _ & _ & Hm & _).
    change (mutex (self (append_buf p (acquire w)))) with (mkMutex true 0) in Hm.
    destruct r as [e|]; rewrite Hm; simpl;
      rewrite unlock_of_held by assumption; reflexivity.
  - reflexivity.
Qed.

(** ** The life cycle and the invariant *)

Lemma lifecycle_Initialized f :
  lifecycle f = Initialized <-> closed f = false /\ initialized f = true.
Proof.
  unfold lifecycle. destruct (closed f); destruct (initialized f); split;
    intros H; try discriminate; auto; destruct H; discriminate.
Qed.

Lemma lifecycle_Closed f : lifecycle f = Closed <-> closed f = true.
Proof.
  unfold lifecycle. destruct (closed f); destruct (initialized f); split;
    intros H; try discriminate; auto.
Qed.

Lemma wf_no_handle f : wf f = true -> fileHandler f = None -> buf f = [].
Proof.
  unfold wf. intros H Hn. rewrite Hn in H.
  apply andb_prop in H. destruct H as [_ H]. apply len_zero in H. exact H.
Qed.

Lemma wf_initialized f :
  wf f = true -> initialized f = true ->
  (exists fd, fileHandler f = Some fd) /\ fileWriter f <> None.
Proof.
  unfold wf. intros H Hi.
  destruct (fileHandler f) as [fd|].
  - destruct (fileWriter f); [|discriminate]. split; [eauto | discriminate].
  - rewrite Hi in H. discriminate.
Qed.

Lemma flush_wf w r w' : wf (self w) = true -> flush w = Ret (r, w') -> wf (self w') = true.
Proof.
  intros Hwf H. apply flush_inv in H.
  destruct H as [(_ & -> & _) | (fd & data & Hfd & Hbw & _ & _ & Hfr & _)];
    [assumption|].
  destruct Hfr as (_ & Hi & _ & _ & Hh & Hw).
  unfold wf in *. rewrite Hfd in Hwf.
  destruct (fileHandler (self w')) as [fd'|] eqn:E1.
  - destruct (fileWriter (self w')) as [bw'|] eqn:E2.
    + destruct (fileWriter (self w)); [congruence | contradiction].
    + exfalso. apply Hbw. apply Hw. reflexivity.
  - assert (X : fileHandler (self w) = None) by (apply Hh; reflexivity).
    congruence.
Qed.

(** Every public method that returns keeps the invariant. *)
Lemma wf_Sync w r w' :
  idle w -> wf (self w) = true -> Sync w = Ret (r, w') -> wf (self w') = true.
Proof.
  intros Hidle Hwf H. rewrite Sync_unfold in H by assumption.
  destruct (flush (acquire w)) as [[r1 w1]| |] eqn:E; try discriminate.
  inversion H; subst. apply flush_wf in E; [|exact Hwf]. exact E.
Qed.

Lemma wf_Write p w r w' :
  idle w -> wf (self w) = true -> Write p w = Ret (r, w') -> wf (self w') = true.
Proof.
  intros Hidle Hwf H. rewrite Write_unfold in H by assumption.
  destruct (closed (self w)); [inversion H; subst; assumption|].
  destruct (initialized (self w)) eqn:Hi; [|discriminate].
  cbv zeta in H.
  assert (Hwf1 : wf (self (append_buf p (acquire w))) = true).
  { destruct (wf_initialized _ Hwf Hi) as [[fd Hfd] Hbw].
    unfold wf in *. simpl. rewrite Hfd in *.
    destruct (fileWriter (self w)); [assumption | contradiction]. }
  destruct (bufferSize (self w) <=? len (buf (self w) ++ p)).
  - destruct (flush (append_buf p (acquire w))) as [[[e|] w2]| |] eqn:E;
      try discriminate; inversion H; subst; apply flush_wf in E; assumption.
  - inversion H; subst. exact Hwf1.
Qed.

Lemma wf_Close w r w' :
  idle w -> wf (self w) = true -> Close w = Ret (r, w') -> wf (self w') = true.
Proof.
  intros Hidle Hwf H. rewrite Close_unfold in H by assumption.
  destruct (closed (self w)); [inversion H; subst; assumption|].
  destruct (flush (acquire w)) as [[[e|] w1]| |] eqn:E; try discriminate.
  { inversion H; subst. apply flush_wf in E; assumption. }
  apply flush_wf in E; [|exact Hwf].
  destruct (fileHandler (self w1)) as [fd|] eqn:Hfd.
  - assert (Hw : wf (set_fileHandler (Some fd) (self w1)) = true)
      by (unfold wf in *; simpl; rewrite Hfd in E; exact E).
    destruct (os_File_Close fd (os w1)) as [[[c|] fd'] o'];
      inversion H; subst; exact Hw.
  - inversion H; subst. simpl. unfold wf in *. simpl. rewrite Hfd in *. exact E.
Qed.

Lemma wf_NewFile codec name flag enc lzy o f err o' :
  NewFile codec name flag enc lzy o = Ret ((Some f, err), o') ->
  wf f = true /\ mutex f = unlocked.
Proof.
  unfold NewFile. destruct lzy; simpl.
  { intros H. inversion H; subst. split; reflexivity. }
  match goal with
  | |- context [init ?w0] =>
    destruct (init_idle w0) as (r & w' & E & Hidle & _ & Hr & _ & Hb & _);
      [reflexivity | reflexivity | rewrite E]
  end.
  destruct r as [e|]; intros H; inversion H; subst.
  destruct Hr as (Hi & Hfd & Hbw). split; [|exact Hidle].
  unfold wf. rewrite Hbw, Hi. destruct (fileHandler (self w')); [reflexivity | contradiction].
Qed.

Lemma wf_NewFileWithOptions codec name opts o f err o' :
  NewFileWithOptions codec name opts o = Ret ((Some f, err), o') ->
  wf f = true /\ mutex f = unlocked.
Proof.
  unfold NewFileWithOptions.
  destruct (FileOptions.Lazy _); simpl.
  { intros H. inversion H; subst. split; reflexivity. }
  match goal with
  | |- context [init ?w0] =>
    destruct (init_idle w0) as (r & w' & E & Hidle & _ & Hr & _ & Hb & _);
      [reflexivity | reflexivity | rewrite E]
  end.
  destruct r as [e|]; intros H; inversion H; subst.
  destruct Hr as (Hi & Hfd & Hbw). split; [|exact Hidle].
  unfold wf. rewrite Hbw, Hi. destruct (fileHandler (self w')); [reflexivity | contradiction].
Qed.

Lemma wf_setters w size handler encoder enable :
  wf (self w) = true ->
  (forall w', SetBufferSize size w = Ret (tt, w') -> wf (self w') = true) /\
  (forall w', SetHandler handler w = Ret (tt, w') -> wf (self w') = true) /\
  (forall w', SetEncoder encoder w = Ret (tt, w') -> wf (self w') = true) /\
  (forall w', EnableEncoding enable w = Ret (tt, w') -> wf (self w') = true).
Proof.
  unfold SetBufferSize, SetHandler, SetEncoder, EnableEncoding. unfold_go.
  destruct w as [f o]; destruct f as [nm fl en lz T ini cl fh fw b [wr rd] H E].
  unfold wf. simpl. intros Hwf.
  destruct wr; simpl; [repeat split; intros; discriminate|].
  destruct rd; simpl; [|repeat split; intros; discriminate].
  destruct (0 <? size); destruct handler; destruct encoder; simpl;
    repeat split; intros w' Hr; inversion Hr; subst; simpl; exact Hwf.
Qed.

(** ** The scenarios are reachable *)

Lemma lazy_writer_built :
  built (NewFile stub_codec "out.log" ModeAppend false true fresh) = Some lazy_writer.
Proof. reflexivity. Qed.

Lemma open_writer_built flt :
  built (NewFile stub_codec "out.log" ModeAppend false false (mkOS None (None :: flt) []))
  = Some (open_writer false 4096 [] (Some stub_codec) flt).
Proof. reflexivity. Qed.

Lemma closed_writer_built :
  and_then (built (NewFile stub_codec "out.log" ModeAppend false false fresh)) Close
  = Some closed_writer.
Proof. reflexivity. Qed.

Lemma stalled_writer_built :
  and_then
    (built (NewFile stub_codec "out.log" ModeAppend false false
              (mkOS None [None; None; Some EIO] [])))
    (Write (bytes "ab"))
  = Some stalled_writer.
Proof. vm_compute. reflexivity. Qed.

Lemma unclosable_writer_built :
  and_then
    (built (NewFile stub_codec "out.log" ModeAppend false false
              (mkOS None [None; None; None; Some EIO] [])))
    (Write (bytes "ab"))
  = Some unclosable_writer.
Proof. vm_compute. reflexivity. Qed.

Lemma zero_threshold_writer_built :
  built (NewFileWithOptions stub_codec "out.log" (Some zero_options) fresh)
  = Some zero_threshold_writer.
Proof. vm_compute. reflexivity. Qed.

Lemma small_writer_built :
  and_then
    (and_then
       (built (NewFile stub_codec "out.log" ModeAppend false false fresh))
       (SetBufferSize 4))
    (Write (bytes "ab"))
  = Some small_writer.
Proof. vm_compute. reflexivity. Qed.

Lemma refused_writer_built :
  and_then
    (built (NewFile stub_codec "out.log" ModeAppend false false
              (mkOS None [None; Some EIO] [])))
    (Write (bytes "ab"))
  = Some refused_writer.
Proof. vm_compute. reflexivity. Qed.

Lemma shouting_writer_built :
  and_then
    (and_then
       (built (NewFile stub_codec "out.log" ModeAppend true false fresh))
       (SetEncoder (Some upper)))
    (Write (bytes "abc"))
  = Some shouting_writer.
Proof. vm_compute. reflexivity. Qed.

Lemma hello_writer_built :
  and_then
    (built (NewFile stub_codec "out.log" ModeAppend false false fresh))
    (WriteLine "hello")
  = Some hello_writer.
Proof. vm_compute. reflexivity. Qed.

Lemma small_writer_sink :
  disk (os small_writer_after) = Some (bytes "abcd") /\
  buf (self small_writer_after) = [].
Proof. split; reflexivity. Qed.

Lemma hello_writer_sink :
  disk (os hello_writer_closed) = Some (bytes "hello" ++ [x0a]).
Proof. reflexivity. Qed.

(** ** Lazy initialization *)

(** C1.  The first [Write] on a lazy writer, in state Uninitialized with the
    lock free, does not return: [Write] takes the lock and calls [init], which
    asks for the same lock and waits for ever.  The sink is never opened and
    no error comes back, contrary to the lazy initialization [Write] attempts. *)
Theorem Write_uninitialized_blocks (p : list byte) (w : World) :
  idle w ->
  lifecycle (self w) = Uninitialized ->
  Write p w = Deadlock.
Proof.
  intros Hidle Hl.
  assert (Hs : closed (self w) = false /\ initialized (self w) = false).
  { unfold lifecycle in Hl.
    destruct (closed (self w)); [discriminate|].
    destruct (initialized (self w)); [discriminate|]. split; reflexivity. }
  destruct Hs as [Hc Hi].
  unfold Write. rewrite locked_idle by assumption.
  unfold bind at 1. unfold this at 1.
  replace (closed (self (acquire w))) with false by (symmetry; exact Hc).
  replace (initialized (self (acquire w))) with false by (symmetry; exact Hi).
  simpl negb. cbv iota. unfold bind at 1.
  rewrite init_under_lock by reflexivity. reflexivity.
Qed.

(** The lazy writer that [NewFile] has just built blocks on its first [Write]. *)
Lemma Write_uninitialized_blocks_witness :
  idle lazy_writer /\ lifecycle (self lazy_writer) = Uninitialized /\
  Write (bytes "a") lazy_writer = Deadlock.
Proof.
  split; [reflexivity|]. split; [reflexivity|].
  apply (Write_uninitialized_blocks (bytes "a") lazy_writer); reflexivity.
Defined.

(** ** Failure of a flush *)

(** C2, amended.  A flush attempt that fails ends in one of two ways.  Either
    the adapter refused the write: then the buffer still holds the same bytes
    [b], and a later successful flush, after [extra] was appended, hands the
    adapter exactly [b ++ extra] (through the encoder when encoding is on) in
    one write, and empties the buffer.  Or the adapter took the write and its
    own flush failed: then the buffer is already empty, the bytes having been
    handed to the adapter. *)
Theorem flush_failure_buffer (w : World) (e : error) (w1 : World) :
  flush w = Ret (Some e, w1) ->
  (exists c,
      e = ErrWriteFile (filename (self w)) c /\
      buf (self w1) = buf (self w) /\
      forall extra w3,
        flush (append_buf extra w1) = Ret (None, w3) ->
        exists data,
          encoded (self w) (buf (self w) ++ extra) = Some data /\
          calls (os w3) = calls (os w1) ++ [CallWrite data; CallFlush] /\
          buf (self w3) = [])
  \/
  (exists c data,
      e = ErrFlushFile (filename (self w)) c /\
      payload (self w) = Some data /\
      calls (os w1) = calls (os w) ++ [CallWrite data; CallFlush] /\
      buf (self w1) = []).
Proof.
  intros H. apply flush_inv in H.
  destruct H as [(Hr & _) | (fd & data & Hfd & Hbw & Hbuf & Hp & Hfr & Hend)];
    [discriminate|].
  inversion Hend as [c w' Hb Hc | c w' Hb Hc | w' Hb Hc]; subst.
  - left. exists c. split; [reflexivity|]. split; [assumption|].
    intros extra w3 H3.
    apply flush_inv in H3.
    destruct Hfr as (Hs & _ & _ & _ & Hh & _).
    destruct H3 as [(_ & _ & [Hno | Hempty])
                   | (fd3 & data3 & _ & _ & _ & Hp3 & _ & Hend3)].
    + simpl in Hno. apply Hh in Hno. congruence.
    + simpl in Hempty. rewrite Hb in Hempty.
      apply app_eq_nil in Hempty. destruct Hempty. contradiction.
    + exists data3. unfold payload in Hp3. simpl in Hp3. rewrite Hb in Hp3.
      destruct Hs as (_ & _ & He & _ & _ & _ & Hen).
      unfold encoded in *. simpl in Hp3. rewrite He, Hen in Hp3.
      split; [exact Hp3|].
      inversion Hend3; subst. split; assumption.
  - right. exists c, data. auto.
Qed.

(** A refused adapter write leaves the two buffered bytes in place. *)
Lemma flush_failure_buffer_witness :
  flush refused_writer = Ret (Some (ErrWriteFile "out.log" EIO), refused_writer_after) /\
  buf (self refused_writer_after) = buf (self refused_writer).
Proof.
  assert (H : flush refused_writer
              = Ret (Some (ErrWriteFile "out.log" EIO), refused_writer_after))
    by (vm_compute; reflexivity).
  split; [exact H|].
  destruct (flush_failure_buffer refused_writer _ _ H)
    as [(c & _ & Hb & _) | (c & data & He & _)].
  - exact Hb.
  - discriminate He.
Defined.

(** C2, counterexample.  "ab" is buffered, the adapter accepts the write and
    fails to flush: [Sync] returns the flush error with the buffer emptied, so
    the buffer does not hold "ab" any more; nothing reached the file, and the
    next [Sync] succeeds without writing anything. *)
Lemma flush_failure_clears_buffer :
  buf (self stalled_writer) = bytes "ab" /\
  match Sync stalled_writer with
  | Ret (Some e, w1) =>
    e = ErrFlushFile "out.log" EIO /\
    buf (self w1) = [] /\ buf (self w1) <> buf (self stalled_writer) /\
    disk (os w1) = Some [] /\
    match Sync w1 with
    | Ret (None, w2) => disk (os w2) = Some [] /\ calls (os w2) = calls (os w1)
    | _ => False
    end
  | _ => False
  end.
Proof.
  vm_compute. repeat split; discriminate.
Qed.

(** ** Close *)

(** C3, amended.  On a writer in state Initialized with the lock free: if the
    final flush fails, [Close] returns that error and the state stays
    Initialized; if the flush succeeds and the close of the handle fails,
    [Close] returns the wrapped error and the state stays Initialized too.  So
    every failed [Close] leaves the writer Initialized, and only a [Close] that
    returns no error reaches Closed. *)
Theorem Close_failure_keeps_state (w : World) :
  idle w ->
  lifecycle (self w) = Initialized ->
  (forall e w1,
      flush (acquire w) = Ret (Some e, w1) ->
      Close w = Ret (Some e, release w1) /\
      lifecycle (self (release w1)) = Initialized) /\
  (forall w1 fd c fd' o',
      flush (acquire w) = Ret (None, w1) ->
      fileHandler (self w1) = Some fd ->
      os_File_Close fd (os w1) = ((Some c, fd'), o') ->
      exists w',
        Close w = Ret (Some (ErrCloseFile (filename (self w)) c), w') /\
        lifecycle (self w') = Initialized) /\
  (forall e w', Close w = Ret (Some e, w') -> lifecycle (self w') = Initialized) /\
  (forall w', Close w = Ret (None, w') -> lifecycle (self w') = Closed).
Proof.
  intros Hidle Hl. apply lifecycle_Initialized in Hl. destruct Hl as [Hcl Hi].
  assert (Hkeep : forall r w1, flush (acquire w) = Ret (r, w1) ->
            closed (self w1) = false /\ initialized (self w1) = true /\
            filename (self w1) = filename (self w)).
  { intros r w1 E. apply flush_keeps in E.
    destruct E as ((Hn & _) & Hi1 & Hc1 & _). simpl in *.
    rewrite Hi1, Hc1, Hn. auto. }
  split; [|split; [|split]].
  - intros e w1 E. rewrite Close_unfold by assumption. rewrite Hcl, E.
    split; [reflexivity|].
    destruct (Hkeep _ _ E) as (Hc1 & Hi1 & _).
    apply lifecycle_Initialized. simpl. auto.
  - intros w1 fd c fd' o' E Hfd Ec.
    rewrite Close_unfold by assumption. rewrite Hcl, E, Hfd, Ec.
    destruct (Hkeep _ _ E) as (Hc1 & Hi1 & Hn1).
    eexists. split; [rewrite Hn1; reflexivity|].
    apply lifecycle_Initialized. simpl. auto.
  - intros e w' H. rewrite Close_unfold in H by assumption. rewrite Hcl in H.
    destruct (flush (acquire w)) as [[[e1|] w1]| |] eqn:E; try discriminate.
    + destruct (Hkeep _ _ eq_refl) as (Hc1 & Hi1 & _).
      inversion H; subst. apply lifecycle_Initialized. simpl. auto.
    + destruct (Hkeep _ _ eq_refl) as (Hc1 & Hi1 & _).
      destruct (fileHandler (self w1)) as [fd|]; [|discriminate].
      destruct (os_File_Close fd (os w1)) as [[[c|] fd'] o']; [|discriminate].
      inversion H; subst. apply lifecycle_Initialized. simpl. auto.
  - intros w' H. rewrite Close_unfold in H by assumption. rewrite Hcl in H.
    destruct (flush (acquire w)) as [[[e1|] w1]| |] eqn:E; try discriminate.
    destruct (fileHandler (self w1)) as [fd|].
    + destruct (os_File_Close fd (os w1)) as [[[c|] fd'] o']; [discriminate|].
      inversion H; subst. reflexivity.
    + inversion H; subst. reflexivity.
Qed.

(** A writer whose handle cannot be closed stays Initialized when [Close] fails. *)
Lemma Close_failure_keeps_state_witness :
  idle unclosable_writer /\
  lifecycle (self unclosable_writer) = Initialized /\
  forall e w', Close unclosable_writer = Ret (Some e, w') ->
               lifecycle (self w') = Initialized.
Proof.
  split; [reflexivity|]. split; [reflexivity|].
  exact (proj1 (proj2 (proj2
           (Close_failure_keeps_state unclosable_writer eq_refl eq_refl)))).
Defined.

(** C3, counterexample.  "ab" is buffered, the flush goes through (the file
    holds "ab") and the close of the handle fails: [Close] returns the wrapped
    error and the state is not Closed. *)
Lemma Close_sink_error_not_Closed :
  lifecycle (self unclosable_writer) = Initialized /\
  match Close unclosable_writer with
  | Ret (Some e, w') =>
    e = ErrCloseFile "out.log" EIO /\
    disk (os w') = Some (bytes "ab") /\ buf (self w') = [] /\
    lifecycle (self w') <> Closed
  | _ => False
  end.
Proof.
  vm_compute. repeat split; discriminate.
Qed.

(** C6.  After a [Close] that returned no error, the writer is Closed, and a
    second [Close] returns no error and leaves the whole world as it is: no
    flush, no call to the sink.  When the first [Close] is the one that
    reaches Closed, the buffer is empty at that moment. *)
Theorem Close_idempotent (w w1 : World) :
  idle w ->
  wf (self w) = true ->
  Close w = Ret (None, w1) ->
  lifecycle (self w1) = Closed /\
  Close w1 = Ret (None, w1) /\
  (lifecycle (self w) <> Closed -> buf (self w1) = []).
Proof.
  intros Hidle Hwf H.
  rewrite Close_unfold in H by assumption.
  destruct (closed (self w)) eqn:Hcl.
  { inversion H; subst w1. split; [apply lifecycle_Closed; assumption|].
    split.
    - rewrite Close_unfold by assumption. rewrite Hcl. reflexivity.
    - intros Hn. exfalso. apply Hn. apply lifecycle_Closed. assumption. }
  destruct (flush (acquire w)) as [[[e|] w2]| |] eqn:E; try discriminate.
  assert (Hb : buf (self w2) = []).
  { apply (flush_done_empty (acquire w)); [|assumption].
    simpl. intros Hn. apply wf_no_handle; assumption. }
  assert (Hgoal : forall w3, closed (self w3) = true -> buf (self w3) = [] ->
            idle w3 ->
            lifecycle (self w3) = Closed /\ Close w3 = Ret (None, w3) /\
            (lifecycle (self w) <> Closed -> buf (self w3) = [])).
  { intros w3 Hc3 Hb3 Hi3. split; [apply lifecycle_Closed; assumption|].
    split; [|auto]. rewrite Close_unfold by assumption. rewrite Hc3. reflexivity. }
  destruct (fileHandler (self w2)) as [fd|] eqn:Hfd.
  - destruct (os_File_Close fd (os w2)) as [[[c|] fd'] o'] eqn:Ec; try discriminate.
    inversion H; subst w1. apply Hgoal; [reflexivity | exact Hb | reflexivity].
  - inversion H; subst w1. apply Hgoal; [reflexivity | exact Hb | reflexivity].
Qed.

(** One line buffered, then [Close] twice. *)
Lemma Close_idempotent_witness :
  idle hello_writer /\ wf (self hello_writer) = true /\
  Close hello_writer = Ret (None, hello_writer_closed) /\
  Close hello_writer_closed = Ret (None, hello_writer_closed) /\
  buf (self hello_writer_closed) = [].
Proof.
  assert (H : Close hello_writer = Ret (None, hello_writer_closed))
    by (vm_compute; reflexivity).
  split; [reflexivity|]. split; [reflexivity|]. split; [exact H|].
  destruct (Close_idempotent hello_writer hello_writer_closed eq_refl eq_refl H)
    as (_ & H2 & H3).
  split; [exact H2|]. apply H3. discriminate.
Defined.

(** ** Write *)

(** C4.  [Write(p)] on a Closed writer returns count 0 and the error
    "file ... is closed", and leaves the whole world as it was: buffer, sink
    content, state of the writer, and the record of calls to the sink. *)
Theorem Write_closed (p : list byte) (w : World) :
  idle w ->
  lifecycle (self w) = Closed ->
  Write p w = Ret ((0, Some (ErrFileClosed (filename (self w)))), w).
Proof.
  intros Hidle Hc.
  assert (Hcl : closed (self w) = true).
  { unfold lifecycle in Hc. destruct (closed (self w)); [reflexivity|].
    destruct (initialized (self w)); discriminate. }
  unfold Write. rewrite locked_idle by assumption.
  unfold bind at 1. unfold this at 1.
  replace (closed (self (acquire w))) with true by (symmetry; exact Hcl).
  unfold ret. simpl.
  change (filename (set_mutex _ (self w))) with (filename (self w)).
  rewrite unlock_of_held by reflexivity.
  rewrite release_acquire by assumption. reflexivity.
Qed.

(** A write after [Close]. *)
Lemma Write_closed_witness :
  idle closed_writer /\ lifecycle (self closed_writer) = Closed /\
  Write (bytes "late") closed_writer =
  Ret ((0, Some (ErrFileClosed "out.log")), closed_writer).
Proof.
  split; [reflexivity|]. split; [reflexivity|].
  apply (Write_closed (bytes "late") closed_writer); reflexivity.
Defined.

(** C5, amended.  For a writer with a positive threshold [T], a [Write(p)]
    that returns no error returns the count [len(p)]; if the buffer reached
    [T] or more after the append, a flush ran before the return (one adapter
    write of the whole buffer, one adapter flush) and the buffer is empty;
    otherwise the buffer holds the old bytes followed by [p] and the sink was
    not called.  In both cases the buffer is shorter than [T] on return. *)
Theorem Write_threshold (w : World) (p : list byte) (n : Z) (w' : World) :
  idle w ->
  wf (self w) = true ->
  0 < bufferSize (self w) ->
  Write p w = Ret ((n, None), w') ->
  n = len p /\
  bufferSize (self w') = bufferSize (self w) /\
  len (buf (self w')) < bufferSize (self w) /\
  (bufferSize (self w) <= len (buf (self w) ++ p) ->
   buf (self w') = [] /\
   exists data,
     encoded (self w) (buf (self w) ++ p) = Some data /\
     calls (os w') = calls (os w) ++ [CallWrite data; CallFlush]) /\
  (len (buf (self w) ++ p) < bufferSize (self w) ->
   buf (self w') = buf (self w) ++ p /\ calls (os w') = calls (os w)).
Proof.
  intros Hidle Hwf HT H.
  rewrite Write_unfold in H by assumption.
  destruct (closed (self w)) eqn:Hcl; [discriminate|].
  destruct (initialized (self w)) eqn:Hi; [|discriminate].
  cbv zeta in H.
  destruct (bufferSize (self w) <=? len (buf (self w) ++ p)) eqn:Hcmp.
  - apply Z.leb_le in Hcmp.
    destruct (flush (append_buf p (acquire w))) as [[[e|] w2]| |] eqn:E;
      try discriminate.
    inversion H; subst n w'. clear H.
    destruct (wf_initialized _ Hwf Hi) as [[fd Hfd] Hbw].
    apply flush_inv in E.
    destruct E as [(_ & _ & [Hn | He]) | (fd2 & data & _ & _ & _ & Hp & Hfr & Hend)].
    + simpl in Hn. congruence.
    + simpl in He. rewrite He in Hcmp. unfold len in Hcmp. simpl in Hcmp. lia.
    + destruct Hfr as ((_ & _ & _ & _ & HT2 & _) & _). simpl in HT2.
      inversion Hend as [| |w3 Hb Hc]; subst.
      change (buf (self (release w2))) with (buf (self w2)).
      change (bufferSize (self (release w2))) with (bufferSize (self w2)).
      change (os (release w2)) with (os w2).
      rewrite Hb. change (len []) with 0.
      split; [reflexivity|]. split; [exact HT2|]. split; [exact HT|].
      split; [|lia]. intros _. split; [reflexivity|].
      exists data. split; [exact Hp | exact Hc].
  - apply Z.leb_gt in Hcmp. inversion H; subst n w'. simpl.
    split; [reflexivity|]. split; [reflexivity|]. split; [exact Hcmp|].
    split; [lia|]. auto.
Qed.

(** Threshold 4, "ab" buffered, [Write("cd")]: the flush runs and "abcd" is in the file. *)
Lemma Write_threshold_witness :
  idle small_writer /\ wf (self small_writer) = true /\
  0 < bufferSize (self small_writer) /\
  Write (bytes "cd") small_writer = Ret ((2, None), small_writer_after) /\
  len (buf (self small_writer_after)) < bufferSize (self small_writer).
Proof.
  assert (H : Write (bytes "cd") small_writer = Ret ((2, None), small_writer_after))
    by (vm_compute; reflexivity).
  split; [reflexivity|]. split; [reflexivity|]. split; [reflexivity|].
  split; [exact H|].
  exact (proj1 (proj2 (proj2
           (Write_threshold small_writer (bytes "cd") 2 small_writer_after
              eq_refl eq_refl eq_refl H)))).
Defined.

(** C5, counterexample.  A writer built by [NewFileWithOptions] with a zero
    threshold: [Write("a")] succeeds, the flush runs, the buffer is empty on
    return, and its length 0 is not less than the threshold 0. *)
Lemma Write_zero_threshold :
  bufferSize (self zero_threshold_writer) = 0 /\
  match Write (bytes "a") zero_threshold_writer with
  | Ret ((n, None), w') =>
    n = 1 /\
    bufferSize (self zero_threshold_writer)
      <= len (buf (self zero_threshold_writer) ++ bytes "a") /\
    calls (os w') = calls (os zero_threshold_writer) ++ [CallWrite (bytes "a"); CallFlush] /\
    buf (self w') = [] /\
    ~ len (buf (self w')) < bufferSize (self zero_threshold_writer)
  | _ => False
  end.
Proof.
  vm_compute. repeat split; discriminate.
Qed.

(** ** What flush writes *)

(** C7.  A flush with a handle, an adapter and a non-empty buffer makes
    exactly one write to the adapter, before anything else: of the encoder's
    output on the whole buffer when encoding is on, of the buffer itself when
    it is off.  The only call that may follow is the adapter's flush. *)
Theorem flush_writes_payload (w : World) (fd : os_File)
    (enc : list byte -> list byte) :
  fileHandler (self w) = Some fd ->
  fileWriter (self w) <> None ->
  buf (self w) <> [] ->
  (encode (self w) = true -> Encoder (self w) = Some enc) ->
  exists r w' rest,
    flush w = Ret (r, w') /\
    calls (os w') =
      calls (os w)
      ++ CallWrite (if encode (self w) then enc (buf (self w)) else buf (self w))
      :: rest /\
    (rest = [] \/ rest = [CallFlush]).
Proof.
  intros Hfd Hbw Hbuf Henc.
  set (data := if encode (self w) then enc (buf (self w)) else buf (self w)).
  assert (Hp : payload (self w) = Some data).
  { unfold payload, encoded, data.
    destruct (encode (self w)); [rewrite Henc by reflexivity|]; reflexivity. }
  destruct (flush_attempt w fd data Hfd Hbw Hbuf Hp) as (r & w' & E & _ & Hend).
  exists r, w'.
  destruct Hend as [c w' Hb Hc | c w' Hb Hc | w' Hb Hc].
  - exists []. auto.
  - exists [CallFlush]. auto.
  - exists [CallFlush]. auto.
Qed.

(** With the uppercasing encoder and "abc" buffered, the adapter is handed "ABC". *)
Lemma flush_writes_payload_witness :
  fileHandler (self shouting_writer) = Some (mkFd ModeAppend 0 false) /\
  exists r w' rest,
    flush shouting_writer = Ret (r, w') /\
    calls (os w') =
      [CallOpenFile "out.log" ModeAppend 420] ++ CallWrite (bytes "ABC") :: rest /\
    (rest = [] \/ rest = [CallFlush]).
Proof.
  split; [reflexivity|].
  refine (flush_writes_payload shouting_writer (mkFd ModeAppend 0 false) upper
            eq_refl _ _ _).
  - discriminate.
  - discriminate.
  - reflexivity.
Defined.

(** The scenario of the uppercasing encoder, from construction to the sink: the file holds "ABC". *)
Example Sync_uppercase_scenario :
  option_map (fun w => (disk (os w), calls (os w))) uppercase_run
  = Some (Some (bytes "ABC"),
          [CallOpenFile "out.log" ModeAppend 420;
           CallWrite (bytes "ABC"); CallFlush; CallClose]).
Proof. vm_compute. reflexivity. Qed.

(** ** The string writers and the preprocessor *)

Lemma Write_ignores_Handler g p w :
  Write p (with_Handler g w) = in_world (with_Handler g) (Write p w).
Proof.
  unfold Write, init, flush, with_Handler. unfold_go.
  destruct w as [f o]; destruct f as [nm fl en lz T ini cl fh fw b [wr rd] H E]; simpl.
  destruct wr; simpl; [reflexivity|].
  destruct rd; simpl; [|reflexivity].
  destruct cl; simpl; [reflexivity|].
  destruct ini; simpl; [|reflexivity].
  destruct (T <=? len (b ++ p)); simpl; [|reflexivity].
  destruct fh as [fd|]; simpl; [|reflexivity].
  destruct (len (b ++ p) =? 0); simpl; [reflexivity|].
  destruct en; [destruct E as [enc|]|]; simpl; try reflexivity.
  all: destruct fw as [bw|]; simpl; try reflexivity.
  all: match goal with |- context [bufio_Write ?a ?b ?c] => destruct (bufio_Write a b c) as [[[e1|] bw1] o1] end; simpl; try reflexivity.
  all: match goal with |- context [bufio_Flush ?a ?b ?c] => destruct (bufio_Flush a b c) as [[[[e2|] bw2] fd2] o2] end; simpl; reflexivity.
Qed.

(** C8.  With a preprocessor [h] installed, [SafeWrite(s)] is [WriteString(h s)]
    with the count dropped.  [Write], [WriteString], [WriteBytes] and
    [WriteLine] do the same whatever preprocessor is installed, that installed
    one passing unchanged to the result: they never apply it.  [WriteLine(s)]
    writes the bytes of [s] followed by exactly one line feed. *)
Theorem SafeWrite_applies_Handler (s : string) (h : string -> string) (w : World) :
  Handler (self w) = Some h ->
  SafeWrite s w = error_of (WriteString (h s)) w /\
  (forall g p, Write p (with_Handler g w) = in_world (with_Handler g) (Write p w)) /\
  (forall g t, WriteString t (with_Handler g w)
               = in_world (with_Handler g) (WriteString t w)) /\
  (forall g p, WriteBytes p (with_Handler g w)
               = in_world (with_Handler g) (WriteBytes p w)) /\
  (forall g t, WriteLine t (with_Handler g w)
               = in_world (with_Handler g) (WriteLine t w)) /\
  WriteLine s w = error_of (Write (bytes s ++ [x0a])) w.
Proof.
  intros Hh.
  assert (Herr : forall g (c : M (Z * option error)),
             c (with_Handler g w) = in_world (with_Handler g) (c w) ->
             error_of c (with_Handler g w) = in_world (with_Handler g) (error_of c w)).
  { intros g c Hc. unfold error_of, bind. rewrite Hc.
    destruct (c w) as [[a w']| |]; reflexivity. }
  split.
  { unfold SafeWrite, error_of, bind at 1, this. rewrite Hh. reflexivity. }
  split. { intros g p. apply Write_ignores_Handler. }
  split. { intros g t. apply Write_ignores_Handler. }
  split. { intros g p. apply (Herr g (Write p)), Write_ignores_Handler. }
  split. { intros g t. apply (Herr g (WriteString (t ++ newline))), Write_ignores_Handler. }
  unfold WriteLine, WriteString, error_of, bytes.
  replace (list_byte_of_string (s ++ newline)) with (list_byte_of_string s ++ [x0a]);
    [reflexivity|].
  clear. induction s as [|a s IH]; [reflexivity|].
  change (list_byte_of_string (String a s ++ newline))
    with (byte_of_ascii a :: list_byte_of_string (s ++ newline)).
  rewrite <- IH. reflexivity.
Qed.

(** With the identity preprocessor of [NewFile]. *)
Lemma SafeWrite_applies_Handler_witness :
  Handler (self (open_writer false 4096 [] (Some stub_codec) [])) = Some (fun s => s) /\
  SafeWrite "hello" (open_writer false 4096 [] (Some stub_codec) [])
  = error_of (WriteString "hello") (open_writer false 4096 [] (Some stub_codec) []).
Proof.
  split; [reflexivity|].
  exact (proj1 (SafeWrite_applies_Handler "hello" (fun s => s)
                  (open_writer false 4096 [] (Some stub_codec) []) eq_refl)).
Defined.

(** ** Setters *)

(** C9, amended.  With the lock free, [SetBufferSize] with a size that is not
    positive, [SetHandler(nil)] and [SetEncoder(nil)] return (there is no error
    to return) and leave the whole world as it was: threshold, preprocessor,
    encoder and everything else.  Hence no call of a setter, whatever its
    argument, makes a valid configuration invalid: a configuration that is
    valid stays valid.  That it is valid to begin with is not the setters'
    doing. *)
Theorem setters_reject_invalid (w : World) :
  idle w ->
  (forall size, size <= 0 -> SetBufferSize size w = Ret (tt, w)) /\
  SetHandler None w = Ret (tt, w) /\
  SetEncoder None w = Ret (tt, w) /\
  (valid_config (self w) = true ->
   forall size handler encoder,
   exists w1 w2 w3,
     SetBufferSize size w = Ret (tt, w1) /\ valid_config (self w1) = true /\
     SetHandler handler w = Ret (tt, w2) /\ valid_config (self w2) = true /\
     SetEncoder encoder w = Ret (tt, w3) /\ valid_config (self w3) = true).
Proof.
  unfold idle, SetBufferSize, SetHandler, SetEncoder. unfold_go.
  destruct w as [f o]; destruct f as [nm fl en lz T ini cl fh fw b m H E]; simpl.
  intros ->. simpl. split; [|split; [|split]]; try reflexivity.
  - intros size Hs. destruct (0 <? size) eqn:E0; [apply Z.ltb_lt in E0; lia|].
    reflexivity.
  - unfold valid_config. simpl. intros Hv size handler encoder.
    destruct (0 <? size) eqn:E0; destruct handler; destruct encoder; simpl;
      do 3 eexists; repeat split; try reflexivity; simpl; try assumption.
    all: rewrite ?E0; simpl.
    all: apply andb_prop in Hv; destruct Hv as [Hv1 Hv2]; rewrite ?Hv1; simpl;
      destruct H; destruct E; try discriminate; reflexivity.
Qed.

(** [SetBufferSize(0)] on an open writer. *)
Lemma setters_reject_invalid_witness :
  idle (open_writer false 4096 [] (Some stub_codec) []) /\
  SetBufferSize 0 (open_writer false 4096 [] (Some stub_codec) [])
  = Ret (tt, open_writer false 4096 [] (Some stub_codec) []).
Proof.
  split; [reflexivity|].
  refine (proj1 (setters_reject_invalid
                   (open_writer false 4096 [] (Some stub_codec) []) eq_refl) 0 _).
  lia.
Defined.

(** C9, counterexample.  [NewFileWithOptions] copies a zero threshold, a nil
    preprocessor and a nil encoder into the writer: its configuration is not
    valid.  The three rejected calls return and leave that writer as it is, so
    the configuration is not valid after them either. *)
Lemma setters_keep_invalid_config :
  NewFileWithOptions stub_codec "out.log" (Some unchecked_options) fresh
  = Ret ((Some (self unchecked_writer), None), os unchecked_writer) /\
  idle unchecked_writer /\
  bufferSize (self unchecked_writer) = 0 /\
  Handler (self unchecked_writer) = None /\
  Encoder (self unchecked_writer) = None /\
  valid_config (self unchecked_writer) = false /\
  match SetBufferSize 0 unchecked_writer with
  | Ret (_, w1) =>
    match SetHandler None w1 with
    | Ret (_, w2) =>
      match SetEncoder None w2 with
      | Ret (_, w3) => w3 = unchecked_writer /\ valid_config (self w3) = false
      | _ => False
      end
    | _ => False
    end
  | _ => False
  end.
Proof.
  vm_compute. repeat split.
Qed.

(** ** Constructors *)


(** * Further properties *)
(** ** Every method, between two calls *)

Lemma effect_Ret {A} (c : M A) w w' :
  effect c w = Ret w' <-> exists a, c w = Ret (a, w').
Proof.
  unfold effect. destruct (c w) as [[a w1]| |]; split.
  - intros H. inversion H; subst. eauto.
  - intros [a0 H]. inversion H; subst. reflexivity.
  - discriminate.
  - intros [a0 H]. discriminate.
  - discriminate.
  - intros [a0 H]. discriminate.
Qed.

Lemma error_of_Ret (c : M (Z * option error)) w e w' :
  error_of c w = Ret (e, w') <-> exists n, c w = Ret ((n, e), w').
Proof.
  unfold error_of, bind, ret. destruct (c w) as [[[n e0] w1]| |]; split.
  - intros H. inversion H; subst. eauto.
  - intros [n0 H]. inversion H; subst. reflexivity.
  - discriminate.
  - intros [n0 H]. discriminate.
  - discriminate.
  - intros [n0 H]. discriminate.
Qed.

Lemma WriteBytes_error_of bs : WriteBytes bs = error_of (Write bs).
Proof. reflexivity. Qed.

Lemma WriteLine_error_of s : WriteLine s = error_of (WriteString (s ++ newline)).
Proof. reflexivity. Qed.

Lemma SafeWrite_Ret s w e w' :
  SafeWrite s w = Ret (e, w') ->
  exists h n, Handler (self w) = Some h /\ Write (bytes (h s)) w = Ret ((n, e), w').
Proof.
  unfold SafeWrite, bind at 1, this.
  destruct (Handler (self w)) as [h|]; [|discriminate].
  intros H. apply error_of_Ret in H. destruct H as [n H].
  exists h, n. split; [reflexivity | exact H].
Qed.

Lemma SyncWrite_Ret s w e w' :
  SyncWrite s w = Ret (e, w') ->
  (exists err, e = Some err /\ SafeWrite s w = Ret (Some err, w')) \/
  (exists w1, SafeWrite s w = Ret (None, w1) /\ Sync w1 = Ret (e, w')).
Proof.
  unfold SyncWrite, bind at 1.
  destruct (SafeWrite s w) as [[[err|] w1]| |]; try discriminate.
  - unfold ret. intros H. inversion H; subst. left. eauto.
  - intros H. right. eauto.
Qed.

(** The methods that only read, and the setters, run with the lock free. *)
Lemma accessors_idle w :
  idle w ->
  IsInitialized w = Ret (initialized (self w), w) /\
  IsClosed w = Ret (closed (self w), w) /\
  BufferLen w = Ret (len (buf (self w)), w) /\
  GetFilename w = Ret (filename (self w), w) /\
  GetMode w = Ret (mode (self w), w).
Proof.
  unfold idle, IsInitialized, IsClosed, BufferLen, GetFilename, GetMode. unfold_go.
  destruct w as [f o]; destruct f as [nm fl en lz T ini cl fh fw b m Hd E].
  simpl in *. intros ->. repeat split; reflexivity.
Qed.

Lemma locked_update g w :
  idle w -> locked (update g) w
            = (if writer (mutex (g (self (acquire w))))
               then Ret (tt, unlock_of (mkWorld (g (self (acquire w))) (os w)))
               else Panic).
Proof.
  intros H. rewrite locked_idle by assumption. reflexivity.
Qed.

Lemma SetBufferSize_idle size w :
  idle w ->
  SetBufferSize size w
  = Ret (tt, if 0 <? size then mkWorld (set_bufferSize size (self w)) (os w) else w).
Proof.
  unfold idle, SetBufferSize. unfold_go.
  destruct w as [f o]; destruct f as [nm fl en lz T ini cl fh fw b m Hd E].
  simpl. intros ->. simpl. destruct (0 <? size); reflexivity.
Qed.

Lemma SetHandler_idle handler w :
  idle w ->
  SetHandler handler w
  = Ret (tt, match handler with
             | Some _ => mkWorld (set_Handler handler (self w)) (os w)
             | None => w
             end).
Proof.
  unfold idle, SetHandler. unfold_go.
  destruct w as [f o]; destruct f as [nm fl en lz T ini cl fh fw b m Hd E].
  simpl. intros ->. simpl. destruct handler; reflexivity.
Qed.

Lemma SetEncoder_idle encoder w :
  idle w ->
  SetEncoder encoder w
  = Ret (tt, match encoder with
             | Some _ => mkWorld (set_Encoder encoder (self w)) (os w)
             | None => w
             end).
Proof.
  unfold idle, SetEncoder. unfold_go.
  destruct w as [f o]; destruct f as [nm fl en lz T ini cl fh fw b m Hd E].
  simpl. intros ->. simpl. destruct encoder; reflexivity.
Qed.

Lemma EnableEncoding_idle enable w :
  idle w ->
  EnableEncoding enable w = Ret (tt, mkWorld (set_encode enable (self w)) (os w)).
Proof.
  unfold idle, EnableEncoding. unfold_go.
  destruct w as [f o]; destruct f as [nm fl en lz T ini cl fh fw b m Hd E].
  simpl. intros ->. reflexivity.
Qed.

Lemma steady_release w1 :
  wf (self w1) = true -> (closed (self w1) = true -> buf (self w1) = []) ->
  steady (release w1).
Proof.
  intros Hwf Hc. split; [reflexivity|]. split; assumption.
Qed.

Lemma wf_acquire w : wf (self (acquire w)) = wf (self w).
Proof. reflexivity. Qed.

Lemma steady_Write p w r w' :
  steady w -> Write p w = Ret (r, w') -> steady w'.
Proof.
  intros (Hidle & Hwf & Hcb) H.
  assert (Hwf' : wf (self w') = true) by (eapply wf_Write; eassumption).
  rewrite Write_unfold in H by assumption.
  destruct (closed (self w)) eqn:Hcl.
  { inversion H; subst. split; [assumption|]. split; [assumption|].
    intros _. apply Hcb. reflexivity. }
  destruct (initialized (self w)); [|discriminate].
  cbv zeta in H.
  destruct (bufferSize (self w) <=? len (buf (self w) ++ p)).
  - destruct (flush (append_buf p (acquire w))) as [[[e|] w2]| |] eqn:E;
      try discriminate; inversion H; subst;
      apply flush_keeps in E; destruct E as (_ & _ & Hc2 & _); simpl in Hc2;
      (split; [reflexivity|]); (split; [assumption|]);
      simpl; rewrite Hc2, Hcl; discriminate.
  - inversion H; subst. split; [reflexivity|]. split; [assumption|].
    simpl. rewrite Hcl. discriminate.
Qed.

Lemma steady_Sync w r w' :
  steady w -> Sync w = Ret (r, w') -> steady w'.
Proof.
  intros (Hidle & Hwf & Hcb) H.
  assert (Hwf' : wf (self w') = true) by (eapply wf_Sync; eassumption).
  rewrite Sync_unfold in H by assumption.
  destruct (flush (acquire w)) as [[r1 w1]| |] eqn:E; try discriminate.
  inversion H; subst. split; [reflexivity|]. split; [assumption|].
  simpl. intros Hc1.
  pose proof (flush_keeps _ _ _ E) as (_ & _ & Hc & _). simpl in Hc.
  rewrite Hc in Hc1. specialize (Hcb Hc1).
  rewrite flush_empty in E by exact Hcb. inversion E; subst. exact Hcb.
Qed.

Lemma steady_Close w r w' :
  steady w -> Close w = Ret (r, w') -> steady w'.
Proof.
  intros (Hidle & Hwf & Hcb) H.
  assert (Hwf' : wf (self w') = true) by (eapply wf_Close; eassumption).
  rewrite Close_unfold in H by assumption.
  destruct (closed (self w)) eqn:Hcl.
  { inversion H; subst. split; [assumption|]. split; [assumption|].
    intros _. apply Hcb. reflexivity. }
  destruct (flush (acquire w)) as [[[e|] w1]| |] eqn:E; try discriminate.
  { pose proof (flush_keeps _ _ _ E) as (_ & _ & Hc & _). simpl in Hc.
    inversion H; subst. split; [reflexivity|]. split; [assumption|].
    simpl. rewrite Hc, Hcl. discriminate. }
  assert (Hb : buf (self w1) = []).
  { apply (flush_done_empty (acquire w)); [|assumption].
    simpl. intros Hn. apply wf_no_handle; assumption. }
  pose proof (flush_keeps _ _ _ E) as (_ & _ & Hc & _). simpl in Hc.
  destruct (fileHandler (self w1)) as [fd|].
  - destruct (os_File_Close fd (os w1)) as [[[c|] fd'] o'];
      inversion H; subst; (split; [reflexivity|]); (split; [assumption|]);
      simpl; intros _; exact Hb.
  - inversion H; subst. split; [reflexivity|]. split; [assumption|].
    simpl. intros _. exact Hb.
Qed.

Lemma steady_SafeWrite s w r w' :
  steady w -> SafeWrite s w = Ret (r, w') -> steady w'.
Proof.
  intros Hs H. apply SafeWrite_Ret in H. destruct H as (h & n & _ & H).
  eapply steady_Write; eassumption.
Qed.

Lemma steady_fields f g :
  mutex g = mutex f -> closed g = closed f -> buf g = buf f ->
  initialized g = initialized f -> fileHandler g = fileHandler f ->
  fileWriter g = fileWriter f ->
  forall o o', steady (mkWorld f o) -> steady (mkWorld g o').
Proof.
  intros Hm Hc Hb Hi Hh Hw o o' (Hidle & Hwf & Hcb).
  unfold steady, idle, wf in *. simpl in *.
  rewrite Hm, Hc, Hb, Hi, Hh, Hw. auto.
Qed.

Lemma steady_exec op w w' : steady w -> exec op w = Ret w' -> steady w'.
Proof.
  intros Hs H.
  assert (Hidle : idle w) by apply Hs.
  destruct (accessors_idle w Hidle) as (A1 & A2 & A3 & A4 & A5).
  destruct op; simpl in H; apply effect_Ret in H; destruct H as [a H].
  - eapply steady_Write; eassumption.
  - eapply steady_Write; eassumption.
  - eapply steady_SafeWrite; eassumption.
  - rewrite WriteLine_error_of in H. apply error_of_Ret in H. destruct H as [n H].
    eapply steady_Write; eassumption.
  - rewrite WriteBytes_error_of in H. apply error_of_Ret in H. destruct H as [n H].
    eapply steady_Write; eassumption.
  - apply SyncWrite_Ret in H.
    destruct H as [(err & _ & H) | (w1 & H1 & H2)].
    + eapply steady_SafeWrite; eassumption.
    + eapply steady_Sync; [|eassumption]. eapply steady_SafeWrite; eassumption.
  - eapply steady_Sync; eassumption.
  - eapply steady_Close; eassumption.
  - rewrite A1 in H. inversion H; subst. assumption.
  - rewrite A2 in H. inversion H; subst. assumption.
  - rewrite A4 in H. inversion H; subst. assumption.
  - rewrite A5 in H. inversion H; subst. assumption.
  - rewrite A3 in H. inversion H; subst. assumption.
  - rewrite SetBufferSize_idle in H by assumption. inversion H; subst.
    destruct (0 <? size); [|assumption].
    destruct w as [f o]. eapply steady_fields; [..|exact Hs]; reflexivity.
  - rewrite SetHandler_idle in H by assumption. inversion H; subst.
    destruct handler; [|assumption].
    destruct w as [f o]. eapply steady_fields; [..|exact Hs]; reflexivity.
  - rewrite SetEncoder_idle in H by assumption. inversion H; subst.
    destruct encoder; [|assumption].
    destruct w as [f o]. eapply steady_fields; [..|exact Hs]; reflexivity.
  - rewrite EnableEncoding_idle in H by assumption. inversion H; subst.
    destruct w as [f o]. eapply steady_fields; [..|exact Hs]; reflexivity.
Qed.

Lemma steady_run ops : forall w w', steady w -> run ops w = Ret w' -> steady w'.
Proof.
  induction ops as [|op rest IH]; intros w w' Hs H; simpl in H.
  - inversion H; subst. assumption.
  - destruct (exec op w) as [w1| |] eqn:E; try discriminate.
    apply (IH w1); [|assumption]. eapply steady_exec; eassumption.
Qed.

Lemma steady_NewFile codec name flag enc lzy o f err o' :
  NewFile codec name flag enc lzy o = Ret ((Some f, err), o') ->
  steady (mkWorld f o').
Proof.
  intros H. pose proof (wf_NewFile _ _ _ _ _ _ _ _ _ H) as [Hwf Hm].
  split; [exact Hm|]. split; [exact Hwf|]. simpl.
  revert H. unfold NewFile. destruct lzy; simpl.
  { intros H. inversion H; subst. reflexivity. }
  match goal with
  | |- context [init ?w0] =>
    destruct (init_idle w0) as (r & w' & E & _ & _ & _ & _ & Hb & Hc);
      [reflexivity | reflexivity | rewrite E]
  end.
  destruct r; intros H; inversion H; subst. intros _. exact Hb.
Qed.

Lemma steady_NewFileWithOptions codec name opts o f err o' :
  NewFileWithOptions codec name opts o = Ret ((Some f, err), o') ->
  steady (mkWorld f o').
Proof.
  intros H. pose proof (wf_NewFileWithOptions _ _ _ _ _ _ _ H) as [Hwf Hm].
  split; [exact Hm|]. split; [exact Hwf|]. simpl.
  revert H. unfold NewFileWithOptions. destruct (FileOptions.Lazy _); simpl.
  { intros H. inversion H; subst. reflexivity. }
  match goal with
  | |- context [init ?w0] =>
    destruct (init_idle w0) as (r & w' & E & _ & _ & _ & _ & Hb & Hc);
      [reflexivity | reflexivity | rewrite E]
  end.
  destruct r; intros H; inversion H; subst. intros _. exact Hb.
Qed.

(** X1.  Whatever constructor built the writer and whatever sequence of
    methods was then called on it, each call starting after the one before
    returned: the lock is free again, the handle, the adapter and the
    initialized flag go together, and a closed writer has an empty buffer. *)
Theorem constructed_writer_stays_steady codec name flag enc lzy opts o f err o' ops w' :
  NewFile codec name flag enc lzy o = Ret ((Some f, err), o') \/
  NewFileWithOptions codec name opts o = Ret ((Some f, err), o') ->
  run ops (mkWorld f o') = Ret w' ->
  steady w'.
Proof.
  intros [H | H] Hrun.
  - apply (steady_run ops (mkWorld f o')); [|assumption].
    eapply steady_NewFile; eassumption.
  - apply (steady_run ops (mkWorld f o')); [|assumption].
    eapply steady_NewFileWithOptions; eassumption.
Qed.

(** ** After Close *)

Lemma closed_Write p w r w' :
  idle w -> closed (self w) = true -> Write p w = Ret (r, w') ->
  w' = w /\ r = (0, Some (ErrFileClosed (filename (self w)))).
Proof.
  intros Hidle Hc H. rewrite Write_unfold in H by assumption.
  rewrite Hc in H. inversion H; subst. auto.
Qed.

Lemma closed_Sync w r w' :
  steady w -> closed (self w) = true -> Sync w = Ret (r, w') -> w' = w /\ r = None.
Proof.
  intros (Hidle & _ & Hcb) Hc H. rewrite Sync_unfold in H by assumption.
  rewrite flush_empty in H by (apply Hcb; exact Hc).
  rewrite release_acquire in H by assumption. inversion H; subst. auto.
Qed.

Lemma closed_exec op w w' :
  steady w -> closed (self w) = true -> exec op w = Ret w' ->
  closed (self w') = true /\ os w' = os w /\ buf (self w') = buf (self w) /\
  fileHandler (self w') = fileHandler (self w) /\
  fileWriter (self w') = fileWriter (self w).
Proof.
  intros Hs Hc H.
  assert (Hidle : idle w) by apply Hs.
  destruct (accessors_idle w Hidle) as (A1 & A2 & A3 & A4 & A5).
  assert (Hsame : forall w1, w1 = w ->
            closed (self w1) = true /\ os w1 = os w /\ buf (self w1) = buf (self w) /\
            fileHandler (self w1) = fileHandler (self w) /\
            fileWriter (self w1) = fileWriter (self w))
    by (intros w1 ->; auto).
  destruct op; simpl in H; apply effect_Ret in H; destruct H as [a H].
  - apply Hsame. eapply closed_Write; eassumption.
  - apply Hsame. eapply closed_Write; eassumption.
  - apply SafeWrite_Ret in H. destruct H as (h & n & _ & H).
    apply Hsame. eapply closed_Write; eassumption.
  - rewrite WriteLine_error_of in H. apply error_of_Ret in H. destruct H as [n H].
    apply Hsame. eapply closed_Write; eassumption.
  - rewrite WriteBytes_error_of in H. apply error_of_Ret in H. destruct H as [n H].
    apply Hsame. eapply closed_Write; eassumption.
  - apply SyncWrite_Ret in H.
    destruct H as [(err & _ & H) | (w1 & H1 & H2)].
    + apply SafeWrite_Ret in H. destruct H as (h & n & _ & H).
      apply Hsame. eapply closed_Write; eassumption.
    + apply SafeWrite_Ret in H1. destruct H1 as (h & n & _ & H1).
      apply closed_Write in H1; try assumption. destruct H1 as [_ H1]. discriminate.
  - apply Hsame. eapply closed_Sync; eassumption.
  - rewrite Close_unfold in H by assumption. rewrite Hc in H.
    apply Hsame. inversion H; reflexivity.
  - rewrite A1 in H. apply Hsame. inversion H; reflexivity.
  - rewrite A2 in H. apply Hsame. inversion H; reflexivity.
  - rewrite A4 in H. apply Hsame. inversion H; reflexivity.
  - rewrite A5 in H. apply Hsame. inversion H; reflexivity.
  - rewrite A3 in H. apply Hsame. inversion H; reflexivity.
  - rewrite SetBufferSize_idle in H by assumption. inversion H; subst.
    destruct (0 <? size); [|auto]. simpl. auto.
  - rewrite SetHandler_idle in H by assumption. inversion H; subst.
    destruct handler; [|auto]. simpl. auto.
  - rewrite SetEncoder_idle in H by assumption. inversion H; subst.
    destruct encoder; [|auto]. simpl. auto.
  - rewrite EnableEncoding_idle in H by assumption. inversion H; subst.
    simpl. auto.
Qed.

(** X2.  Closed is final.  Once the writer is Closed, no sequence of
    method calls brings it back, and none of them touches the sink: the file
    content and the record of calls to the sink stay as they were, and the
    buffer stays empty. *)
Theorem Closed_is_final (ops : list Op) (w w' : World) :
  steady w ->
  lifecycle (self w) = Closed ->
  run ops w = Ret w' ->
  lifecycle (self w') = Closed /\
  disk (os w') = disk (os w) /\ calls (os w') = calls (os w) /\
  buf (self w') = [].
Proof.
  revert w. induction ops as [|op rest IH]; intros w Hs Hl H; simpl in H.
  - inversion H; subst. repeat split; try assumption.
    apply Hs. apply lifecycle_Closed. assumption.
  - destruct (exec op w) as [w1| |] eqn:E; try discriminate.
    pose proof (steady_exec _ _ _ Hs E) as Hs1.
    apply lifecycle_Closed in Hl.
    destruct (closed_exec _ _ _ Hs Hl E) as (Hc1 & Ho & _).
    destruct (IH w1 Hs1) as (R1 & R2 & R3 & R4);
      [apply lifecycle_Closed; assumption | assumption |].
    rewrite Ho in R2, R3. auto.
Qed.

(** ** An initialized writer never blocks *)

Lemma flush_returns w :
  wf (self w) = true -> Encoder (self w) <> None ->
  exists r w', flush w = Ret (r, w').
Proof.
  intros Hwf He.
  destruct (fileHandler (self w)) as [fd|] eqn:Hfd.
  2:{ do 2 eexists. apply flush_no_handle. assumption. }
  destruct (buf (self w)) as [|b l] eqn:Hb.
  { do 2 eexists. apply flush_empty. assumption. }
  assert (Hp : exists data, payload (self w) = Some data).
  { unfold payload, encoded. destruct (encode (self w)); [|eauto].
    destruct (Encoder (self w)); [eauto | contradiction]. }
  destruct Hp as [data Hp].
  destruct (flush_attempt w fd data) as (r & w' & E & _); try assumption.
  - unfold wf in Hwf. rewrite Hfd in Hwf.
    destruct (fileWriter (self w)); discriminate.
  - rewrite Hb. discriminate.
  - eauto.
Qed.

Lemma Write_returns p w :
  steady w -> initialized (self w) = true -> Encoder (self w) <> None ->
  exists r w', Write p w = Ret (r, w') /\
               same_settings (self w) (self w') /\
               initialized (self w') = true.
Proof.
  intros (Hidle & Hwf & _) Hi He. rewrite Write_unfold by assumption.
  assert (Hrefl : same_settings (self w) (self w))
    by (unfold same_settings; intuition).
  destruct (closed (self w)); [eauto|].
  rewrite Hi. cbv zeta.
  assert (Hwf1 : wf (self (append_buf p (acquire w))) = true).
  { destruct (wf_initialized _ Hwf Hi) as [[fd Hfd] Hbw].
    unfold wf in *. simpl. rewrite Hfd in *.
    destruct (fileWriter (self w)); [assumption | contradiction]. }
  destruct (bufferSize (self w) <=? len (buf (self w) ++ p)).
  - destruct (flush_returns (append_buf p (acquire w)) Hwf1 He) as (r & w2 & E).
    rewrite E. pose proof (flush_keeps _ _ _ E) as (Hs & Hi2 & _).
    simpl in Hs, Hi2.
    destruct r; do 2 eexists; (split; [reflexivity|]); simpl; split;
      try exact Hs; congruence.
  - do 2 eexists. split; [reflexivity|]. simpl. auto.
Qed.

Lemma Sync_returns w :
  steady w -> Encoder (self w) <> None ->
  exists r w', Sync w = Ret (r, w') /\ same_settings (self w) (self w') /\
               initialized (self w') = initialized (self w).
Proof.
  intros (Hidle & Hwf & _) He. rewrite Sync_unfold by assumption.
  destruct (flush_returns (acquire w) Hwf He) as (r & w1 & E). rewrite E.
  pose proof (flush_keeps _ _ _ E) as (Hs & Hi & _). simpl in Hs, Hi.
  do 2 eexists. split; [reflexivity|]. simpl. auto.
Qed.

Lemma Close_returns w :
  steady w -> Encoder (self w) <> None ->
  exists r w', Close w = Ret (r, w') /\ same_settings (self w) (self w') /\
               initialized (self w') = initialized (self w).
Proof.
  intros (Hidle & Hwf & _) He. rewrite Close_unfold by assumption.
  assert (Hrefl : same_settings (self w) (self w))
    by (unfold same_settings; intuition).
  destruct (closed (self w)); [eauto|].
  destruct (flush_returns (acquire w) Hwf He) as (r & w1 & E). rewrite E.
  pose proof (flush_keeps _ _ _ E) as (Hs & Hi & _). simpl in Hs, Hi.
  destruct r as [e|]; [do 2 eexists; split; [reflexivity|]; simpl; auto|].
  destruct (fileHandler (self w1)) as [fd|].
  - destruct (os_File_Close fd (os w1)) as [[[c|] fd'] o'];
      do 2 eexists; (split; [reflexivity|]); simpl; auto.
  - do 2 eexists. split; [reflexivity|]. simpl. auto.
Qed.

Lemma equipped_same f g : same_settings f g -> equipped f -> equipped g.
Proof.
  intros (_ & _ & _ & _ & _ & Hh & He) [H1 H2]. unfold equipped.
  rewrite Hh, He. auto.
Qed.

Lemma exec_returns op w :
  steady w -> initialized (self w) = true -> equipped (self w) ->
  exists w', exec op w = Ret w' /\ initialized (self w') = true /\ equipped (self w').
Proof.
  intros Hs Hi Heq.
  assert (Hidle : idle w) by apply Hs.
  pose proof Heq as Heq0. destruct Heq as [Hh He].
  destruct (accessors_idle w Hidle) as (A1 & A2 & A3 & A4 & A5).
  assert (HW : forall p, exists w', effect (Write p) w = Ret w' /\
                initialized (self w') = true /\ equipped (self w')).
  { intros p. destruct (Write_returns p w Hs Hi He) as (r & w' & E & Hset & Hi').
    exists w'. split; [apply effect_Ret; eauto|]. split; [assumption|].
    eapply equipped_same; [eassumption | split; assumption]. }
  assert (HE : forall (c : M (Z * option error)),
             (exists w', effect c w = Ret w' /\
                initialized (self w') = true /\ equipped (self w')) ->
             exists w', effect (error_of c) w = Ret w' /\
                initialized (self w') = true /\ equipped (self w')).
  { intros c (w' & E & R). exists w'. split; [|exact R].
    apply effect_Ret in E. destruct E as [[n e] E].
    apply effect_Ret. exists e. apply error_of_Ret. eauto. }
  destruct op; simpl.
  - apply HW.
  - apply HW.
  - destruct (Handler (self w)) as [h|] eqn:Ehd; [|contradiction].
    unfold SafeWrite, effect, bind at 1, this. rewrite Ehd.
    apply (HE (WriteString (h s))), HW.
  - rewrite WriteLine_error_of. apply HE, HW.
  - rewrite WriteBytes_error_of. apply HE, HW.
  - destruct (Handler (self w)) as [h|] eqn:Ehd; [|contradiction].
    destruct (Write_returns (bytes (h s)) w Hs Hi He) as ([n e] & w1 & E & Hset & Hi1).
    assert (ES : SafeWrite s w = Ret (e, w1)).
    { unfold SafeWrite, bind at 1, this. rewrite Ehd.
      apply error_of_Ret. exists n. exact E. }
    assert (Heq1 : equipped (self w1))
      by (eapply equipped_same; [eassumption | exact Heq0]).
    unfold effect, SyncWrite, bind at 1. rewrite ES.
    destruct e as [err|].
    + exists w1. auto.
    + pose proof (steady_Write _ _ _ _ Hs E) as Hs1.
      destruct (Sync_returns w1 Hs1 (proj2 Heq1)) as (r & w2 & E2 & Hset2 & Hi2).
      rewrite E2. exists w2. split; [reflexivity|]. split; [congruence|].
      eapply equipped_same; eassumption.
  - destruct (Sync_returns w Hs He) as (r & w' & E & Hset & Hi').
    exists w'. split; [apply effect_Ret; eauto|]. split; [congruence|].
    eapply equipped_same; [eassumption | split; assumption].
  - destruct (Close_returns w Hs He) as (r & w' & E & Hset & Hi').
    exists w'. split; [apply effect_Ret; eauto|]. split; [congruence|].
    eapply equipped_same; [eassumption | split; assumption].
  - exists w. unfold effect. rewrite A1. unfold equipped. auto.
  - exists w. unfold effect. rewrite A2. unfold equipped. auto.
  - exists w. unfold effect. rewrite A4. unfold equipped. auto.
  - exists w. unfold effect. rewrite A5. unfold equipped. auto.
  - exists w. unfold effect. rewrite A3. unfold equipped. auto.
  - unfold effect. rewrite SetBufferSize_idle by assumption.
    eexists. split; [reflexivity|]. unfold equipped.
    destruct (0 <? size); simpl; auto.
  - unfold effect. rewrite SetHandler_idle by assumption.
    eexists. split; [reflexivity|]. unfold equipped.
    destruct handler; simpl; auto. repeat split; auto. discriminate.
  - unfold effect. rewrite SetEncoder_idle by assumption.
    eexists. split; [reflexivity|]. unfold equipped.
    destruct encoder; simpl; auto. repeat split; auto. discriminate.
  - unfold effect. rewrite EnableEncoding_idle by assumption.
    eexists. split; [reflexivity|]. unfold equipped. simpl. auto.
Qed.

(** X3.  An initialized writer that has its preprocessor and its encoder
    never blocks and never panics: every sequence of method calls returns,
    whatever the sink answers. *)
Theorem initialized_writer_never_blocks (ops : list Op) (w : World) :
  steady w ->
  initialized (self w) = true ->
  Handler (self w) <> None ->
  Encoder (self w) <> None ->
  exists w', run ops w = Ret w'.
Proof.
  intros Hs Hi Hh He.
  assert (Heq : equipped (self w)) by (split; assumption).
  clear Hh He. revert w Hs Hi Heq.
  induction ops as [|op rest IH]; intros w Hs Hi Heq; simpl.
  - eauto.
  - destruct (exec_returns op w Hs Hi Heq) as (w1 & E & Hi1 & Heq1).
    rewrite E. apply IH; try assumption. eapply steady_exec; eassumption.
Qed.

(** ** A lazy writer *)

Lemma wf_uninitialized f :
  wf f = true -> initialized f = false -> fileHandler f = None /\ buf f = [].
Proof.
  unfold wf. intros H Hi.
  destruct (fileHandler f) as [fd|].
  - destruct (fileWriter f); [congruence | discriminate].
  - split; [reflexivity|]. apply andb_prop in H. destruct H as [_ H].
    apply len_zero in H. exact H.
Qed.

Lemma uninitialized_exec op w w' :
  steady w -> initialized (self w) = false -> exec op w = Ret w' ->
  os w' = os w /\ initialized (self w') = false.
Proof.
  intros Hs Hi H.
  assert (Hidle : idle w) by apply Hs.
  destruct Hs as (_ & Hwf & _).
  destruct (wf_uninitialized _ Hwf Hi) as [Hfd Hb].
  destruct (accessors_idle w Hidle) as (A1 & A2 & A3 & A4 & A5).
  assert (HW : forall p r w1, Write p w = Ret (r, w1) -> w1 = w).
  { intros p r w1 E. rewrite Write_unfold in E by assumption.
    destruct (closed (self w)); [inversion E; reflexivity|].
    rewrite Hi in E. discriminate. }
  assert (HS : forall r w1, Sync w = Ret (r, w1) -> w1 = w).
  { intros r w1 E. rewrite Sync_unfold in E by assumption.
    rewrite flush_no_handle in E by exact Hfd.
    rewrite release_acquire in E by assumption. inversion E; reflexivity. }
  assert (Hsame : forall w1, w1 = w -> os w1 = os w /\ initialized (self w1) = false)
    by (intros w1 ->; auto).
  destruct op; simpl in H; apply effect_Ret in H; destruct H as [a H].
  - apply Hsame. eapply HW; eassumption.
  - apply Hsame. eapply HW; eassumption.
  - apply SafeWrite_Ret in H. destruct H as (h & n & _ & H).
    apply Hsame. eapply HW; eassumption.
  - rewrite WriteLine_error_of in H. apply error_of_Ret in H. destruct H as [n H].
    apply Hsame. eapply HW; eassumption.
  - rewrite WriteBytes_error_of in H. apply error_of_Ret in H. destruct H as [n H].
    apply Hsame. eapply HW; eassumption.
  - apply SyncWrite_Ret in H.
    destruct H as [(err & _ & H) | (w1 & H1 & H2)].
    + apply SafeWrite_Ret in H. destruct H as (h & n & _ & H).
      apply Hsame. eapply HW; eassumption.
    + apply SafeWrite_Ret in H1. destruct H1 as (h & n & _ & H1).
      apply HW in H1. subst w1. apply Hsame. eapply HS; eassumption.
  - apply Hsame. eapply HS; eassumption.
  - rewrite Close_unfold in H by assumption.
    destruct (closed (self w)); [apply Hsame; inversion H; reflexivity|].
    rewrite flush_no_handle in H by exact Hfd.
    change (fileHandler (self (acquire w))) with (fileHandler (self w)) in H.
    rewrite Hfd in H. inversion H; subst. simpl. auto.
  - rewrite A1 in H. apply Hsame. inversion H; reflexivity.
  - rewrite A2 in H. apply Hsame. inversion H; reflexivity.
  - rewrite A4 in H. apply Hsame. inversion H; reflexivity.
  - rewrite A5 in H. apply Hsame. inversion H; reflexivity.
  - rewrite A3 in H. apply Hsame. inversion H; reflexivity.
  - rewrite SetBufferSize_idle in H by assumption. inversion H; subst.
    destruct (0 <? size); simpl; auto.
  - rewrite SetHandler_idle in H by assumption. inversion H; subst.
    destruct handler; simpl; auto.
  - rewrite SetEncoder_idle in H by assumption. inversion H; subst.
    destruct encoder; simpl; auto.
  - rewrite EnableEncoding_idle in H by assumption. inversion H; subst.
    simpl. auto.
Qed.

(** X4.  [NewFile] with [lazy] set makes no call to the sink and returns
    an Uninitialized writer.  On that writer [Sync] does nothing, [Close]
    reaches Closed without a call to the sink, and no sequence of method
    calls that returns has opened or written the file. *)
Theorem lazy_writer_leaves_sink_alone codec name flag enc o :
  exists f,
    NewFile codec name flag enc true o = Ret ((Some f, None), o) /\
    lifecycle f = Uninitialized /\
    Sync (mkWorld f o) = Ret (None, mkWorld f o) /\
    (exists w', Close (mkWorld f o) = Ret (None, w') /\
                os w' = o /\ lifecycle (self w') = Closed) /\
    forall ops w', run ops (mkWorld f o) = Ret w' ->
                   os w' = o /\ initialized (self w') = false.
Proof.
  eexists. split; [reflexivity|]. split; [reflexivity|].
  split; [reflexivity|]. split; [eexists; split; [reflexivity|]; split; reflexivity|].
  intros ops.
  match goal with
  | |- forall w', run ops ?w0 = _ -> _ =>
    assert (Hs : steady w0) by (repeat split; intros; reflexivity);
    assert (Hi : initialized (self w0) = false) by reflexivity;
    change o with (os w0) at 2; generalize dependent w0
  end.
  induction ops as [|op rest IH]; intros w0 Hs Hi w' H; simpl in H.
  - inversion H; subst. auto.
  - destruct (exec op w0) as [w1| |] eqn:E; try discriminate.
    destruct (uninitialized_exec _ _ _ Hs Hi E) as [Ho Hi1].
    rewrite <- Ho. apply IH; try assumption. eapply steady_exec; eassumption.
Qed.

(** ** The constructors *)

(** X5.  [NewFile(filename, mode, encode, lazy)] is
    [NewFileWithOptions] with these three options, threshold 4096, the
    identity preprocessor and the default encoder. *)
Theorem NewFile_as_options codec name flag enc lzy o :
  NewFile codec name flag enc lzy o
  = NewFileWithOptions codec name
      (Some {| FileOptions.Mode := flag;
               FileOptions.Encode := enc;
               FileOptions.Lazy := lzy;
               FileOptions.BufferSize := 4096;
               FileOptions.Handler := Some (fun s => s);
               FileOptions.Encoder := Some codec |}) o.
Proof. reflexivity. Qed.


(** ** What an error of Write means *)

(** X7.  When [Write] returns an error on an Initialized writer, the count
    is still [len(p)], the threshold was reached, and the error is the one of
    the flush: if the adapter refused the write, all of [p] is in the buffer
    behind the older bytes; if the adapter's flush failed, the buffer is
    empty.  The writer stays Initialized. *)
Theorem Write_error_keeps_count (p : list byte) (w : World) (n : Z) (e : error)
    (w' : World) :
  idle w ->
  lifecycle (self w) = Initialized ->
  Write p w = Ret ((n, Some e), w') ->
  n = len p /\
  bufferSize (self w) <= len (buf (self w) ++ p) /\
  lifecycle (self w') = Initialized /\
  ((exists c, e = ErrWriteFile (filename (self w)) c /\
              buf (self w') = buf (self w) ++ p) \/
   (exists c, e = ErrFlushFile (filename (self w)) c /\ buf (self w') = [])).
Proof.
  intros Hidle Hl H. apply lifecycle_Initialized in Hl. destruct Hl as [Hcl Hi].
  rewrite Write_unfold in H by assumption. rewrite Hcl, Hi in H. cbv zeta in H.
  destruct (bufferSize (self w) <=? len (buf (self w) ++ p)) eqn:Hcmp;
    [|discriminate].
  apply Z.leb_le in Hcmp.
  destruct (flush (append_buf p (acquire w))) as [[[e1|] w2]| |] eqn:E;
    try discriminate.
  inversion H; subst n e1 w'. clear H.
  split; [reflexivity|]. split; [exact Hcmp|].
  pose proof (flush_keeps _ _ _ E) as (_ & Hi2 & Hc2 & _). simpl in Hi2, Hc2.
  split; [apply lifecycle_Initialized; simpl; split; congruence|].
  apply flush_inv in E.
  destruct E as [(Hr & _) | (fd & data & _ & _ & _ & _ & _ & Hend)];
    [discriminate|].
  inversion Hend as [c w3 Hb Hc | c w3 Hb Hc |]; subst; simpl in *.
  - left. exists c. auto.
  - right. exists c. auto.
Qed.

(** ** Sync *)

(** X9.  [Sync] with an empty buffer returns nil and changes nothing; so
    after a [Sync] that returned nil, a second [Sync] returns nil and changes
    nothing. *)
Theorem Sync_twice (w : World) :
  steady w ->
  (buf (self w) = [] -> Sync w = Ret (None, w)) /\
  (forall w1, Sync w = Ret (None, w1) -> Sync w1 = Ret (None, w1)).
Proof.
  intros Hs.
  assert (Hempty : forall w0, idle w0 -> buf (self w0) = [] -> Sync w0 = Ret (None, w0)).
  { intros w0 Hidle Hb. rewrite Sync_unfold by assumption.
    rewrite flush_empty by exact Hb. rewrite release_acquire by assumption.
    reflexivity. }
  split; [apply Hempty, Hs|].
  intros w1 H.
  pose proof (steady_Sync _ _ _ Hs H) as (Hidle1 & _ & _).
  apply Hempty; [assumption|].
  destruct Hs as (Hidle & Hwf & _).
  rewrite Sync_unfold in H by assumption.
  destruct (flush (acquire w)) as [[r w2]| |] eqn:E; try discriminate.
  inversion H; subst. simpl.
  apply (flush_done_empty (acquire w)); [|assumption].
  simpl. intros Hn. apply wf_no_handle; assumption.
Qed.

(** ** SyncWrite and the string writers *)

(** X10.  After a [SyncWrite] that returned nil, nothing is left in the
    buffer, and the writer is Initialized. *)
Theorem SyncWrite_flushes (s : string) (w w' : World) :
  steady w ->
  SyncWrite s w = Ret (None, w') ->
  buf (self w') = [] /\ lifecycle (self w') = Initialized.
Proof.
  intros Hs H. apply SyncWrite_Ret in H.
  destruct H as [(err & Habs & _) | (w1 & H1 & H2)]; [discriminate|].
  pose proof (steady_SafeWrite _ _ _ _ Hs H1) as Hs1.
  apply SafeWrite_Ret in H1. destruct H1 as (h & n & _ & H1).
  assert (Hstate : closed (self w1) = false /\ initialized (self w1) = true).
  { destruct Hs as (Hidle & _ & _). rewrite Write_unfold in H1 by assumption.
    destruct (closed (self w)) eqn:Hcl; [discriminate|].
    destruct (initialized (self w)) eqn:Hi; [|discriminate].
    cbv zeta in H1.
    destruct (bufferSize (self w) <=? len (buf (self w) ++ bytes (h s))).
    - destruct (flush _) as [[[e|] w2]| |] eqn:E; try discriminate.
      inversion H1; subst.
      pose proof (flush_keeps _ _ _ E) as (_ & Hi2 & Hc2 & _). simpl in *.
      split; congruence.
    - inversion H1; subst. simpl. auto. }
  destruct Hs1 as (Hidle1 & Hwf1 & _).
  rewrite Sync_unfold in H2 by assumption.
  destruct (flush (acquire w1)) as [[r w2]| |] eqn:E; try discriminate.
  inversion H2; subst.
  pose proof (flush_keeps _ _ _ E) as (_ & Hi2 & Hc2 & _). simpl in Hi2, Hc2.
  split.
  - simpl. apply (flush_done_empty (acquire w1)); [|assumption].
    simpl. intros Hn. apply wf_no_handle; assumption.
  - apply lifecycle_Initialized. simpl. destruct Hstate. split; congruence.
Qed.

(** X12.  On a Closed writer, [WriteString], [WriteBytes], [WriteLine]
    and, when a preprocessor is installed, [SafeWrite] and [SyncWrite] return
    the error "file ... is closed" and change nothing; [SyncWrite] does not
    sync. *)
Theorem string_writers_closed (s : string) (bs : list byte) (w : World) :
  idle w ->
  lifecycle (self w) = Closed ->
  let closed_error := Some (ErrFileClosed (filename (self w))) in
  WriteString s w = Ret ((0, closed_error), w) /\
  WriteBytes bs w = Ret (closed_error, w) /\
  WriteLine s w = Ret (closed_error, w) /\
  (Handler (self w) <> None ->
   SafeWrite s w = Ret (closed_error, w) /\
   SyncWrite s w = Ret (closed_error, w)).
Proof.
  intros Hidle Hl. apply lifecycle_Closed in Hl. cbv zeta.
  assert (HW : forall p, Write p w
             = Ret ((0, Some (ErrFileClosed (filename (self w)))), w)).
  { intros p. rewrite Write_unfold by assumption. rewrite Hl. reflexivity. }
  split; [apply HW|].
  split; [rewrite WriteBytes_error_of; unfold error_of, bind; rewrite HW; reflexivity|].
  split; [rewrite WriteLine_error_of; unfold error_of, bind, WriteString;
          rewrite HW; reflexivity|].
  intros Hh. destruct (Handler (self w)) as [h|] eqn:Eh; [|contradiction].
  assert (HS : SafeWrite s w = Ret (Some (ErrFileClosed (filename (self w))), w)).
  { unfold SafeWrite, bind at 1, this. rewrite Eh.
    unfold bind, WriteString. rewrite HW. reflexivity. }
  split; [exact HS|].
  unfold SyncWrite, bind at 1. rewrite HS. reflexivity.
Qed.

(** ** Missing capabilities *)

(** X13.  On a writer without preprocessor (a nil [Handler], as
    [NewFileWithOptions] accepts), [SafeWrite] and [SyncWrite] panic. *)
Theorem nil_Handler_panics (s : string) (w : World) :
  Handler (self w) = None ->
  SafeWrite s w = Panic /\ SyncWrite s w = Panic.
Proof.
  intros Hh.
  assert (HS : SafeWrite s w = Panic)
    by (unfold SafeWrite, bind at 1, this; rewrite Hh; reflexivity).
  split; [exact HS|]. unfold SyncWrite, bind at 1. rewrite HS. reflexivity.
Qed.

(** X14.  With encoding on and no encoder (a nil [Encoder]), a flush that
    has something to write panics: [Sync] and [Close] panic on an open writer
    with a non-empty buffer. *)
Theorem nil_Encoder_panics (w : World) :
  idle w ->
  closed (self w) = false ->
  encode (self w) = true ->
  Encoder (self w) = None ->
  fileHandler (self w) <> None ->
  buf (self w) <> [] ->
  Sync w = Panic /\ Close w = Panic.
Proof.
  intros Hidle Hcl Hen He Hfd Hb.
  destruct (fileHandler (self w)) as [fd|] eqn:Efd; [|contradiction].
  assert (HF : flush (acquire w) = Panic).
  { apply (flush_no_encoder (acquire w) fd); try assumption.
    unfold payload, encoded. simpl. rewrite Hen, He. reflexivity. }
  split.
  - rewrite Sync_unfold by assumption. rewrite HF. reflexivity.
  - rewrite Close_unfold by assumption. rewrite Hcl, HF. reflexivity.
Qed.

(** ** Setters that take effect *)

(** X11.  Setters with valid arguments take effect.  [SetBufferSize] with
    a positive size sets the threshold and leaves buffer and sink alone.
    After [SetHandler(h)], [SafeWrite(s)] writes [h(s)].  On a writer with a
    handle, an adapter and something buffered: after [SetEncoder(enc)] and
    [EnableEncoding(true)] the next [Sync] returns and its flush hands [enc]
    of the buffer to the adapter, in one write, before anything else; after
    [EnableEncoding(false)] it hands over the buffer itself. *)
Theorem setters_take_effect (w : World) (size : Z) (h : string -> string)
    (enc : list byte -> list byte) (s : string) :
  idle w ->
  0 < size ->
  (exists w1, SetBufferSize size w = Ret (tt, w1) /\
              bufferSize (self w1) = size /\ os w1 = os w /\
              buf (self w1) = buf (self w)) /\
  (exists w1, SetHandler (Some h) w = Ret (tt, w1) /\
              SafeWrite s w1 = error_of (WriteString (h s)) w1) /\
  (fileHandler (self w) <> None ->
   fileWriter (self w) <> None ->
   buf (self w) <> [] ->
   (exists w1 w2 r w3 rest,
       SetEncoder (Some enc) w = Ret (tt, w1) /\
       EnableEncoding true w1 = Ret (tt, w2) /\
       Sync w2 = Ret (r, w3) /\
       calls (os w3) = calls (os w) ++ CallWrite (enc (buf (self w))) :: rest /\
       (rest = [] \/ rest = [CallFlush])) /\
   (exists w1 r w3 rest,
       EnableEncoding false w = Ret (tt, w1) /\
       Sync w1 = Ret (r, w3) /\
       calls (os w3) = calls (os w) ++ CallWrite (buf (self w)) :: rest /\
       (rest = [] \/ rest = [CallFlush]))).
Proof.
  intros Hidle Hsize.
  assert (Hsync : forall w0 data,
             idle w0 -> fileHandler (self w0) <> None ->
             fileWriter (self w0) <> None -> buf (self w0) <> [] ->
             payload (self w0) = Some data ->
             exists r w3 rest,
               Sync w0 = Ret (r, w3) /\
               calls (os w3) = calls (os w0) ++ CallWrite data :: rest /\
               (rest = [] \/ rest = [CallFlush])).
  { intros w0 data Hi Hfd Hbw Hbuf Hp.
    destruct (fileHandler (self w0)) as [fd|] eqn:Efd; [clear Hfd | contradiction].
    rewrite Sync_unfold by assumption.
    destruct (flush_attempt (acquire w0) fd data) as (r & w' & E & _ & Hend);
      try assumption.
    rewrite E. exists r, (release w').
    destruct Hend as [c w' Hb Hc | c w' Hb Hc | w' Hb Hc].
    - exists []. auto.
    - exists [CallFlush]. auto.
    - exists [CallFlush]. auto. }
  split; [|split].
  - rewrite SetBufferSize_idle by assumption.
    apply Z.ltb_lt in Hsize. rewrite Hsize. eexists. split; [reflexivity|].
    simpl. auto.
  - rewrite SetHandler_idle by assumption. eexists. split; [reflexivity|].
    unfold SafeWrite, bind at 1, this. simpl. reflexivity.
  - intros Hfd Hbw Hbuf. split.
    + set (w1 := mkWorld (set_Encoder (Some enc) (self w)) (os w)).
      set (w2 := mkWorld (set_encode true (self w1)) (os w1)).
      destruct (Hsync w2 (enc (buf (self w)))) as (r & w3 & rest & E & Hc & Hr);
        try assumption; try reflexivity; try exact Hidle.
      exists w1, w2, r, w3, rest.
      split; [exact (SetEncoder_idle (Some enc) w Hidle)|].
      split; [exact (EnableEncoding_idle true w1 Hidle)|].
      repeat split; assumption.
    + set (w1 := mkWorld (set_encode false (self w)) (os w)).
      destruct (Hsync w1 (buf (self w))) as (r & w3 & rest & E & Hc & Hr);
        try assumption; try reflexivity; try exact Hidle.
      exists w1, r, w3, rest.
      split; [exact (EnableEncoding_idle false w Hidle)|].
      repeat split; assumption.
Qed.

(** ** What reaches the file *)

Lemma write_at_end data d : write_at (length d) data d = d ++ data.
Proof.
  unfold write_at. rewrite firstn_all.
  rewrite skipn_all2 by (apply Nat.le_add_r). rewrite app_nil_r. reflexivity.
Qed.

(** A flush that succeeds in append mode, the adapter having nothing pending,
    puts the payload at the end of the file and leaves the adapter empty. *)
Lemma flush_appends w d data w' :
  appending (self w) ->
  disk (os w) = Some d ->
  buf (self w) <> [] ->
  payload (self w) = Some data ->
  flush w = Ret (None, w') ->
  disk (os w') = Some (d ++ data) /\ appending (self w').
Proof.
  intros (Hbw & fd & Hfd & Happ) Hd Hbuf Hdata.
  assert (Hlen : (len (buf (self w)) =? 0) = false).
  { destruct (len (buf (self w)) =? 0) eqn:E; [apply len_zero in E; contradiction | reflexivity]. }
  unfold flush, payload, encoded, appending in *. unfold_go. rewrite Hfd, Hlen, Hbw.
  destruct w as [f o]. destruct o as [dk flt cl]. simpl in *. subst dk.
  destruct (encode f) eqn:Eenc;
    [destruct (Encoder f) eqn:Eencoder|]; try discriminate;
    injection Hdata as <-.
  all: unfold bufio_Write, bufio_Flush, os_File_write, next_fault, record, set_disk;
    simpl.
  all: destruct flt as [|[c1|] [|[c2|] rest]]; simpl; try discriminate.
  all: match goal with
       | |- context [match ?x with [] => _ | _ :: _ => _ end] =>
         destruct x eqn:Edata; simpl
       end.
  all: try (intros H; inversion H; subst; simpl;
            rewrite ?app_nil_r; split; [reflexivity|];
            split; [reflexivity|]; eexists; split; [reflexivity | exact Happ]).
  all: destruct (fd_closed fd); simpl; try discriminate.
  all: destruct (Z.land (fd_flag fd) 3 =? O_RDONLY); simpl; try discriminate.
  all: rewrite Happ; intros H; inversion H; subst; simpl.
  all: rewrite write_at_end; split; [reflexivity|].
  all: split; [reflexivity|]; eexists; split; [reflexivity | exact Happ].
Qed.

Lemma os_File_Close_disk fd o r o' :
  os_File_Close fd o = (r, o') -> disk o' = disk o.
Proof.
  unfold os_File_Close, next_fault, record. simpl.
  destruct (fd_closed fd); [intros H; inversion H; reflexivity|].
  destruct (faults o) as [|x rest]; simpl; intros H; inversion H; reflexivity.
Qed.

(** X8.  Nothing is lost on close.  On a writer in append mode whose
    adapter has nothing pending, a [Write(p)] and a [Close] that both return
    nil leave the file holding its former content followed by the buffered
    bytes and [p], passed once through the encoder when encoding is on; it
    does not matter whether the flush ran in [Write] or in [Close]. *)
Theorem Write_then_Close_persists (p : list byte) (w w1 w2 : World) (n : Z)
    (d data : list byte) :
  steady w ->
  appending (self w) ->
  disk (os w) = Some d ->
  buf (self w) ++ p <> [] ->
  encoded (self w) (buf (self w) ++ p) = Some data ->
  Write p w = Ret ((n, None), w1) ->
  Close w1 = Ret (None, w2) ->
  disk (os w2) = Some (d ++ data) /\
  buf (self w2) = [] /\ lifecycle (self w2) = Closed.
Proof.
  intros Hs Happ Hd Hne Hdata HW HC.
  pose proof (steady_Write _ _ _ _ Hs HW) as Hs1.
  destruct Hs as (Hidle & Hwf & _).
  rewrite Write_unfold in HW by assumption.
  destruct (closed (self w)) eqn:Hcl; [discriminate|].
  destruct (initialized (self w)) eqn:Hi; [|discriminate].
  cbv zeta in HW.
  assert (Hstep : exists b1 d1,
             buf (self w1) = b1 /\ disk (os w1) = Some d1 /\
             appending (self w1) /\ closed (self w1) = false /\
             (d1 = d ++ data /\ b1 = [] \/
              d1 = d /\ b1 = buf (self w) ++ p /\
              payload (self w1) = Some data)).
  { destruct (bufferSize (self w) <=? len (buf (self w) ++ p)).
    - destruct (flush (append_buf p (acquire w))) as [[[e|] w3]| |] eqn:E;
        try discriminate.
      inversion HW; subst n w1. clear HW.
      pose proof (flush_keeps _ _ _ E) as (_ & _ & Hc3 & _). simpl in Hc3.
      destruct (flush_appends (append_buf p (acquire w)) d data w3)
        as [Hd3 Happ3]; try assumption.
      pose proof (flush_done_empty (append_buf p (acquire w)) w3) as Hb3.
      exists [], (d ++ data). simpl. split.
      + apply Hb3; [|assumption]. simpl. intros Hn.
        destruct Happ as (_ & fd & Hfd & _). congruence.
      + split; [assumption|]. split; [exact Happ3|]. split; [congruence|]. auto.
    - inversion HW; subst n w1. clear HW.
      exists (buf (self w) ++ p), d. simpl.
      split; [reflexivity|]. split; [assumption|]. split; [exact Happ|].
      split; [assumption|]. right. auto. }
  destruct Hstep as (b1 & d1 & Hb1 & Hd1 & Happ1 & Hcl1 & Hcase).
  destruct Hs1 as (Hidle1 & Hwf1 & _).
  rewrite Close_unfold in HC by assumption. rewrite Hcl1 in HC.
  destruct (flush (acquire w1)) as [[[e|] w3]| |] eqn:E; try discriminate.
  assert (Hfin : disk (os w3) = Some (d ++ data) /\ buf (self w3) = []).
  { destruct Hcase as [[-> ->] | (-> & -> & Hp1)].
    - rewrite flush_empty in E by exact Hb1. inversion E; subst. simpl. auto.
    - destruct (flush_appends (acquire w1) d data w3) as [Hd3 _]; try assumption.
      + simpl. rewrite Hb1. exact Hne.
      + split; [exact Hd3|].
        apply (flush_done_empty (acquire w1)); [|assumption].
        simpl. intros Hn. destruct Happ1 as (_ & fd & Hfd & _). congruence. }
  destruct Hfin as [Hd3 Hb3].
  destruct (fileHandler (self w3)) as [fd|].
  - destruct (os_File_Close fd (os w3)) as [[[c|] fd'] o'] eqn:Ec; try discriminate.
    apply os_File_Close_disk in Ec. inversion HC; subst. simpl.
    rewrite Ec. auto.
  - inversion HC; subst. simpl. auto.
Qed.

(** ** Witnesses *)

Lemma bare_writer_built :
  built (NewFileWithOptions stub_codec "out.log" (Some bare_options) fresh)
  = Some bare_writer.
Proof. vm_compute. reflexivity. Qed.

Lemma steady_new_writer : steady new_writer.
Proof. split; [reflexivity|]. split; [reflexivity|]. discriminate. Qed.

Lemma steady_closed_writer : steady closed_writer.
Proof. split; [reflexivity|]. split; [reflexivity|]. reflexivity. Qed.

Lemma constructed_writer_stays_steady_witness :
  NewFile stub_codec "out.log" ModeAppend false false fresh
    = Ret ((Some (self new_writer), None), os new_writer) /\
  run session new_writer = Ret new_writer_after_session /\
  steady new_writer_after_session.
Proof.
  assert (H1 : NewFile stub_codec "out.log" ModeAppend false false fresh
               = Ret ((Some (self new_writer), None), os new_writer))
    by reflexivity.
  assert (H2 : run session new_writer = Ret new_writer_after_session)
    by (vm_compute; reflexivity).
  split; [exact H1|]. split; [exact H2|].
  exact (constructed_writer_stays_steady stub_codec "out.log" ModeAppend false false
           None fresh (self new_writer) None (os new_writer) session
           new_writer_after_session (or_introl H1) H2).
Defined.

Lemma Closed_is_final_witness :
  steady closed_writer /\ lifecycle (self closed_writer) = Closed /\
  run afterlife closed_writer = Ret closed_writer_after /\
  calls (os closed_writer_after) = calls (os closed_writer).
Proof.
  assert (H : run afterlife closed_writer = Ret closed_writer_after)
    by (vm_compute; reflexivity).
  split; [exact steady_closed_writer|]. split; [reflexivity|]. split; [exact H|].
  exact (proj1 (proj2 (proj2
           (Closed_is_final afterlife closed_writer closed_writer_after
              steady_closed_writer eq_refl H)))).
Defined.

Lemma initialized_writer_never_blocks_witness :
  steady tight_refused_writer /\
  exists w', run session tight_refused_writer = Ret w'.
Proof.
  assert (Hs : steady tight_refused_writer)
    by (split; [reflexivity|]; split; [reflexivity|]; discriminate).
  split; [exact Hs|].
  apply (initialized_writer_never_blocks session tight_refused_writer Hs eq_refl);
    discriminate.
Defined.

Lemma Write_error_keeps_count_witness :
  idle tight_refused_writer /\
  lifecycle (self tight_refused_writer) = Initialized /\
  Write (bytes "ab") tight_refused_writer
    = Ret ((2, Some (ErrWriteFile "out.log" EIO)), tight_refused_writer_after) /\
  buf (self tight_refused_writer_after) = bytes "ab".
Proof.
  assert (H : Write (bytes "ab") tight_refused_writer
              = Ret ((2, Some (ErrWriteFile "out.log" EIO)), tight_refused_writer_after))
    by (vm_compute; reflexivity).
  split; [reflexivity|]. split; [reflexivity|]. split; [exact H|].
  destruct (Write_error_keeps_count (bytes "ab") tight_refused_writer 2 _ _ eq_refl eq_refl H)
    as (_ & _ & _ & [(c & _ & Hb) | (c & He & _)]).
  - exact Hb.
  - discriminate He.
Defined.

Lemma Write_then_Close_persists_witness :
  steady new_writer /\ appending (self new_writer) /\
  Write (bytes "hello" ++ [x0a]) new_writer = Ret ((6, None), new_writer_hello) /\
  Close new_writer_hello = Ret (None, hello_writer_closed) /\
  disk (os hello_writer_closed) = Some (bytes "hello" ++ [x0a]).
Proof.
  assert (Ha : appending (self new_writer))
    by (split; [reflexivity|]; eexists; split; reflexivity).
  assert (H1 : Write (bytes "hello" ++ [x0a]) new_writer
               = Ret ((6, None), new_writer_hello))
    by (vm_compute; reflexivity).
  assert (H2 : Close new_writer_hello = Ret (None, hello_writer_closed))
    by (vm_compute; reflexivity).
  split; [exact steady_new_writer|]. split; [exact Ha|].
  split; [exact H1|]. split; [exact H2|].
  refine (proj1 (Write_then_Close_persists (bytes "hello" ++ [x0a]) new_writer
                   new_writer_hello hello_writer_closed 6 [] (bytes "hello" ++ [x0a])
                   steady_new_writer Ha eq_refl _ eq_refl H1 H2)).
  discriminate.
Defined.

Lemma Sync_twice_witness :
  steady new_writer /\ Sync new_writer = Ret (None, new_writer).
Proof.
  split; [exact steady_new_writer|].
  exact (proj1 (Sync_twice new_writer steady_new_writer) eq_refl).
Defined.

Lemma SyncWrite_flushes_witness :
  steady new_writer /\
  SyncWrite "hi" new_writer = Ret (None, new_writer_synced) /\
  buf (self new_writer_synced) = [] /\
  disk (os new_writer_synced) = Some (bytes "hi").
Proof.
  assert (H : SyncWrite "hi" new_writer = Ret (None, new_writer_synced))
    by (vm_compute; reflexivity).
  split; [exact steady_new_writer|]. split; [exact H|].
  split; [|reflexivity].
  exact (proj1 (SyncWrite_flushes "hi" new_writer new_writer_synced
                  steady_new_writer H)).
Defined.

Lemma string_writers_closed_witness :
  idle closed_writer /\ lifecycle (self closed_writer) = Closed /\
  WriteLine "late" closed_writer = Ret (Some (ErrFileClosed "out.log"), closed_writer).
Proof.
  split; [reflexivity|]. split; [reflexivity|].
  exact (proj1 (proj2 (proj2
           (string_writers_closed "late" [] closed_writer eq_refl eq_refl)))).
Defined.

Lemma nil_Handler_panics_witness :
  Handler (self bare_writer) = None /\ SafeWrite "x" bare_writer = Panic.
Proof.
  split; [reflexivity|].
  exact (proj1 (nil_Handler_panics "x" bare_writer eq_refl)).
Defined.

Lemma nil_Encoder_panics_witness :
  idle bare_writer_ab /\ buf (self bare_writer_ab) = bytes "ab" /\
  Sync bare_writer_ab = Panic /\ Close bare_writer_ab = Panic.
Proof.
  split; [reflexivity|]. split; [reflexivity|].
  apply (nil_Encoder_panics bare_writer_ab); try reflexivity; discriminate.
Defined.

Lemma setters_take_effect_witness :
  idle small_writer /\ 0 < 8 /\ buf (self small_writer) = bytes "ab" /\
  (exists w1, SetBufferSize 8 small_writer = Ret (tt, w1) /\
              bufferSize (self w1) = 8 /\ os w1 = os small_writer /\
              buf (self w1) = buf (self small_writer)) /\
  (exists w1 w2 r w3 rest,
      SetEncoder (Some upper) small_writer = Ret (tt, w1) /\
      EnableEncoding true w1 = Ret (tt, w2) /\
      Sync w2 = Ret (r, w3) /\
      calls (os w3)
      = calls (os small_writer) ++ CallWrite (upper (buf (self small_writer))) :: rest /\
      (rest = [] \/ rest = [CallFlush])) /\
  upper (buf (self small_writer)) = bytes "AB".
Proof.
  split; [reflexivity|]. split; [reflexivity|]. split; [reflexivity|].
  destruct (setters_take_effect small_writer 8 (fun s => s) upper "x"
              eq_refl eq_refl) as (H1 & _ & H3).
  split; [exact H1|].
  split; [|reflexivity].
  apply H3; discriminate.
Defined.

(** ** Decimal numerals *)

Lemma digits_value_app ds d n :
  digits_value (ds ++ [d]) n = digits_value ds n * 10 + d.
Proof. unfold digits_value. rewrite fold_left_app. reflexivity. Qed.

Lemma digits_spec_S k : forall n,
  0 <= n < 10 ^ Z.of_nat (S k) ->
  digits_value (digits (S k) n) 0 = n /\ Forall is_digit (digits (S k) n) /\
  digits (S k) n <> [].
Proof.
  assert (Hsmall : forall n, 0 <= n -> n < 10 ->
            digits_value [n] 0 = n /\ Forall is_digit [n] /\ [n] <> []).
  { intros n H0 H10. split; [unfold digits_value; simpl; lia|]. split.
    - constructor; [unfold is_digit; lia | constructor].
    - discriminate. }
  induction k as [|k IH]; intros n Hn.
  - change (10 ^ Z.of_nat 1) with 10 in Hn. simpl digits.
    destruct (n <? 10) eqn:E; [|apply Z.ltb_ge in E; lia].
    apply Hsmall; lia.
  - remember (S k) as m eqn:Hm. simpl digits.
    destruct (n <? 10) eqn:E.
    + apply Z.ltb_lt in E. apply Hsmall; lia.
    + apply Z.ltb_ge in E.
      assert (Hq : 0 <= n / 10 < 10 ^ Z.of_nat m).
      { rewrite Nat2Z.inj_succ, Z.pow_succ_r in Hn by lia.
        pose proof (Z.div_mod n 10 ltac:(lia)) as Hdm.
        pose proof (Z.mod_pos_bound n 10 ltac:(lia)) as Hmb.
        set (P := 10 ^ Z.of_nat m) in *. lia. }
      destruct (IH _ Hq) as (Hv & Hd & Hne).
      split; [rewrite digits_value_app, Hv;
              pose proof (Z.div_mod n 10 ltac:(lia)); lia|].
      split.
      * apply Forall_app. split; [assumption|].
        constructor; [|constructor]. unfold is_digit.
        pose proof (Z.mod_pos_bound n 10). lia.
      * intros Habs. apply app_eq_nil in Habs. destruct Habs. discriminate.
Qed.

Lemma digits_spec n :
  0 <= n < 10 ^ 20 ->
  digits_value (digits 20 n) 0 = n /\ Forall is_digit (digits 20 n) /\
  digits 20 n <> [].
Proof. intros H. apply (digits_spec_S 19). exact H. Qed.

Lemma digit_of_digit_char d : is_digit d -> digit_of (digit_char d) = Some d.
Proof.
  unfold is_digit. intros Hd.
  assert (Hcases : d = 0 \/ d = 1 \/ d = 2 \/ d = 3 \/ d = 4 \/ d = 5 \/ d = 6
                   \/ d = 7 \/ d = 8 \/ d = 9) by lia.
  repeat (destruct Hcases as [-> | Hcases]; [reflexivity|]). subst. reflexivity.
Qed.

Lemma digits_value_le ds : forall n,
  0 <= n -> Forall is_digit ds -> n <= digits_value ds n.
Proof.
  induction ds as [|d ds IH]; intros n Hn Hd; simpl.
  - unfold digits_value. simpl. lia.
  - inversion Hd as [|d' ds' Hd1 Hd2]; subst.
    change (digits_value (d :: ds) n) with (digits_value ds (n * 10 + d)).
    unfold is_digit in Hd1.
    assert (Hle := IH (n * 10 + d) ltac:(lia) Hd2). lia.
Qed.

Lemma ParseUint_from_String c rest n :
  ParseUint_from (String c rest) n =
  match digit_of c with
  | None => (0, Some ErrSyntax)
  | Some d =>
    if MaxUint64 / 10 + 1 <=? n then (MaxUint64, Some ErrRange)
    else if MaxUint64 <? n * 10 + d then (MaxUint64, Some ErrRange)
         else ParseUint_from rest (n * 10 + d)
  end.
Proof. reflexivity. Qed.

Lemma cutoff_value : MaxUint64 / 10 + 1 = 1844674407370955162.
Proof. reflexivity. Qed.

(** A numeral that fits in 64 bits is read back as its value. *)
Lemma ParseUint_from_numeral ds : forall n,
  0 <= n -> Forall is_digit ds -> digits_value ds n <= MaxUint64 ->
  ParseUint_from (numeral ds) n = (digits_value ds n, None).
Proof.
  induction ds as [|d ds IH]; intros n Hn Hd Hmax.
  - reflexivity.
  - inversion Hd as [|d' ds' Hd1 Hd2]; subst.
    change (numeral (d :: ds)) with (String (digit_char d) (numeral ds)).
    change (digits_value (d :: ds) n) with (digits_value ds (n * 10 + d)) in *.
    assert (Hle : n * 10 + d <= digits_value ds (n * 10 + d)).
    { apply digits_value_le; [unfold is_digit in Hd1; lia | assumption]. }
    rewrite ParseUint_from_String, digit_of_digit_char by assumption.
    rewrite cutoff_value.
    unfold is_digit in Hd1.
    assert (HM : MaxUint64 = 18446744073709551615) by reflexivity.
    destruct (Z.leb_spec 1844674407370955162 n) as [E1 | E1]; [lia|].
    destruct (Z.ltb_spec MaxUint64 (n * 10 + d)) as [E2 | E2]; [lia|].
    apply IH; [lia | assumption | assumption].
Qed.

Lemma numeral_nonempty ds : ds <> [] -> exists c s, numeral ds = String c s /\
  exists d, c = digit_char d /\ In d ds.
Proof.
  destruct ds as [|d ds]; [contradiction|]. intros _.
  exists (digit_char d), (numeral ds). split; [reflexivity|].
  exists d. split; [reflexivity | left; reflexivity].
Qed.

Lemma digit_char_not_sign d :
  is_digit d -> Ascii.eqb (digit_char d) "-" = false /\
                Ascii.eqb (digit_char d) "+" = false.
Proof.
  unfold is_digit. intros Hd.
  assert (Hcases : d = 0 \/ d = 1 \/ d = 2 \/ d = 3 \/ d = 4 \/ d = 5 \/ d = 6
                   \/ d = 7 \/ d = 8 \/ d = 9) by lia.
  repeat (destruct Hcases as [-> | Hcases]; [split; reflexivity|]).
  subst. split; reflexivity.
Qed.

Lemma Itoa_nonneg i :
  0 <= i -> strconv_Itoa i = numeral (digits 20 i).
Proof.
  intros Hi. unfold strconv_Itoa.
  destruct (i <? 0) eqn:E; [apply Z.ltb_lt in E; lia | reflexivity].
Qed.

(** [Atoi] reads back what [Itoa] wrote. *)
Lemma Atoi_Itoa i :
  MinInt <= i <= MaxInt -> strconv_Atoi (strconv_Itoa i) = (i, None).
Proof.
  unfold MinInt, MaxInt. intros Hi.
  assert (Hpow : 10 ^ 20 = 100000000000000000000) by reflexivity.
  destruct (Z.ltb_spec i 0) as [Hneg | Hpos].
  - unfold strconv_Itoa. destruct (i <? 0) eqn:E; [|apply Z.ltb_ge in E; lia].
    destruct (digits_spec (- i)) as (Hv & Hd & Hne); [lia|].
    fold (numeral (digits 20 (- i))).
    destruct (numeral_nonempty _ Hne) as (c & s & Es & _).
    unfold strconv_Atoi. simpl Ascii.eqb. cbv iota. simpl orb. cbv iota.
    unfold strconv_ParseUint. rewrite Es. rewrite <- Es.
    rewrite ParseUint_from_numeral; try assumption; try lia;
      [|rewrite Hv; unfold MaxUint64; lia].
    rewrite Hv. simpl negb. simpl andb. cbv iota.
    match goal with
    | |- context [?a <? ?b] => destruct (Z.ltb_spec a b) as [E2 | E2]; [lia|]
    end.
    f_equal. lia.
  - rewrite Itoa_nonneg by assumption.
    destruct (digits_spec i) as (Hv & Hd & Hne); [lia|].
    destruct (numeral_nonempty _ Hne) as (c & s & Es & d & -> & Hin).
    assert (Hdd : is_digit d) by (rewrite Forall_forall in Hd; auto).
    destruct (digit_char_not_sign d Hdd) as [Hm Hp].
    unfold strconv_Atoi. rewrite Es. rewrite Hm, Hp. simpl orb. cbv iota.
    rewrite <- Es. unfold strconv_ParseUint. rewrite Es. rewrite <- Es.
    rewrite ParseUint_from_numeral; try assumption; try lia;
      [|rewrite Hv; unfold MaxUint64; lia].
    rewrite Hv. simpl negb. simpl andb.
    match goal with
    | |- context [?a <=? ?b] => destruct (Z.leb_spec a b) as [E2 | E2]; [lia|]
    end.
    reflexivity.
Qed.

(** ** Strings *)

Lemma has_byte_cons c x s :
  has_byte c (String x s) = Ascii.eqb x c || has_byte c s.
Proof. reflexivity. Qed.

Lemma prefix_byte c s :
  String.prefix (String c EmptyString) s
  = match s with
    | EmptyString => false
    | String a _ => Ascii.eqb a c
    end.
Proof.
  destruct s as [|a rest]; [reflexivity|]. simpl.
  destruct (ascii_dec c a) as [->|Hne].
  - rewrite Ascii.eqb_refl. destruct rest; reflexivity.
  - symmetry. apply Ascii.eqb_neq. congruence.
Qed.

Lemma Index_unfold s sub :
  strings_Index s sub
  = if String.prefix sub s then Some O
    else match s with
         | EmptyString => None
         | String _ rest => option_map S (strings_Index rest sub)
         end.
Proof. destruct s; reflexivity. Qed.

Lemma Index_byte_none c s :
  has_byte c s = false -> strings_Index s (String c EmptyString) = None.
Proof.
  induction s as [|a rest IH]; intros H.
  - reflexivity.
  - simpl in H. apply orb_false_iff in H. destruct H as [Ha Hr].
    rewrite Index_unfold.
    rewrite prefix_byte, Ha, IH by assumption. reflexivity.
Qed.

Lemma Index_byte_first c a b :
  has_byte c a = false ->
  strings_Index (a ++ String c b) (String c EmptyString) = Some (String.length a).
Proof.
  induction a as [|x rest IH]; intros H.
  - simpl append. rewrite Index_unfold.
    rewrite prefix_byte, Ascii.eqb_refl. reflexivity.
  - simpl in H. apply orb_false_iff in H. destruct H as [Ha Hr].
    change (String x rest ++ String c b)%string
      with (String x (rest ++ String c b)).
    rewrite Index_unfold.
    rewrite prefix_byte, Ha, IH by assumption. reflexivity.
Qed.

Lemma Contains_byte_false c s :
  has_byte c s = false -> strings_Contains s (String c EmptyString) = false.
Proof.
  intros H. unfold strings_Contains. rewrite Index_byte_none by assumption.
  reflexivity.
Qed.

Lemma Contains_byte_true c a b :
  strings_Contains (a ++ String c b) (String c EmptyString) = true.
Proof.
  unfold strings_Contains.
  induction a as [|x rest IH].
  - simpl append. rewrite Index_unfold.
    rewrite prefix_byte, Ascii.eqb_refl. reflexivity.
  - change (String x rest ++ String c b)%string
      with (String x (rest ++ String c b)).
    rewrite Index_unfold.
    destruct (String.prefix _ _); [reflexivity|].
    destruct (strings_Index (rest ++ String c b) (String c EmptyString));
      [reflexivity | discriminate].
Qed.

Lemma Contains_byte c s :
  strings_Contains s (String c EmptyString) = has_byte c s.
Proof.
  destruct (has_byte c s) eqn:H; [|apply Contains_byte_false; assumption].
  induction s as [|a rest IH]; [discriminate|].
  simpl in H. unfold strings_Contains in *.
  rewrite Index_unfold.
  rewrite prefix_byte. destruct (Ascii.eqb a c); [reflexivity|].
  simpl in H. specialize (IH H).
  destruct (strings_Index rest (String c EmptyString)); [reflexivity | discriminate].
Qed.

Lemma Split_nonempty s sep : strings_Split s sep <> [].
Proof.
  induction s as [|c rest IH]; simpl; [discriminate|].
  destruct (Ascii.eqb c sep); [discriminate|].
  destruct (strings_Split rest sep); discriminate.
Qed.

Lemma Split_none s sep : has_byte sep s = false -> strings_Split s sep = [s].
Proof.
  induction s as [|c rest IH]; intros H; simpl; [reflexivity|].
  simpl in H. apply orb_false_iff in H. destruct H as [Hc Hr].
  rewrite Hc, IH by assumption. reflexivity.
Qed.

Lemma Split_first a b sep :
  has_byte sep a = false ->
  strings_Split (a ++ String sep b) sep = a :: strings_Split b sep.
Proof.
  induction a as [|c rest IH]; intros H; simpl.
  - rewrite Ascii.eqb_refl. reflexivity.
  - simpl in H. apply orb_false_iff in H. destruct H as [Hc Hr].
    rewrite Hc, IH by assumption. reflexivity.
Qed.

Lemma Replace_none s old new :
  has_byte old s = false -> strings_Replace s old new = s.
Proof.
  induction s as [|c rest IH]; intros H; simpl; [reflexivity|].
  simpl in H. apply orb_false_iff in H. destruct H as [Hc Hr].
  rewrite Hc, IH by assumption. reflexivity.
Qed.

Lemma has_byte_app c a b : has_byte c (a ++ b) = has_byte c a || has_byte c b.
Proof.
  induction a as [|x rest IH]; simpl; [reflexivity|].
  rewrite IH, orb_assoc. reflexivity.
Qed.

(** *** TrimSpace *)

Lemma plain_prefix c l : plain c -> space_prefix (c :: l) = None.
Proof.
  intros [Hs Hn]. unfold space_prefix. rewrite Hs.
  assert (H2 : forall c2, two_byte_space c c2 = false).
  { intros c2. unfold two_byte_space.
    destruct (Nat.eqb_spec (nat_of_ascii c) 194); [lia | reflexivity]. }
  assert (H3 : forall c2 c3, three_byte_space c c2 c3 = false).
  { intros c2 c3. unfold three_byte_space.
    destruct (Nat.eqb_spec (nat_of_ascii c) 225); [lia|].
    destruct (Nat.eqb_spec (nat_of_ascii c) 226); [lia|].
    destruct (Nat.eqb_spec (nat_of_ascii c) 227); [lia|]. reflexivity. }
  destruct l as [|c2 [|c3 l]]; rewrite ?H2, ?H3; reflexivity.
Qed.

Lemma plain_suffix c l : plain c -> space_suffix (c :: l) = None.
Proof.
  intros [Hs Hn]. unfold space_suffix. rewrite Hs.
  assert (H2 : forall c2, two_byte_space c2 c = false).
  { intros c2. unfold two_byte_space.
    destruct (Nat.eqb_spec (nat_of_ascii c) 133); [lia|].
    destruct (Nat.eqb_spec (nat_of_ascii c) 160); [lia|].
    rewrite andb_false_r. reflexivity. }
  assert (H3 : forall c2 c3, three_byte_space c3 c2 c = false).
  { intros c2 c3. unfold three_byte_space.
    destruct (Nat.eqb_spec (nat_of_ascii c) 128); [lia|].
    destruct (Nat.eqb_spec (nat_of_ascii c) 168); [lia|].
    destruct (Nat.eqb_spec (nat_of_ascii c) 169); [lia|].
    destruct (Nat.eqb_spec (nat_of_ascii c) 175); [lia|].
    destruct (Nat.eqb_spec (nat_of_ascii c) 159); [lia|].
    destruct (Nat.leb_spec 128 (nat_of_ascii c)); [lia|].
    simpl. rewrite !andb_false_r. reflexivity. }
  destruct l as [|c2 [|c3 l]]; rewrite ?H2, ?H3; reflexivity.
Qed.

Lemma last_byte_rev s c :
  last_byte s = Some c ->
  exists l, rev (list_ascii_of_string s) = c :: l.
Proof.
  induction s as [|a rest IH]; [discriminate|].
  destruct rest as [|b rest'].
  - simpl. intros H. inversion H; subst. eauto.
  - intros H. change (last_byte (String a (String b rest')))
      with (last_byte (String b rest')) in H.
    destruct (IH H) as [l El].
    change (list_ascii_of_string (String a (String b rest')))
      with (a :: list_ascii_of_string (String b rest')).
    change (rev (a :: list_ascii_of_string (String b rest')))
      with (rev (list_ascii_of_string (String b rest')) ++ [a]).
    rewrite El. simpl. eauto.
Qed.

Lemma trim_with_none strip fuel l : strip l = None -> trim_with strip fuel l = l.
Proof. intros H. destruct fuel; simpl; [|rewrite H]; reflexivity. Qed.

(** Nothing is trimmed from a string that starts and ends with plain
    characters. *)
Lemma TrimSpace_plain s c0 cn :
  first_byte s = Some c0 -> last_byte s = Some cn -> plain c0 -> plain cn ->
  strings_TrimSpace s = s.
Proof.
  intros H0 Hn P0 Pn. unfold strings_TrimSpace. cbv zeta.
  destruct (last_byte_rev _ _ Hn) as [l El].
  destruct s as [|a rest]; [discriminate|]. simpl in H0. inversion H0; subst a.
  change (list_ascii_of_string (String c0 rest))
    with (c0 :: list_ascii_of_string rest) in *.
  rewrite (trim_with_none space_prefix) by (apply plain_prefix; assumption).
  rewrite El.
  rewrite (trim_with_none space_suffix) by (apply plain_suffix; assumption).
  rewrite <- El, rev_involutive.
  apply (string_of_list_ascii_of_string (String c0 rest)).
Qed.

Lemma first_byte_app a b :
  first_byte (a ++ b) = match first_byte a with
                        | Some c => Some c
                        | None => first_byte b
                        end.
Proof. destruct a; reflexivity. Qed.

Lemma last_byte_cons x s :
  s <> EmptyString -> last_byte (String x s) = last_byte s.
Proof. destruct s; [contradiction | reflexivity]. Qed.

Lemma last_byte_app a c b :
  last_byte (a ++ String c b) = last_byte (String c b).
Proof.
  induction a as [|x rest IH]; [reflexivity|].
  change (last_byte (String x (rest ++ String c b)) = last_byte (String c b)).
  rewrite last_byte_cons; [exact IH|].
  destruct rest; discriminate.
Qed.

Lemma has_byte_first c s a :
  has_byte c s = false -> first_byte s = Some a -> Ascii.eqb a c = false.
Proof.
  destruct s as [|x rest]; [discriminate|]. simpl.
  intros H E. inversion E; subst. apply orb_false_iff in H. apply H.
Qed.

Lemma has_byte_last c s a :
  has_byte c s = false -> last_byte s = Some a -> Ascii.eqb a c = false.
Proof.
  induction s as [|x rest IH]; [discriminate|].
  simpl has_byte. intros H E. apply orb_false_iff in H. destruct H as [Hx Hr].
  destruct rest as [|y tl].
  - simpl in E. inversion E; subst. exact Hx.
  - apply IH; assumption.
Qed.

Lemma last_byte_some s : s <> EmptyString -> exists c, last_byte s = Some c.
Proof.
  induction s as [|x rest IH]; [contradiction|]. intros _.
  destruct rest as [|y tl]; [simpl; eauto|].
  apply IH. discriminate.
Qed.

(** *** Numerals as strings *)

Lemma digit_char_plain d : is_digit d -> plain (digit_char d).
Proof.
  unfold is_digit. intros Hd.
  assert (Hcases : d = 0 \/ d = 1 \/ d = 2 \/ d = 3 \/ d = 4 \/ d = 5 \/ d = 6
                   \/ d = 7 \/ d = 8 \/ d = 9) by lia.
  unfold plain.
  repeat (destruct Hcases as [-> | Hcases];
          [split; [reflexivity | apply Nat.ltb_lt; reflexivity]|]).
  subst. split; [reflexivity | apply Nat.ltb_lt; reflexivity].
Qed.

Lemma numeral_bytes ds c :
  Forall is_digit ds -> digit_of c = None -> has_byte c (numeral ds) = false.
Proof.
  intros Hd Hc. induction Hd as [|d ds Hd1 Hd2 IH]; [reflexivity|].
  change (numeral (d :: ds)) with (String (digit_char d) (numeral ds)).
  rewrite has_byte_cons, IH, orb_false_r.
  apply Ascii.eqb_neq. intros E. rewrite <- E in Hc.
  rewrite digit_of_digit_char in Hc by assumption. discriminate.
Qed.

Lemma numeral_ends ds :
  Forall is_digit ds -> ds <> [] ->
  exists c0 cn, first_byte (numeral ds) = Some c0 /\
                last_byte (numeral ds) = Some cn /\ plain c0 /\ plain cn.
Proof.
  intros Hd Hne.
  assert (Hall : forall c, has_byte c (numeral ds) = true ->
                           exists d, is_digit d /\ c = digit_char d).
  { clear Hne. induction Hd as [|d ds Hd1 Hd2 IH]; intros c H; [discriminate|].
    change (numeral (d :: ds)) with (String (digit_char d) (numeral ds)) in H.
    rewrite has_byte_cons in H. apply orb_true_iff in H. destruct H as [H | H].
    - apply Ascii.eqb_eq in H. eauto.
    - apply IH. exact H. }
  destruct ds as [|d ds]; [contradiction|].
  change (numeral (d :: ds)) with (String (digit_char d) (numeral ds)) in *.
  destruct (last_byte_some (String (digit_char d) (numeral ds))) as [cn Hcn];
    [discriminate|].
  exists (digit_char d), cn. split; [reflexivity|]. split; [exact Hcn|].
  inversion Hd; subst. split; [apply digit_char_plain; assumption|].
  assert (Hin : has_byte cn (String (digit_char d) (numeral ds)) = true).
  { clear Hall. revert Hcn. generalize (String (digit_char d) (numeral ds)).
    induction s as [|x rest IHs]; [discriminate|].
    destruct rest as [|y tl]; intros E.
    - simpl in E. inversion E; subst. rewrite has_byte_cons, Ascii.eqb_refl.
      reflexivity.
    - rewrite has_byte_cons. rewrite (IHs E). apply orb_true_r. }
  destruct (Hall cn Hin) as (dn & Hdn & ->). apply digit_char_plain. assumption.
Qed.

(** ** The loop of expandPort *)

Lemma int_wrap_small z : MinInt <= z <= MaxInt -> int_wrap z = z.
Proof.
  unfold int_wrap, MinInt, MaxInt. intros H.
  rewrite Z.mod_small; [lia|].
  change (2 ^ 64) with 18446744073709551616. lia.
Qed.

Lemma int_wrap_range z : MinInt <= int_wrap z <= MaxInt.
Proof.
  unfold int_wrap, MinInt, MaxInt.
  pose proof (Z.mod_pos_bound (z - -9223372036854775808) (2 ^ 64) ltac:(reflexivity)) as H.
  change (2 ^ 64) with 18446744073709551616 in *. lia.
Qed.

Lemma zrange_empty a b : b < a -> zrange a b = [].
Proof.
  intros H. unfold zrange. replace (Z.to_nat (b - a + 1)) with O by lia. reflexivity.
Qed.

Lemma zrange_cons a b : a <= b -> zrange a b = a :: zrange (a + 1) b.
Proof.
  intros H. unfold zrange.
  replace (Z.to_nat (b - a + 1)) with (S (Z.to_nat (b - (a + 1) + 1))) by lia.
  simpl seq. simpl map. f_equal; [lia|].
  rewrite <- seq_shift, map_map. apply map_ext. intros i. lia.
Qed.

Lemma zrange_length a b : Z.of_nat (length (zrange a b)) = Z.max 0 (b - a + 1).
Proof. unfold zrange. rewrite length_map, length_seq. lia. Qed.

Lemma expandPort_loop_S k port fin acc :
  expandPort_loop (S k) port fin acc
  = if port <=? fin
    then expandPort_loop k (int_wrap (port + 1)) fin (acc ++ [strconv_Itoa port])
    else Returns acc.
Proof. reflexivity. Qed.

(** With a bound below [MaxInt] the loop ends, once for each integer from
    [port] to [fin]. *)
Lemma expandPort_loop_ends fin : fin < MaxInt ->
  forall n fuel port acc,
    Z.of_nat n = Z.max 0 (fin - port + 1) -> (n < fuel)%nat -> MinInt <= port ->
    expandPort_loop fuel port fin acc
    = Returns (acc ++ map strconv_Itoa (zrange port fin)).
Proof.
  intros Hfin. induction n as [|m IH]; intros fuel port acc Hn Hfuel Hport.
  - destruct fuel as [|k]; [lia|]. rewrite expandPort_loop_S.
    destruct (Z.leb_spec port fin) as [E | E]; [lia|].
    rewrite zrange_empty by lia. rewrite app_nil_r. reflexivity.
  - destruct fuel as [|k]; [lia|]. rewrite expandPort_loop_S.
    destruct (Z.leb_spec port fin) as [E | E]; [|lia].
    rewrite int_wrap_small by lia.
    rewrite (IH k (port + 1)) by lia.
    rewrite (zrange_cons port fin) by lia. simpl map.
    rewrite <- app_assoc. reflexivity.
Qed.

(** With the bound [MaxInt] the loop never ends: no [int] is above it. *)
Lemma expandPort_loop_forever fuel : forall port acc,
  MinInt <= port <= MaxInt -> expandPort_loop fuel port MaxInt acc = OutOfFuel.
Proof.
  induction fuel as [|k IH]; intros port acc H; [reflexivity|].
  rewrite expandPort_loop_S.
  destruct (Z.leb_spec port MaxInt) as [E | E]; [|lia].
  apply IH. apply int_wrap_range.
Qed.

(** ** What Atoi answers *)

Lemma ParseUint_from_range s : forall n,
  0 <= n <= MaxUint64 -> 0 <= fst (ParseUint_from s n) <= MaxUint64.
Proof.
  assert (HM : MaxUint64 = 18446744073709551615) by reflexivity.
  induction s as [|c rest IH]; intros n Hn; [simpl; lia|].
  rewrite ParseUint_from_String.
  destruct (digit_of c) as [d|] eqn:Ed; [|simpl; lia].
  assert (Hd : 0 <= d).
  { unfold digit_of in Ed. destruct (_ && _)%bool; [|discriminate].
    inversion Ed. lia. }
  destruct (Z.leb_spec (MaxUint64 / 10 + 1) n); [simpl; lia|].
  destruct (Z.ltb_spec MaxUint64 (n * 10 + d)); [simpl; lia|].
  apply IH. lia.
Qed.

Lemma ParseUint_range s : 0 <= fst (strconv_ParseUint s) <= MaxUint64.
Proof.
  assert (HM : MaxUint64 = 18446744073709551615) by reflexivity.
  unfold strconv_ParseUint. destruct s; [simpl; lia|].
  apply ParseUint_from_range. lia.
Qed.

(** [Atoi] answers an [int], and 0 with a syntax error. *)
Lemma Atoi_range s :
  MinInt <= fst (strconv_Atoi s) <= MaxInt /\
  (snd (strconv_Atoi s) = Some ErrSyntax -> fst (strconv_Atoi s) = 0).
Proof.
  assert (H1 : MaxInt = 9223372036854775807) by reflexivity.
  assert (H2 : MinInt = -9223372036854775808) by reflexivity.
  unfold strconv_Atoi. destruct s as [|c rest]; [simpl; split; [lia | reflexivity]|].
  match goal with
  | |- context [strconv_ParseUint ?x] =>
    pose proof (ParseUint_range x) as Hr;
      destruct (strconv_ParseUint x) as [un [[|]|]]
  end; simpl fst in Hr.
  - simpl. split; [lia | reflexivity].
  - destruct (negb (Ascii.eqb c "-") && (MaxInt + 1 <=? un))%bool eqn:E1;
      [simpl; split; [lia | discriminate]|].
    destruct (Ascii.eqb c "-" && (MaxInt + 1 <? un))%bool eqn:E2;
      [simpl; split; [lia | discriminate]|].
    simpl. split; [|discriminate].
    destruct (Ascii.eqb c "-"); simpl in E1, E2.
    + apply Z.ltb_ge in E2. lia.
    + apply Z.leb_gt in E1. lia.
  - destruct (negb (Ascii.eqb c "-") && (MaxInt + 1 <=? un))%bool eqn:E1;
      [simpl; split; [lia | discriminate]|].
    destruct (Ascii.eqb c "-" && (MaxInt + 1 <? un))%bool eqn:E2;
      [simpl; split; [lia | discriminate]|].
    simpl. split; [|discriminate].
    destruct (Ascii.eqb c "-"); simpl in E1, E2.
    + apply Z.ltb_ge in E2. lia.
    + apply Z.leb_gt in E1. lia.
Qed.


(** ** expandPort *)

Lemma dash_not_digit : digit_of "-" = None.
Proof. reflexivity. Qed.

Lemma Itoa_shape i :
  0 <= i <= MaxInt ->
  has_byte "-" (strconv_Itoa i) = false /\
  has_byte "," (strconv_Itoa i) = false /\
  has_byte "013" (strconv_Itoa i) = false /\
  exists c0 cn, first_byte (strconv_Itoa i) = Some c0 /\
                last_byte (strconv_Itoa i) = Some cn /\ plain c0 /\ plain cn.
Proof.
  unfold MaxInt. intros Hi. rewrite Itoa_nonneg by lia.
  assert (Hpow : 10 ^ 20 = 100000000000000000000) by reflexivity.
  destruct (digits_spec i) as (_ & Hd & Hne); [lia|].
  split; [apply numeral_bytes; [assumption | reflexivity]|].
  split; [apply numeral_bytes; [assumption | reflexivity]|].
  split; [apply numeral_bytes; [assumption | reflexivity]|].
  apply numeral_ends; assumption.
Qed.

(** expandPort on two parts around the first dash. *)
Lemma expandPort_parts fuel a b :
  has_byte "-" a = false -> has_byte "-" b = false ->
  expandPort fuel (a ++ String "-" b)
  = expandPort_loop fuel (fst (strconv_Atoi a)) (fst (strconv_Atoi b)) [].
Proof.
  intros Ha Hb. unfold expandPort.
  rewrite (Contains_byte_true "-" a b).
  rewrite Split_first, Split_none by assumption. reflexivity.
Qed.

Lemma expandPort_numerals fuel a b :
  0 <= a <= MaxInt -> 0 <= b < MaxInt -> (Z.to_nat (b - a + 1) < fuel)%nat ->
  expandPort fuel (strconv_Itoa a ++ String "-" (strconv_Itoa b))
  = Returns (map strconv_Itoa (zrange a b)).
Proof.
  intros Ha Hb Hfuel.
  assert (H1 : MinInt = -9223372036854775808) by reflexivity.
  destruct (Itoa_shape a Ha) as (Hda & _).
  destruct (Itoa_shape b) as (Hdb & _); [lia|].
  rewrite expandPort_parts by assumption.
  rewrite !Atoi_Itoa by lia. simpl fst.
  rewrite (expandPort_loop_ends b (proj2 Hb) (Z.to_nat (b - a + 1))) by lia.
  reflexivity.
Qed.

(** X15.  [expandPort] on a range written [a-b] with numbers in the range of
    [int]: it returns the decimal numerals of a, a+1, ..., b in this order,
    b - a + 1 of them; none when b is below a. *)
Theorem expandPort_range (fuel : nat) (a b : Z) :
  0 <= a <= MaxInt ->
  0 <= b < MaxInt ->
  (Z.to_nat (b - a + 1) < fuel)%nat ->
  expandPort fuel (strconv_Itoa a ++ String "-" (strconv_Itoa b))
  = Returns (map strconv_Itoa (zrange a b)) /\
  Z.of_nat (length (zrange a b)) = Z.max 0 (b - a + 1) /\
  (b < a -> zrange a b = []).
Proof.
  intros Ha Hb Hfuel.
  split; [apply expandPort_numerals; assumption|].
  split; [apply zrange_length | apply zrange_empty].
Qed.

(** X16.  [expandPort] on [a-b] where [strconv.Atoi] gives [b] the largest
    [int] (the numeral of it, or any numeral too large, which [Atoi] answers
    with that value and an error that [expandPort] drops): the condition
    [port <= fin] of the loop holds for every [int], [port++] wraps around,
    and the call does not return, whatever the number of iterations allowed. *)
Theorem expandPort_never_ends (fuel : nat) (a b : string) :
  has_byte "-" a = false ->
  has_byte "-" b = false ->
  fst (strconv_Atoi b) = MaxInt ->
  expandPort fuel (a ++ String "-" b) = OutOfFuel.
Proof.
  intros Ha Hb Hmax. rewrite expandPort_parts by assumption.
  rewrite Hmax. apply expandPort_loop_forever. apply Atoi_range.
Qed.


(** ** expandPorts *)

Lemma expandPorts_from_cons fuel pr rest acc :
  expandPorts_from fuel (pr :: rest) acc
  = if (String.length pr =? 0)%nat then expandPorts_from fuel rest acc
    else
      match first_byte (strings_TrimSpace pr) with
      | None => Panics
      | Some c0 =>
        let pr1 := if Ascii.eqb c0 "-" then String "1" (strings_TrimSpace pr)
                   else strings_TrimSpace pr in
        match last_byte pr1 with
        | None => Panics
        | Some cn =>
          let pr2 := if Ascii.eqb cn "-" then (pr1 ++ "65535")%string else pr1 in
          match expandPort fuel pr2 with
          | Returns more => expandPorts_from fuel rest (acc ++ more)
          | Panics => Panics
          | OutOfFuel => OutOfFuel
          end
        end
      end.
Proof. reflexivity. Qed.

Lemma length_zero s : (String.length s =? 0)%nat = String.eqb s "".
Proof. destruct s; reflexivity. Qed.

Lemma expandPorts_from_name fuel pr rest acc :
  name_entry pr ->
  expandPorts_from fuel (pr :: rest) acc
  = expandPorts_from fuel rest (acc ++ [strings_TrimSpace pr]).
Proof.
  intros [Hne Hd]. rewrite expandPorts_from_cons.
  assert (Hpr : (String.length pr =? 0)%nat = false).
  { destruct pr; [|reflexivity]. exfalso. apply Hne. reflexivity. }
  rewrite Hpr.
  destruct (first_byte (strings_TrimSpace pr)) as [c0|] eqn:E0.
  2:{ destruct (strings_TrimSpace pr); [contradiction | discriminate]. }
  rewrite (has_byte_first _ _ _ Hd E0). cbv zeta.
  destruct (last_byte_some _ Hne) as [cn En]. rewrite En.
  rewrite (has_byte_last _ _ _ Hd En).
  unfold expandPort. rewrite Contains_byte, Hd. reflexivity.
Qed.

Lemma expandPorts_name_list fuel ports :
  name_list ports -> expandPorts fuel ports = Returns (trimmed ports).
Proof.
  unfold expandPorts, name_list, trimmed. intros H.
  change (map strings_TrimSpace (filter (fun pr => negb (String.eqb pr "")) ports))
    with ([] ++ map strings_TrimSpace
                  (filter (fun pr => negb (String.eqb pr "")) ports)).
  generalize (@nil string) as acc.
  induction H as [|pr rest Hpr Hrest IH]; intros acc.
  - simpl. rewrite app_nil_r. reflexivity.
  - destruct Hpr as [-> | Hname].
    + rewrite expandPorts_from_cons. simpl. apply IH.
    + rewrite expandPorts_from_name by assumption. rewrite IH.
      assert (Hne : String.eqb pr "" = false).
      { destruct pr; [|reflexivity]. destruct Hname as [Hn _].
        exfalso. apply Hn. reflexivity. }
      simpl filter. rewrite Hne. simpl. rewrite <- app_assoc. reflexivity.
Qed.

(** X18.  [expandPorts] on entries that are empty or names without a dash:
    the empty entries are dropped, the others come back trimmed, in their
    order; the result is never longer than the input. *)
Theorem expandPorts_names (fuel : nat) (ports : list string) :
  name_list ports ->
  expandPorts fuel ports = Returns (trimmed ports) /\
  (length (trimmed ports) <= length ports)%nat.
Proof.
  intros H. split; [apply expandPorts_name_list; assumption|].
  unfold trimmed. rewrite length_map. apply filter_length_le.
Qed.

(** X19.  Open ranges: for a number n, [expandPorts] reads the entry [-n]
    as the range from 1 to n and the entry [n-] as the range from n to
    65535. *)
Theorem expandPorts_open_ranges (fuel : nat) (n : Z) :
  0 <= n < MaxInt ->
  (Z.to_nat (Z.max n 65536) < fuel)%nat ->
  expandPorts fuel [String "-" (strconv_Itoa n)]
  = Returns (map strconv_Itoa (zrange 1 n)) /\
  expandPorts fuel [(strconv_Itoa n ++ "-")%string]
  = Returns (map strconv_Itoa (zrange n 65535)).
Proof.
  intros Hn Hfuel.
  assert (HM : MaxInt = 9223372036854775807) by reflexivity.
  destruct (Itoa_shape n) as (Hd & _ & _ & c0 & cn & E0 & En & P0 & Pn); [lia|].
  assert (Pdash : plain "-") by (split; [reflexivity | apply Nat.ltb_lt; reflexivity]).
  assert (Hnd0 : Ascii.eqb c0 "-" = false) by (eapply has_byte_first; eassumption).
  assert (Hndn : Ascii.eqb cn "-" = false) by (eapply has_byte_last; eassumption).
  assert (Hnonempty : strconv_Itoa n <> EmptyString)
    by (intros E; rewrite E in E0; discriminate).
  unfold expandPorts. split.
  - rewrite expandPorts_from_cons. simpl Nat.eqb. cbv iota.
    rewrite (TrimSpace_plain (String "-" (strconv_Itoa n)) "-" cn);
      try assumption; try reflexivity;
      [|rewrite last_byte_cons by assumption; exact En].
    simpl first_byte. cbv iota. change (Ascii.eqb "-" "-") with true. cbv iota zeta.
    rewrite !last_byte_cons by (assumption || discriminate).
    rewrite En, Hndn.
    change (String "1" (String "-" (strconv_Itoa n)))
      with (strconv_Itoa 1 ++ String "-" (strconv_Itoa n))%string.
    rewrite (expandPort_numerals fuel 1 n) by lia.
    reflexivity.
  - rewrite expandPorts_from_cons.
    assert (Hlen : (String.length (strconv_Itoa n ++ "-") =? 0)%nat = false).
    { destruct (strconv_Itoa n); [contradiction | reflexivity]. }
    rewrite Hlen.
    rewrite (TrimSpace_plain (strconv_Itoa n ++ "-") c0 "-");
      try assumption;
      [| rewrite first_byte_app, E0; reflexivity
       | apply (last_byte_app (strconv_Itoa n) "-" "")].
    rewrite first_byte_app, E0, Hnd0. cbv zeta.
    rewrite (last_byte_app (strconv_Itoa n) "-" "").
    change (last_byte "-") with (Some "-"%char). cbv beta iota zeta.
    change (Ascii.eqb "-" "-") with true. cbv iota.
    replace ((strconv_Itoa n ++ "-") ++ "65535")%string
      with (strconv_Itoa n ++ String "-" (strconv_Itoa 65535))%string.
    2:{ clear. induction (strconv_Itoa n) as [|x s IH]; [reflexivity|].
        simpl. rewrite IH. reflexivity. }
    rewrite (expandPort_numerals fuel n 65535) by lia.
    reflexivity.
Qed.

(** ** ParsePorts and ParsePort *)

Lemma expandPorts_from_blank fuel pr : forall ports acc,
  In pr ports -> pr <> EmptyString -> strings_TrimSpace pr = EmptyString ->
  returned (expandPorts_from fuel ports acc) = false.
Proof.
  induction ports as [|hd rest IH]; intros acc Hin Hne Hblank; [contradiction|].
  rewrite expandPorts_from_cons.
  destruct Hin as [-> | Hin].
  - assert (Hlen : (String.length pr =? 0)%nat = false)
      by (destruct pr; [contradiction | reflexivity]).
    rewrite Hlen, Hblank. reflexivity.
  - destruct (String.length hd =? 0)%nat; [apply IH; assumption|].
    destruct (first_byte (strings_TrimSpace hd)) as [c0|]; [|reflexivity].
    cbv zeta.
    destruct (last_byte _) as [cn|]; [|reflexivity].
    destruct (expandPort fuel _) as [more| |]; try reflexivity.
    apply IH; assumption.
Qed.

Lemma choicePorts_unknown N P T name :
  String.eqb name "all" = false -> lookup N name = None -> lookup T name = None ->
  choicePorts N P T name = [name].
Proof.
  intros Hall Hn Ht. unfold choicePorts. rewrite Hall, Hn, Ht. reflexivity.
Qed.

Lemma blank_not_all pr : strings_TrimSpace pr = EmptyString -> String.eqb pr "all" = false.
Proof.
  intros H. destruct (String.eqb_spec pr "all") as [-> | Hne]; [|reflexivity].
  discriminate H.
Qed.

(** X20.  An entry that is not empty but only white space, and that is no
    preset name, makes [ParsePorts] fail: [expandPorts] trims it to the empty
    string and then indexes its first byte.  Whatever the other entries, the
    call does not return. *)
Theorem ParsePorts_blank_entry (NameMap PortMap TagMap : PortMapper)
    (sliceUnique : list string -> list string) (fuel : nat)
    (ports : list string) (pr : string) :
  In pr ports ->
  pr <> EmptyString ->
  strings_TrimSpace pr = EmptyString ->
  lookup NameMap pr = None ->
  lookup TagMap pr = None ->
  returned (ParsePorts NameMap PortMap TagMap sliceUnique fuel ports) = false.
Proof.
  intros Hin Hne Hblank Hn Ht. unfold ParsePorts, expandPorts.
  assert (Hin' : In pr (flat_map (choicePorts NameMap PortMap TagMap) ports)).
  { apply in_flat_map. exists pr. split; [assumption|].
    rewrite choicePorts_unknown; try assumption; [left; reflexivity|].
    apply blank_not_all. assumption. }
  pose proof (expandPorts_from_blank fuel pr _ [] Hin' Hne Hblank) as H.
  destruct (expandPorts_from fuel _ []); [discriminate | reflexivity | reflexivity].
Qed.

(** X21.  Presets of [ParsePorts], on a single entry: "all" gives the keys
    of [PortMap]; a key of [NameMap] with a non-nil slice gives that slice; a
    key of [TagMap] only gives the slice of [TagMap], so [NameMap] comes
    first; any other name gives itself.  In each case the entries are names,
    trimmed, and handed to [sliceUnique]. *)
Theorem ParsePorts_presets (NameMap PortMap TagMap : PortMapper)
    (sliceUnique : list string -> list string) (fuel : nat) :
  let parse := ParsePorts NameMap PortMap TagMap sliceUnique fuel in
  (name_list (map fst PortMap) ->
   parse ["all"%string] = Returns (sliceUnique (trimmed (map fst PortMap)))) /\
  (forall name ports,
      name <> "all"%string -> lookup NameMap name = Some ports ->
      name_list ports ->
      parse [name] = Returns (sliceUnique (trimmed ports))) /\
  (forall name ports,
      name <> "all"%string -> lookup NameMap name = None ->
      lookup TagMap name = Some ports -> name_list ports ->
      parse [name] = Returns (sliceUnique (trimmed ports))) /\
  (forall name,
      name <> "all"%string -> lookup NameMap name = None ->
      lookup TagMap name = None -> name_entry name ->
      parse [name] = Returns (sliceUnique [strings_TrimSpace name])).
Proof.
  cbv zeta. unfold ParsePorts.
  assert (Hone : forall name, flat_map (choicePorts NameMap PortMap TagMap) [name]
                              = choicePorts NameMap PortMap TagMap name)
    by (intros name; simpl; apply app_nil_r).
  split; [|split; [|split]].
  - intros Hl. rewrite Hone. unfold choicePorts. simpl String.eqb. cbv iota.
    rewrite expandPorts_name_list by assumption. reflexivity.
  - intros name ports Hne Hn Hl. rewrite Hone. unfold choicePorts.
    apply String.eqb_neq in Hne. rewrite Hne, Hn.
    rewrite expandPorts_name_list by assumption. reflexivity.
  - intros name ports Hne Hn Ht Hl. rewrite Hone. unfold choicePorts.
    apply String.eqb_neq in Hne. rewrite Hne, Hn, Ht.
    rewrite expandPorts_name_list by assumption. reflexivity.
  - intros name Hne Hn Ht Hname. rewrite Hone.
    apply String.eqb_neq in Hne.
    rewrite choicePorts_unknown by assumption.
    rewrite expandPorts_name_list by (constructor; [right; assumption | constructor]).
    unfold trimmed. simpl filter.
    assert (Hnn : String.eqb name "" = false).
    { destruct name; [|reflexivity]. destruct Hname as [Hx _].
      exfalso. apply Hx. reflexivity. }
    rewrite Hnn. reflexivity.
Qed.

Lemma app_dash_not_all a b : String.eqb (a ++ String "-" b) "all" = false.
Proof.
  apply String.eqb_neq. intros E.
  assert (H : has_byte "-" (a ++ String "-" b) = true).
  { rewrite has_byte_app. simpl. apply orb_true_r. }
  rewrite E in H. discriminate.
Qed.

(** X22.  [ParsePort] on the text of a range [a-b] that is no preset name
    returns [sliceUnique] of the numerals from a to b. *)
Theorem ParsePort_range (NameMap PortMap TagMap : PortMapper)
    (sliceUnique : list string -> list string) (fuel : nat) (a b : Z) :
  let text := (strconv_Itoa a ++ String "-" (strconv_Itoa b))%string in
  0 <= a <= MaxInt ->
  0 <= b < MaxInt ->
  (Z.to_nat (b - a + 1) < fuel)%nat ->
  lookup NameMap text = None ->
  lookup TagMap text = None ->
  ParsePort NameMap PortMap TagMap sliceUnique fuel text
  = Returns (sliceUnique (map strconv_Itoa (zrange a b))).
Proof.
  cbv zeta. intros Ha Hb Hfuel Hn Ht.
  destruct (Itoa_shape a Ha) as (Hda & Hca & Hra & c0 & cna & E0 & _ & P0 & _).
  destruct (Itoa_shape b) as (Hdb & Hcb & Hrb & c0b & cn & E0b & En & _ & Pn); [lia|].
  set (text := (strconv_Itoa a ++ String "-" (strconv_Itoa b))%string) in *.
  assert (Hfirst : first_byte text = Some c0)
    by (unfold text; rewrite first_byte_app, E0; reflexivity).
  assert (Hbne : strconv_Itoa b <> EmptyString)
    by (intros E; rewrite E in E0b; discriminate).
  assert (Hlast : last_byte text = Some cn).
  { unfold text. rewrite last_byte_app, last_byte_cons by assumption. exact En. }
  assert (Htrim : strings_TrimSpace text = text)
    by (apply (TrimSpace_plain text c0 cn); assumption).
  unfold ParsePort. rewrite Htrim.
  rewrite Replace_none
    by (unfold text; rewrite has_byte_app; simpl; rewrite Hra, Hrb; reflexivity).
  rewrite Split_none
    by (unfold text; rewrite has_byte_app; simpl; rewrite Hca, Hcb; reflexivity).
  unfold ParsePorts. simpl flat_map.
  rewrite choicePorts_unknown; try assumption; [|apply app_dash_not_all].
  simpl app. unfold expandPorts. rewrite expandPorts_from_cons.
  assert (Hlen : (String.length text =? 0)%nat = false).
  { destruct text; [discriminate | reflexivity]. }
  rewrite Hlen, Htrim, Hfirst.
  rewrite (has_byte_first _ _ _ Hda E0). cbv zeta. rewrite Hlast.
  rewrite (has_byte_last _ _ _ Hdb En).
  unfold text. rewrite expandPort_numerals by assumption. reflexivity.
Qed.
(** ** ToInt *)

Lemma digit_of_inv c d : digit_of c = Some d -> is_digit d /\ c = digit_char d.
Proof.
  unfold digit_of, digit_char, is_digit. cbv zeta.
  destruct ((48 <=? nat_of_ascii c)%nat && (nat_of_ascii c <=? 57)%nat)%bool eqn:E;
    [|discriminate].
  apply andb_true_iff in E. destruct E as [E1 E2].
  apply Nat.leb_le in E1. apply Nat.leb_le in E2.
  intros H. inversion H; subst. split; [lia|].
  replace (48 + Z.to_nat (Z.of_nat (nat_of_ascii c - 48)))%nat
    with (nat_of_ascii c) by lia.
  symmetry. apply ascii_nat_embedding.
Qed.

(** What [ParseUint] reads without error is a numeral, and its value. *)
Lemma ParseUint_from_ok s : forall n v,
  ParseUint_from s n = (v, None) ->
  exists ds, s = numeral ds /\ Forall is_digit ds /\ v = digits_value ds n.
Proof.
  induction s as [|c rest IH]; intros n v H.
  - simpl in H. inversion H; subst. exists []. repeat split. constructor.
  - rewrite ParseUint_from_String in H.
    destruct (digit_of c) as [d|] eqn:Ed; [|discriminate].
    destruct (MaxUint64 / 10 + 1 <=? n); [discriminate|].
    destruct (MaxUint64 <? n * 10 + d); [discriminate|].
    destruct (IH _ _ H) as (ds & -> & Hd & ->).
    destruct (digit_of_inv _ _ Ed) as [Hdd ->].
    exists (d :: ds). repeat split. constructor; assumption.
Qed.

(** A numeral too large for 64 bits stops [ParseUint] with a range error. *)
Lemma ParseUint_from_overflow ds : forall n,
  0 <= n <= MaxUint64 -> Forall is_digit ds -> MaxUint64 < digits_value ds n ->
  ParseUint_from (numeral ds) n = (MaxUint64, Some ErrRange).
Proof.
  assert (HM : MaxUint64 = 18446744073709551615) by reflexivity.
  induction ds as [|d ds IH]; intros n Hn Hd Hbig.
  - unfold digits_value in Hbig. simpl in Hbig. lia.
  - inversion Hd as [|d' ds' Hd1 Hd2]; subst.
    change (numeral (d :: ds)) with (String (digit_char d) (numeral ds)).
    change (digits_value (d :: ds) n) with (digits_value ds (n * 10 + d)) in *.
    rewrite ParseUint_from_String, digit_of_digit_char by assumption.
    rewrite cutoff_value. unfold is_digit in Hd1.
    destruct (Z.leb_spec 1844674407370955162 n) as [E1 | E1]; [reflexivity|].
    destruct (Z.ltb_spec MaxUint64 (n * 10 + d)) as [E2 | E2]; [reflexivity|].
    apply IH; [lia | assumption | assumption].
Qed.

Lemma digits_value_nil n : digits_value [] n = n.
Proof. reflexivity. Qed.

(** A numeral above the largest [int]: [Atoi] answers that [int] and a range
    error. *)
Lemma Atoi_overflow ds :
  Forall is_digit ds -> MaxInt < digits_value ds 0 ->
  strconv_Atoi (numeral ds) = (MaxInt, Some ErrRange).
Proof.
  intros Hd Hbig.
  assert (H1 : MaxInt = 9223372036854775807) by reflexivity.
  assert (HM : MaxUint64 = 18446744073709551615) by reflexivity.
  assert (Hne : ds <> []) by (intros ->; rewrite digits_value_nil in Hbig; lia).
  destruct (numeral_nonempty _ Hne) as (c & s & Es & d & -> & Hin).
  assert (Hdd : is_digit d) by (rewrite Forall_forall in Hd; auto).
  destruct (digit_char_not_sign d Hdd) as [Hm Hp].
  unfold strconv_Atoi. rewrite Es. rewrite Hm, Hp. simpl orb. cbv iota.
  rewrite <- Es. unfold strconv_ParseUint. rewrite Es. rewrite <- Es.
  destruct (Z.ltb_spec MaxUint64 (digits_value ds 0)) as [E | E].
  - rewrite ParseUint_from_overflow by (assumption || lia).
    simpl negb. simpl andb.
    match goal with
    | |- context [?a <=? ?b] => destruct (Z.leb_spec a b) as [E2 | E2]; [|lia]
    end.
    reflexivity.
  - rewrite ParseUint_from_numeral by (assumption || lia).
    simpl negb. simpl andb.
    match goal with
    | |- context [?a <=? ?b] => destruct (Z.leb_spec a b) as [E2 | E2]; [|lia]
    end.
    reflexivity.
Qed.

(** What [Atoi] reads without error is a decimal numeral with at most one
    sign before it, and its value. *)
Lemma Atoi_ok s i :
  strconv_Atoi s = (i, None) ->
  exists sign ds,
    s = (sign ++ numeral ds)%string /\ Forall is_digit ds /\ ds <> [] /\
    ((sign = EmptyString \/ sign = "+"%string) /\ i = digits_value ds 0 \/
     sign = "-"%string /\ i = - digits_value ds 0).
Proof.
  unfold strconv_Atoi. destruct s as [|c rest]; [discriminate|].
  cbv zeta.
  assert (Hpu : forall x un, strconv_ParseUint x = (un, None) ->
            exists ds, x = numeral ds /\ Forall is_digit ds /\ ds <> [] /\
                       un = digits_value ds 0).
  { intros x un. unfold strconv_ParseUint. destruct x as [|a x']; [discriminate|].
    intros H. destruct (ParseUint_from_ok _ _ _ H) as (ds & E & Hd & Hv).
    exists ds. repeat split; try assumption.
    intros ->. discriminate. }
  match goal with
  | |- context [strconv_ParseUint ?x] =>
    pose proof (Hpu x) as Hx; destruct (strconv_ParseUint x) as [un [[|]|]]
  end; [discriminate | |].
  - destruct (negb (Ascii.eqb c "-") && (MaxInt + 1 <=? un))%bool; [discriminate|].
    destruct (Ascii.eqb c "-" && (MaxInt + 1 <? un))%bool; discriminate.
  - destruct (Hx un eq_refl) as (ds & E & Hd & Hne & ->). clear Hx Hpu.
    destruct (negb (Ascii.eqb c "-") && (MaxInt + 1 <=? digits_value ds 0))%bool;
      [discriminate|].
    destruct (Ascii.eqb c "-" && (MaxInt + 1 <? digits_value ds 0))%bool;
      [discriminate|].
    intros H. inversion H; subst; clear H.
    destruct (Ascii.eqb_spec c "-") as [-> | Hm].
    + simpl in E. subst rest.
      exists "-"%string, ds. repeat split; try assumption. right. split; reflexivity.
    + destruct (Ascii.eqb_spec c "+") as [-> | Hp]; simpl in E.
      * subst rest. exists "+"%string, ds. repeat split; try assumption.
        left. split; [right; reflexivity | reflexivity].
      * exists EmptyString, ds. repeat split; try assumption.
        left. split; [left; reflexivity | reflexivity].
Qed.

(** X23.  [ToInt] reads back what [strconv.Itoa] writes for any [int]; so
    two different [int]s never have the same text. *)
Theorem ToInt_Itoa (i j : Z) :
  is_int i ->
  is_int j ->
  ToInt (strconv_Itoa i) = i /\
  (strconv_Itoa i = strconv_Itoa j -> i = j).
Proof.
  unfold is_int. intros Hi Hj.
  assert (Hback : forall k, MinInt <= k <= MaxInt -> ToInt (strconv_Itoa k) = k)
    by (intros k Hk; unfold ToInt; rewrite Atoi_Itoa by assumption; reflexivity).
  split; [apply Hback; assumption|].
  intros E. rewrite <- (Hback i Hi), <- (Hback j Hj), E. reflexivity.
Qed.

(** X24.  A numeral above the largest [int] makes [ToInt] answer 0: the
    range error of [strconv.Atoi] is caught and the largest [int] that came
    with it is dropped. *)
Theorem ToInt_overflow (ds : list Z) :
  Forall is_digit ds ->
  MaxInt < digits_value ds 0 ->
  ToInt (numeral ds) = 0 /\
  strconv_Atoi (numeral ds) = (MaxInt, Some ErrRange).
Proof.
  intros Hd Hbig. unfold ToInt. rewrite Atoi_overflow by assumption.
  split; reflexivity.
Qed.

(** X25.  [ToInt] answers an [int], and one that is not 0 only for a
    decimal numeral with at most one sign before it, whose value it is; for
    any other text it answers 0. *)
Theorem ToInt_nonzero (s : string) :
  is_int (ToInt s) /\
  (ToInt s <> 0 ->
   exists sign ds,
     s = (sign ++ numeral ds)%string /\ Forall is_digit ds /\ ds <> [] /\
     ((sign = EmptyString \/ sign = "+"%string) /\ ToInt s = digits_value ds 0 \/
      sign = "-"%string /\ ToInt s = - digits_value ds 0)).
Proof.
  unfold ToInt, is_int.
  pose proof (Atoi_range s) as [Hr _]. pose proof (Atoi_ok s) as Hok.
  destruct (strconv_Atoi s) as [i [e|]]; simpl fst in Hr.
  - split; [unfold MinInt, MaxInt; lia | intros H; contradiction H; reflexivity].
  - split; [assumption|]. intros _. apply Hok. reflexivity.
Qed.
(** ** GetModeString *)

Lemma length_append_string a b :
  String.length (a ++ b) = (String.length a + String.length b)%nat.
Proof. induction a as [|c a IH]; simpl; [reflexivity | rewrite IH; reflexivity]. Qed.

Lemma append_inv_tail a : forall b t, (a ++ t)%string = (b ++ t)%string -> a = b.
Proof.
  induction a as [|c a IH]; intros b t H.
  - destruct b as [|d b]; [reflexivity|].
    apply (f_equal String.length) in H. simpl in H.
    rewrite length_append_string in H. lia.
  - destruct b as [|d b].
    + apply (f_equal String.length) in H. simpl in H.
      rewrite length_append_string in H. lia.
    + simpl in H. inversion H; subst. f_equal. eapply IH. eassumption.
Qed.

Lemma preset_modes :
  ModeCreate = 193 /\ ModeOverwrite = 577 /\ ModeAppend = 1089.
Proof. repeat split. Qed.

(** X26.  [GetModeString] tells the modes apart: two [int]s with the same
    description are the same mode; and a mode is described as "create",
    "overwrite" or "append" only when it is that preset. *)
Theorem GetModeString_injective (m1 m2 : Z) :
  is_int m1 ->
  is_int m2 ->
  (GetModeString m1 = GetModeString m2 -> m1 = m2) /\
  (GetModeString m1 = "create"%string <-> m1 = ModeCreate) /\
  (GetModeString m1 = "overwrite"%string <-> m1 = ModeOverwrite) /\
  (GetModeString m1 = "append"%string <-> m1 = ModeAppend).
Proof.
  intros H1 H2. destruct preset_modes as (Ec & Eo & Ea).
  assert (Hcustom : forall m s,
             ("custom(" ++ strconv_Itoa m ++ ")")%string = s ->
             s <> "create"%string /\ s <> "overwrite"%string /\ s <> "append"%string).
  { intros m s <-. repeat split; simpl; discriminate. }
  unfold GetModeString. rewrite Ec, Eo, Ea.
  destruct (Z.eqb_spec m1 193) as [-> | N1];
    [|destruct (Z.eqb_spec m1 577) as [-> | N2];
      [|destruct (Z.eqb_spec m1 1089) as [-> | N3]]].
  - split; [|repeat split; intros; (reflexivity || discriminate)].
    destruct (Z.eqb_spec m2 193) as [-> | M1]; [reflexivity|].
    destruct (Z.eqb_spec m2 577); [discriminate|].
    destruct (Z.eqb_spec m2 1089); [discriminate|].
    intros E. symmetry in E. apply Hcustom in E. destruct E as (? & ? & ?). congruence.
  - split; [|repeat split; intros; (reflexivity || discriminate)].
    destruct (Z.eqb_spec m2 193); [discriminate|].
    destruct (Z.eqb_spec m2 577) as [-> | M2]; [reflexivity|].
    destruct (Z.eqb_spec m2 1089); [discriminate|].
    intros E. symmetry in E. apply Hcustom in E. destruct E as (? & ? & ?). congruence.
  - split; [|repeat split; intros; (reflexivity || discriminate)].
    destruct (Z.eqb_spec m2 193); [discriminate|].
    destruct (Z.eqb_spec m2 577); [discriminate|].
    destruct (Z.eqb_spec m2 1089) as [-> | M3]; [reflexivity|].
    intros E. symmetry in E. apply Hcustom in E. destruct E as (? & ? & ?). congruence.
  - split.
    + destruct (Z.eqb_spec m2 193);
        [intros E; apply Hcustom in E; destruct E as (? & ? & ?); congruence|].
      destruct (Z.eqb_spec m2 577);
        [intros E; apply Hcustom in E; destruct E as (? & ? & ?); congruence|].
      destruct (Z.eqb_spec m2 1089);
        [intros E; apply Hcustom in E; destruct E as (? & ? & ?); congruence|].
      intros E. simpl in E. inversion E as [E'].
      apply append_inv_tail in E'.
      pose proof (Atoi_Itoa m1 H1) as A1. pose proof (Atoi_Itoa m2 H2) as A2.
      rewrite E' in A1. rewrite A1 in A2. inversion A2. reflexivity.
    + repeat split; intros E; try contradiction;
        apply Hcustom in E; destruct E as (? & ? & ?); congruence.
Qed.
(** ** DSLParser *)

Lemma substring_all s : substring 0 (String.length s) s = s.
Proof. induction s as [|c s IH]; simpl; [reflexivity | rewrite IH; reflexivity]. Qed.

Lemma slice_prefix a b : slice (a ++ b) 0 (String.length a) = a.
Proof.
  unfold slice. rewrite Nat.sub_0_r.
  induction a as [|c a IH]; simpl.
  - destruct b; reflexivity.
  - rewrite IH. reflexivity.
Qed.

Lemma slice_suffix a c b :
  slice (a ++ String c b) (String.length a + 1)
        (String.length (a ++ String c b)) = b.
Proof.
  unfold slice. rewrite length_append_string. simpl String.length.
  replace (String.length a + S (String.length b) - (String.length a + 1))%nat
    with (String.length b) by lia.
  induction a as [|x a IH]; simpl.
  - apply substring_all.
  - exact IH.
Qed.

Lemma Index_byte_split c s : forall i,
  strings_Index s (String c EmptyString) = Some i ->
  exists a b, s = (a ++ String c b)%string /\ has_byte c a = false /\
              String.length a = i.
Proof.
  induction s as [|x rest IH]; intros i H; rewrite Index_unfold, prefix_byte in H.
  - discriminate.
  - destruct (Ascii.eqb_spec x c) as [-> | Hx].
    + inversion H; subst. exists EmptyString, rest. repeat split.
    + destruct (strings_Index rest (String c EmptyString)) as [j|] eqn:Ej;
        [|discriminate].
      simpl in H. inversion H; subst.
      destruct (IH j eq_refl) as (a & b & -> & Ha & Hl).
      exists (String x a), b. repeat split.
      * simpl. apply Ascii.eqb_neq in Hx. rewrite Hx, Ha. reflexivity.
      * simpl. rewrite Hl. reflexivity.
Qed.

(** [DSLParser] on an operator, a bar and a content: the operator is what
    stands before the first bar, the content all that follows it. *)
Lemma DSLParser_split en op content :
  op <> EmptyString -> has_byte "|" op = false ->
  DSLParser en (op ++ String "|" content)
  = if String.eqb op "b64de" then (Base64Decode en content, true)
    else if String.eqb op "b64en"
         then (bytes (Base64Encode en (bytes content)), true)
    else if String.eqb op "unhex" then (HexDecode en content, true)
    else if String.eqb op "hex"
         then (bytes (HexEncode en (bytes content)), true)
    else if String.eqb op "md5"
         then (bytes (Md5Hash en (bytes content)), true)
    else (bytes content, false).
Proof.
  intros Hne Hbar. unfold DSLParser.
  rewrite (Index_byte_first "|" op content Hbar).
  destruct (String.length op) as [|k] eqn:El;
    [destruct op; [contradiction | discriminate]|].
  rewrite <- El. cbv zeta.
  rewrite slice_prefix, slice_suffix. reflexivity.
Qed.

(** X27.  The operators of [DSLParser]: what follows the first bar is the
    content, bars included, and goes to the codec the operator names; the
    answer is true exactly when the text is one of the five operators, a bar
    and a content. *)
Theorem DSLParser_operators (en : Codecs) (s content : string) :
  DSLParser en ("b64de|" ++ content) = (Base64Decode en content, true) /\
  DSLParser en ("b64en|" ++ content) = (bytes (Base64Encode en (bytes content)), true) /\
  DSLParser en ("unhex|" ++ content) = (HexDecode en content, true) /\
  DSLParser en ("hex|" ++ content) = (bytes (HexEncode en (bytes content)), true) /\
  DSLParser en ("md5|" ++ content) = (bytes (Md5Hash en (bytes content)), true) /\
  (snd (DSLParser en s) = true <->
   exists op rest, In op operators /\ s = (op ++ "|" ++ rest)%string).
Proof.
  assert (Hop : forall op c, In op operators ->
            op <> EmptyString /\ has_byte "|" op = false /\
            snd (DSLParser en (op ++ String "|" c)) = true).
  { intros op c Hin. unfold operators in Hin. simpl in Hin.
    destruct Hin as [<- | [<- | [<- | [<- | [<- | []]]]]];
      (split; [discriminate | split; [reflexivity|]]);
      rewrite DSLParser_split by (discriminate || reflexivity); reflexivity. }
  split; [exact (DSLParser_split en "b64de" content ltac:(discriminate) eq_refl)|].
  split; [exact (DSLParser_split en "b64en" content ltac:(discriminate) eq_refl)|].
  split; [exact (DSLParser_split en "unhex" content ltac:(discriminate) eq_refl)|].
  split; [exact (DSLParser_split en "hex" content ltac:(discriminate) eq_refl)|].
  split; [exact (DSLParser_split en "md5" content ltac:(discriminate) eq_refl)|].
  split.
  - intros Hok.
    destruct (strings_Index s "|") as [[|k]|] eqn:Ei;
      try (unfold DSLParser in Hok; rewrite Ei in Hok; discriminate).
    destruct (Index_byte_split _ _ _ Ei) as (a & b & -> & Ha & Hl).
    assert (Hne : a <> EmptyString) by (intros ->; discriminate).
    rewrite DSLParser_split in Hok by assumption.
    exists a, b. split; [|reflexivity]. unfold operators.
    destruct (String.eqb_spec a "b64de"); [subst; simpl; tauto|].
    destruct (String.eqb_spec a "b64en"); [subst; simpl; tauto|].
    destruct (String.eqb_spec a "unhex"); [subst; simpl; tauto|].
    destruct (String.eqb_spec a "hex"); [subst; simpl; tauto|].
    destruct (String.eqb_spec a "md5"); [subst; simpl; tauto|].
    discriminate.
  - intros (op & rest & Hin & ->). apply (Hop op rest Hin).
Qed.

(** X28.  An operator [DSLParser] does not know: the answer is false and
    the bytes are the content after the first bar, the operator and the bar
    dropped; [DSLParserToString] gives the content back as a string. *)
Theorem DSLParser_unknown (en : Codecs) (op content : string) :
  op <> EmptyString ->
  has_byte "|" op = false ->
  ~ In op operators ->
  DSLParser en (op ++ "|" ++ content) = (bytes content, false) /\
  DSLParserToString en (op ++ "|" ++ content) = (content, false).
Proof.
  intros Hne Hbar Hnot.
  change ("|" ++ content)%string with (String "|" content).
  assert (H : DSLParser en (op ++ String "|" content) = (bytes content, false)).
  { rewrite DSLParser_split by assumption. unfold operators in Hnot.
    destruct (String.eqb_spec op "b64de"); [exfalso; apply Hnot; subst; simpl; tauto|].
    destruct (String.eqb_spec op "b64en"); [exfalso; apply Hnot; subst; simpl; tauto|].
    destruct (String.eqb_spec op "unhex"); [exfalso; apply Hnot; subst; simpl; tauto|].
    destruct (String.eqb_spec op "hex"); [exfalso; apply Hnot; subst; simpl; tauto|].
    destruct (String.eqb_spec op "md5"); [exfalso; apply Hnot; subst; simpl; tauto|].
    reflexivity. }
  split; [exact H|].
  unfold DSLParserToString. rewrite H. unfold bytes.
  rewrite string_of_list_byte_of_string. reflexivity.
Qed.

(** X29.  A text with no bar, or with a bar at its very start, has no
    operator: [DSLParser] answers false with the bytes of the whole text, even
    when an operator follows that first bar; [DSLParserToString] gives the
    text back. *)
Theorem DSLParser_no_operator (en : Codecs) (s : string) :
  has_byte "|" s = false \/ first_byte s = Some "|"%char ->
  DSLParser en s = (bytes s, false) /\ DSLParserToString en s = (s, false).
Proof.
  intros H.
  assert (Hp : DSLParser en s = (bytes s, false)).
  { unfold DSLParser. destruct H as [H | H].
    - rewrite Index_byte_none by assumption. reflexivity.
    - destruct s as [|c rest]; [discriminate|]. simpl in H. inversion H; subst.
      rewrite Index_unfold, prefix_byte. reflexivity. }
  split; [exact Hp|].
  unfold DSLParserToString. rewrite Hp. unfold bytes.
  rewrite string_of_list_byte_of_string. reflexivity.
Qed.
(** ** ParsePort on a list with commas *)

Lemma Split_comma_list parts :
  parts <> [] -> Forall one_entry parts ->
  strings_Split (comma_list parts) "," = parts.
Proof.
  induction parts as [|p rest IH]; intros Hne H; [contradiction|].
  inversion H as [|p' rest' [Hp _] Hrest]; subst.
  destruct rest as [|q rest].
  - simpl. apply Split_none. assumption.
  - change (comma_list (p :: q :: rest))
      with (p ++ String "," (comma_list (q :: rest)))%string.
    rewrite Split_first by assumption.
    rewrite IH; [reflexivity | discriminate | assumption].
Qed.

Lemma comma_list_no_return parts :
  Forall one_entry parts -> has_byte "013" (comma_list parts) = false.
Proof.
  induction parts as [|p rest IH]; intros H; [reflexivity|].
  inversion H as [|p' rest' [_ Hp] Hrest]; subst.
  destruct rest as [|q rest]; [exact Hp|].
  change (comma_list (p :: q :: rest))
    with (p ++ String "," (comma_list (q :: rest)))%string.
  rewrite has_byte_app, Hp. simpl. apply IH. assumption.
Qed.

(** X30.  [ParsePort] on entries joined with commas is [ParsePorts] on the
    entries, given that no entry holds a comma or a carriage return and that
    the text has no white space around it. *)
Theorem ParsePort_commas (NameMap PortMap TagMap : PortMapper)
    (sliceUnique : list string -> list string) (fuel : nat)
    (parts : list string) :
  parts <> [] ->
  Forall one_entry parts ->
  strings_TrimSpace (comma_list parts) = comma_list parts ->
  ParsePort NameMap PortMap TagMap sliceUnique fuel (comma_list parts)
  = ParsePorts NameMap PortMap TagMap sliceUnique fuel parts.
Proof.
  intros Hne Hparts Htrim. unfold ParsePort. cbv zeta. rewrite Htrim.
  rewrite Replace_none by (apply comma_list_no_return; assumption).
  rewrite Split_comma_list by assumption. reflexivity.
Qed.
(** ** Witnesses for the ports, the numbers and the parser *)

Ltac names_only :=
  repeat (apply Forall_cons;
          [first [left; reflexivity
                 | right; split; [vm_compute; discriminate | vm_compute; reflexivity]]|]);
  apply Forall_nil.

Lemma expandPort_range_witness :
  expandPort 5 "8080-8082" = Returns ["8080"; "8081"; "8082"]%string /\
  expandPort 5 "8082-8080" = Returns [].
Proof.
  assert (Ha : 0 <= 8080 <= MaxInt) by (unfold MaxInt; lia).
  assert (Hb : 0 <= 8082 < MaxInt) by (unfold MaxInt; lia).
  assert (Ha' : 0 <= 8082 <= MaxInt) by (unfold MaxInt; lia).
  assert (Hb' : 0 <= 8080 < MaxInt) by (unfold MaxInt; lia).
  assert (Hf : (Z.to_nat (8082 - 8080 + 1) < 5)%nat) by (simpl; lia).
  assert (Hf' : (Z.to_nat (8080 - 8082 + 1) < 5)%nat) by (simpl; lia).
  pose proof (proj1 (expandPort_range 5 8080 8082 Ha Hb Hf)) as H.
  pose proof (proj1 (expandPort_range 5 8082 8080 Ha' Hb' Hf')) as H'.
  vm_compute in H. vm_compute in H'. vm_compute. split; [exact H | exact H'].
Defined.

Lemma expandPort_never_ends_witness :
  fst (strconv_Atoi "99999999999999999999") = MaxInt /\
  expandPort 1000 ("1" ++ String "-" "99999999999999999999") = OutOfFuel.
Proof.
  assert (H : fst (strconv_Atoi "99999999999999999999") = MaxInt)
    by (vm_compute; reflexivity).
  split; [exact H|].
  exact (expandPort_never_ends 1000 "1" "99999999999999999999" eq_refl eq_refl H).
Defined.


Lemma expandPorts_names_witness :
  name_list ["80"; ""; " http "]%string /\
  expandPorts 0 ["80"; ""; " http "]%string
  = Returns (trimmed ["80"; ""; " http "]%string).
Proof.
  assert (H : name_list ["80"; ""; " http "]%string) by (unfold name_list; names_only).
  split; [exact H|].
  exact (proj1 (expandPorts_names 0 ["80"; ""; " http "]%string H)).
Defined.

Lemma expandPorts_open_ranges_witness :
  expandPorts (Z.to_nat 70000) [String "-" (strconv_Itoa 3)]
  = Returns (map strconv_Itoa (zrange 1 3)) /\
  expandPorts (Z.to_nat 70000) [(strconv_Itoa 3 ++ "-")%string]
  = Returns (map strconv_Itoa (zrange 3 65535)).
Proof.
  apply (expandPorts_open_ranges (Z.to_nat 70000) 3); [unfold MaxInt; lia | lia].
Defined.

Lemma ParsePorts_blank_entry_witness :
  strings_TrimSpace " " = EmptyString /\
  returned (ParsePorts names known_ports tags dedup 0 ["80"; " "]%string) = false.
Proof.
  assert (H : strings_TrimSpace " " = EmptyString) by (vm_compute; reflexivity).
  split; [exact H|].
  apply (ParsePorts_blank_entry names known_ports tags dedup 0
           ["80"; " "]%string " ");
    [right; left; reflexivity | discriminate | exact H | reflexivity | reflexivity].
Defined.

Lemma ParsePorts_presets_witness :
  ParsePorts names known_ports tags dedup 0 ["all"%string]
  = Returns (dedup (trimmed ["80"; "443"]%string)) /\
  ParsePorts names known_ports tags dedup 0 ["web"%string]
  = Returns (dedup (trimmed ["80"; "443"]%string)) /\
  ParsePorts names known_ports tags dedup 0 ["db"%string]
  = Returns (dedup (trimmed ["3306"; "5432"]%string)) /\
  ParsePorts names known_ports tags dedup 0 [" 8080 "%string]
  = Returns (dedup ["8080"%string]).
Proof.
  destruct (ParsePorts_presets names known_ports tags dedup 0) as (H1 & H2 & H3 & H4).
  split; [apply H1; unfold name_list; names_only|].
  split; [apply (H2 "web"%string);
          [discriminate | reflexivity | unfold name_list; names_only]|].
  split; [apply (H3 "db"%string);
          [discriminate | reflexivity | reflexivity | unfold name_list; names_only]|].
  apply (H4 " 8080 "%string);
    [discriminate | reflexivity | reflexivity
     | split; [vm_compute; discriminate | vm_compute; reflexivity]].
Defined.

Lemma ParsePort_range_witness :
  ParsePort names known_ports tags dedup 5
    (strconv_Itoa 80 ++ String "-" (strconv_Itoa 82))
  = Returns (dedup (map strconv_Itoa (zrange 80 82))).
Proof.
  apply (ParsePort_range names known_ports tags dedup 5 80 82);
    [unfold MaxInt; lia | unfold MaxInt; lia | simpl; lia
     | vm_compute; reflexivity | vm_compute; reflexivity].
Defined.

Lemma ToInt_Itoa_witness :
  is_int (-42) /\ is_int MaxInt /\ ToInt (strconv_Itoa (-42)) = -42.
Proof.
  assert (H1 : is_int (-42)) by (unfold is_int, MinInt, MaxInt; lia).
  assert (H2 : is_int MaxInt) by (unfold is_int, MinInt, MaxInt; lia).
  split; [exact H1|]. split; [exact H2|].
  exact (proj1 (ToInt_Itoa (-42) MaxInt H1 H2)).
Defined.

Lemma ToInt_overflow_witness :
  numeral [9; 2; 2; 3; 3; 7; 2; 0; 3; 6; 8; 5; 4; 7; 7; 5; 8; 0; 8]
  = "9223372036854775808"%string /\
  ToInt (numeral [9; 2; 2; 3; 3; 7; 2; 0; 3; 6; 8; 5; 4; 7; 7; 5; 8; 0; 8]) = 0.
Proof.
  split; [reflexivity|].
  apply (ToInt_overflow [9; 2; 2; 3; 3; 7; 2; 0; 3; 6; 8; 5; 4; 7; 7; 5; 8; 0; 8]).
  - repeat (apply Forall_cons; [unfold is_digit; lia|]). apply Forall_nil.
  - vm_compute. reflexivity.
Defined.

Lemma GetModeString_injective_witness :
  is_int 0 /\ is_int ModeAppend /\
  GetModeString 0 = "custom(0)"%string /\
  (GetModeString ModeAppend = "append"%string <-> ModeAppend = ModeAppend).
Proof.
  assert (H1 : is_int 0) by (unfold is_int, MinInt, MaxInt; lia).
  assert (H2 : is_int ModeAppend) by (vm_compute; split; discriminate).
  split; [exact H1|]. split; [exact H2|]. split; [reflexivity|].
  exact (proj2 (proj2 (proj2 (GetModeString_injective ModeAppend 0 H2 H1)))).
Defined.

Lemma DSLParser_unknown_witness :
  ~ In "rot13"%string operators /\
  DSLParser labelling ("rot13" ++ "|" ++ "a|b") = (bytes "a|b", false).
Proof.
  assert (H : ~ In "rot13"%string operators).
  { unfold operators. simpl. intros [E | [E | [E | [E | [E | []]]]]]; discriminate E. }
  split; [exact H|].
  exact (proj1 (DSLParser_unknown labelling "rot13" "a|b"
                  ltac:(discriminate) eq_refl H)).
Defined.

Lemma DSLParser_no_operator_witness :
  first_byte "|hex|ab" = Some "|"%char /\
  DSLParser labelling "|hex|ab" = (bytes "|hex|ab", false) /\
  DSLParser labelling "plain" = (bytes "plain", false).
Proof.
  split; [reflexivity|].
  split.
  - exact (proj1 (DSLParser_no_operator labelling "|hex|ab" (or_intror eq_refl))).
  - exact (proj1 (DSLParser_no_operator labelling "plain" (or_introl eq_refl))).
Defined.

Lemma ParsePort_commas_witness :
  comma_list ["web"; "8080-8082"; "db"]%string = "web,8080-8082,db"%string /\
  ParsePort names known_ports tags dedup 5
    (comma_list ["web"; "8080-8082"; "db"]%string)
  = ParsePorts names known_ports tags dedup 5 ["web"; "8080-8082"; "db"]%string.
Proof.
  split; [reflexivity|].
  apply (ParsePort_commas names known_ports tags dedup 5
           ["web"; "8080-8082"; "db"]%string).
  - discriminate.
  - repeat (apply Forall_cons; [split; reflexivity|]). apply Forall_nil.
  - vm_compute. reflexivity.
Defined.
